(** * jsonenv: the path codec and the type-aware merge of [src/lib/main.js]

    A shallow embedding of [deflate], [deflateKeys], [_inflateItem],
    [inflate], [merge], [mergeEnvObject], [mergeEnvJsonValue] and
    [mergeEnvArray], together with the fragment of the JavaScript runtime
    these functions rely on (property order, truthiness, [typeof],
    [Number], [String.prototype.trim], [split], [JSON.parse]).

    Conventions of the model.
    - A JavaScript string is a [string] whose characters are the code units
      below 256.
    - A JavaScript number is an exact decimal ([NaN] and the infinities
      apart); rounding to binary64 is not modelled, and [-0] is identified
      with [0] (the program cannot tell them apart).
    - Objects and arrays are property lists kept in the order in which
      JavaScript enumerates own properties; arrays carry their [length].
    - A computation ends in [Ok], in [Throw] (a JavaScript exception) or in
      [Beyond]: the input left the modelled fragment of the language. *)

From Stdlib Require Import List String Ascii ZArith NArith Bool Arith Lia.
From Stdlib Require Import DecimalString DecimalPos DecimalN FinFun.
Import ListNotations.

#[local] Open Scope string_scope.
#[local] Open Scope list_scope.
#[local] Open Scope nat_scope.

(** String concatenation, kept apart from the append of lists. *)
Infix "+++" := String.append (right associativity, at level 60).

(* ================================================================= *)
(** * Outcomes *)

(** The exceptions the program can raise.  The first three are the
    [new Error(...)] of the source, named after their messages; the others
    are raised by the runtime. *)
Inductive error : Type :=
| TypeMismatch            (* 'Properties type doesn\'t matched' *)
| InvalidJsonString       (* 'Invalid json string' *)
| InvalidJsonArrayString  (* 'Invalid json array string' *)
| SyntaxError             (* JSON.parse on a text that is not JSON *)
| TypeError.              (* Object.keys(null), Object.keys(undefined) *)

(** Why an input is outside the modelled fragment. *)
Inductive limit : Type :=
| OutOfFuel      (* the recursion budget of a fuelled function ran out *)
| InheritedName  (* a property read reached a prototype member, or a write
                    reached the [__proto__] or array [length] accessors *)
| WideChar       (* a JSON escape denotes a code unit above 255 *)
| Dangling.      (* a reference to a location that the store does not have *)

Inductive outcome (A : Type) : Type :=
| Ok (a : A)
| Throw (e : error)
| Beyond (l : limit).

Arguments Ok {A} a.
Arguments Throw {A} e.
Arguments Beyond {A} l.

Definition bind {A B : Type} (m : outcome A) (k : A -> outcome B) : outcome B :=
  match m with
  | Ok a => k a
  | Throw e => Throw e
  | Beyond l => Beyond l
  end.

Declare Scope js_scope.
Delimit Scope js_scope with js.
Notation "x <- m ;; k" := (bind m (fun x => k))
  (at level 61, m at next level, right associativity) : js_scope.
Notation "' p <- m ;; k" := (bind m (fun p => k))
  (at level 61, p pattern, m at next level, right associativity) : js_scope.
#[local] Open Scope js_scope.

(** [try { m } catch (e) { h }]: only exceptions are caught. *)
Definition try_catch {A : Type} (m : outcome A) (h : outcome A) : outcome A :=
  match m with
  | Throw _ => h
  | _ => m
  end.

(* ================================================================= *)
(** * Strings *)

(** [WhiteSpace] and [LineTerminator] code units below 256: TAB, LF, VT,
    FF, CR, SP and NBSP. *)
Definition is_ws (c : ascii) : bool :=
  let n := nat_of_ascii c in
  ((9 <=? n) && (n <=? 13)) || (n =? 32) || (n =? 160).

Fixpoint trimStart (s : string) : string :=
  match s with
  | String c s' => if is_ws c then trimStart s' else s
  | EmptyString => EmptyString
  end.

Fixpoint all_ws (s : string) : bool :=
  match s with
  | String c s' => is_ws c && all_ws s'
  | EmptyString => true
  end.

Fixpoint trimEnd (s : string) : string :=
  match s with
  | String c s' => if all_ws s then EmptyString else String c (trimEnd s')
  | EmptyString => EmptyString
  end.

(** [String.prototype.trim]. *)
Definition trim (s : string) : string := trimEnd (trimStart s).

(** [s.split(sep)] for a one-character separator, as the first segment and
    the remaining ones: the array is never empty. *)
Fixpoint split (sep : ascii) (s : string) : string * list string :=
  match s with
  | EmptyString => (EmptyString, [])
  | String c s' =>
      let (seg, segs) := split sep s' in
      if Ascii.eqb c sep then (EmptyString, seg :: segs) else (String c seg, segs)
  end.

(** [s.startsWith(p)]. *)
Definition startsWith (s p : string) : bool := String.prefix p s.

Definition is_upper (c : ascii) : bool :=
  let n := nat_of_ascii c in (65 <=? n) && (n <=? 90).

(** [String.prototype.toLowerCase] on the letters A to Z; among code units
    below 256 these are the only ones whose lower case is an ASCII letter,
    which is all that a comparison with ['true'] or ['false'] observes. *)
Fixpoint toLowerCase (s : string) : string :=
  match s with
  | EmptyString => EmptyString
  | String c s' =>
      String (if is_upper c then ascii_of_nat (nat_of_ascii c + 32) else c)
             (toLowerCase s')
  end.

(** Join with a separator ([Array.prototype.join]). *)
Fixpoint join (sep : string) (l : list string) : string :=
  match l with
  | [] => EmptyString
  | [s] => s
  | s :: l' => s +++ sep +++ join sep l'
  end.

(* ================================================================= *)
(** * Numbers *)

(** [Dec m s] is the number [m / 10^s]; in normal form [s = 0] or [m] is
    not a multiple of ten.  The decimal is kept as it is written: the
    rounding of the engine to a binary64 value, its overflow to [Infinity]
    and its underflow to zero are not modelled.  The two agree on the
    decimals of at most 15 significant digits within the range of the
    normal binary64 values. *)
Inductive number : Type :=
| NaN
| Infinity (negative : bool)
| Dec (mant : Z) (scale : nat).

Definition isNaN (n : number) : bool :=
  match n with NaN => true | _ => false end.

Fixpoint normalize (m : Z) (s : nat) : number :=
  match s with
  | O => Dec m 0
  | S s' => if (m mod 10 =? 0)%Z then normalize (m / 10)%Z s' else Dec m s
  end.

Definition of_Z (z : Z) : number := Dec z 0.

Definition is_digit (c : ascii) : bool :=
  let n := nat_of_ascii c in (48 <=? n) && (n <=? 57).

Definition digit_val (c : ascii) : Z := Z.of_nat (nat_of_ascii c - 48).

(** The longest prefix of decimal digits and what follows it. *)
Fixpoint span_digits (s : string) : string * string :=
  match s with
  | String c s' =>
      if is_digit c then let (d, r) := span_digits s' in (String c d, r)
      else (EmptyString, s)
  | EmptyString => (EmptyString, EmptyString)
  end.

Fixpoint digits_value (acc : Z) (s : string) : Z :=
  match s with
  | String c s' => digits_value (10 * acc + digit_val c)%Z s'
  | EmptyString => acc
  end.

(** The value of the digits [ip] . [fp] e [ex]. *)
Definition decimal (neg : bool) (ip fp : string) (ex : Z) : number :=
  let m := digits_value 0 (ip +++ fp) in
  let m := if neg then (- m)%Z else m in
  let e := (ex - Z.of_nat (String.length fp))%Z in
  if (0 <=? e)%Z then Dec (m * 10 ^ e)%Z 0 else normalize m (Z.to_nat (- e)).

(** [ExponentPart] followed by the end of the literal. *)
Definition exponent_part (s : string) : option Z :=
  match s with
  | EmptyString => Some 0%Z
  | String c s' =>
      if Ascii.eqb c "e" || Ascii.eqb c "E" then
        let (neg, s'') :=
          match s' with
          | String "+" r => (false, r)
          | String "-" r => (true, r)
          | _ => (false, s')
          end in
        let (d, r) := span_digits s'' in
        match d, r with
        | String _ _, EmptyString =>
            Some (if neg then - digits_value 0 d else digits_value 0 d)%Z
        | _, _ => None
        end
      else None
  end.

(** [StrUnsignedDecimalLiteral] other than [Infinity]. *)
Definition unsigned_decimal (neg : bool) (s : string) : number :=
  let (ip, r) := span_digits s in
  match r with
  | String "." r' =>
      let (fp, r'') := span_digits r' in
      match ip, fp with
      | EmptyString, EmptyString => NaN
      | _, _ =>
          match exponent_part r'' with
          | Some ex => decimal neg ip fp ex
          | None => NaN
          end
      end
  | _ =>
      match ip with
      | EmptyString => NaN
      | _ =>
          match exponent_part r with
          | Some ex => decimal neg ip EmptyString ex
          | None => NaN
          end
      end
  end.

Definition radix_digit (radix : Z) (c : ascii) : option Z :=
  let n := Z.of_nat (nat_of_ascii c) in
  let v :=
    if (48 <=? n)%Z && (n <=? 57)%Z then (n - 48)%Z
    else if (97 <=? n)%Z && (n <=? 102)%Z then (n - 87)%Z
    else if (65 <=? n)%Z && (n <=? 70)%Z then (n - 55)%Z
    else 99%Z in
  if (v <? radix)%Z then Some v else None.

Fixpoint radix_value (radix acc : Z) (s : string) : option Z :=
  match s with
  | EmptyString => Some acc
  | String c s' =>
      match radix_digit radix c with
      | Some v => radix_value radix (radix * acc + v)%Z s'
      | None => None
      end
  end.

(** [NonDecimalIntegerLiteral]: [0x], [0o] and [0b] literals. *)
Definition non_decimal (s : string) : option number :=
  match s with
  | String "0" (String p (String c r)) =>
      let radix :=
        if Ascii.eqb p "x" || Ascii.eqb p "X" then Some 16%Z
        else if Ascii.eqb p "o" || Ascii.eqb p "O" then Some 8%Z
        else if Ascii.eqb p "b" || Ascii.eqb p "B" then Some 2%Z
        else None in
      match radix with
      | Some rx =>
          Some match radix_value rx 0 (String c r) with
               | Some v => Dec v 0
               | None => NaN
               end
      | None => None
      end
  | _ => None
  end.

(** [Number(s)] on a string ([StringToNumber]): white space is trimmed,
    the empty string is [0], and whatever is not a [StrNumericLiteral] is
    [NaN]. *)
Definition StringToNumber (s : string) : number :=
  let t := trim s in
  match t with
  | EmptyString => Dec 0 0
  | _ =>
      match non_decimal t with
      | Some n => n
      | None =>
          let (neg, u) :=
            match t with
            | String "+" r => (false, r)
            | String "-" r => (true, r)
            | _ => (false, t)
            end in
          if String.eqb u "Infinity" then Infinity neg
          else unsigned_decimal neg u
      end
  end.

Definition Z_to_string (z : Z) : string :=
  NilZero.string_of_uint (N.to_uint (Z.to_N z)).

Fixpoint zeros (n : nat) : string :=
  match n with O => EmptyString | S n' => String "0" (zeros n') end.

Fixpoint strip_zeros_end (s : string) : string :=
  match s with
  | EmptyString => EmptyString
  | String c s' =>
      match strip_zeros_end s' with
      | EmptyString => if Ascii.eqb c "0" then EmptyString else String c EmptyString
      | t => String c t
      end
  end.

(** [Number::toString] in radix ten. *)
Definition NumberToString (x : number) : string :=
  match x with
  | NaN => "NaN"
  | Infinity neg => if neg then "-Infinity" else "Infinity"
  | Dec m s =>
      if (m =? 0)%Z then "0" else
      let sign := if (m <? 0)%Z then "-" else "" in
      let all := Z_to_string (Z.abs m) in
      let ds := strip_zeros_end all in
      let k := Z.of_nat (String.length ds) in
      let n := (Z.of_nat (String.length all) - Z.of_nat s)%Z in
      let body :=
        if (k <=? n)%Z && (n <=? 21)%Z then ds +++ zeros (Z.to_nat (n - k))
        else if (0 <? n)%Z && (n <=? 21)%Z then
          substring 0 (Z.to_nat n) ds +++ "." ++
          substring (Z.to_nat n) (String.length ds - Z.to_nat n) ds
        else if (-6 <? n)%Z && (n <=? 0)%Z then "0." +++ zeros (Z.to_nat (- n)) +++ ds
        else
          let e := (n - 1)%Z in
          let es := (if (e <? 0)%Z then "-" else "+") +++ Z_to_string (Z.abs e) in
          match ds with
          | String d EmptyString => String d EmptyString +++ "e" +++ es
          | String d rest => String d EmptyString +++ "." +++ rest +++ "e" +++ es
          | EmptyString => EmptyString
          end in
      sign +++ body
  end.

(* ================================================================= *)
(** * Values *)

(** Configuration values.  The property list of an object or an array is
    kept in own-property order: array indices in ascending order first,
    then the other names in creation order.  An array also records its
    [length], so that holes are representable. *)
#[warnings="-register-all"]
Inductive jsvalue : Type :=
| VUndef
| VNull
| VBool (b : bool)
| VNum (n : number)
| VStr (s : string)
| VObj (props : list (string * jsvalue))
| VArr (len : N) (props : list (string * jsvalue)).

Definition props : Type := list (string * jsvalue).

Definition N_to_string (n : N) : string := NilZero.string_of_uint (N.to_uint n).

(** The array indices: the canonical numeric strings below [2^32 - 1]. *)
Definition array_index (k : string) : option N :=
  match NilZero.uint_of_string k with
  | Some d =>
      let n := N.of_uint d in
      if String.eqb (N_to_string n) k && (n <? 4294967295)%N then Some n else None
  | None => None
  end.

Fixpoint lookup {A : Type} (ps : list (string * A)) (k : string) : option A :=
  match ps with
  | [] => None
  | (k', v) :: ps' => if String.eqb k' k then Some v else lookup ps' k
  end.

(** [CreateDataProperty]: an existing property keeps its place; a new one
    goes where own-property order puts it. *)
Fixpoint define {A : Type} (ps : list (string * A)) (k : string) (v : A)
  : list (string * A) :=
  match ps with
  | [] => [(k, v)]
  | (k', v') :: ps' =>
      if String.eqb k' k then (k, v) :: ps'
      else
        match array_index k, array_index k' with
        | Some i, Some i' =>
            if (i <? i')%N then (k, v) :: ps else (k', v') :: define ps' k v
        | Some _, None => (k, v) :: ps
        | None, _ => (k', v') :: define ps' k v
        end
  end.

(** [{...a, ...b}]. *)
Definition spread {A : Type} (a b : list (string * A)) : list (string * A) :=
  fold_left (fun acc kv => define acc (fst kv) (snd kv)) b a.

(** The string-named members of the prototype objects (ECMAScript 2023,
    annex B included): of [Object.prototype]; of both [Array.prototype] and
    [String.prototype]; of [Array.prototype] alone; of [String.prototype]
    alone; of [Number.prototype] alone.  [Boolean.prototype] has none beside
    those of [Object.prototype]. *)
Definition object_names : list string :=
  [ "constructor"; "__defineGetter__"; "__defineSetter__"; "hasOwnProperty";
    "__lookupGetter__"; "__lookupSetter__"; "isPrototypeOf";
    "propertyIsEnumerable"; "toString"; "valueOf"; "__proto__";
    "toLocaleString" ].

Definition sequence_names : list string :=
  [ "at"; "concat"; "includes"; "indexOf"; "lastIndexOf"; "slice" ].

Definition array_names : list string :=
  [ "length"; "copyWithin"; "fill"; "find"; "findIndex";
    "findLast"; "findLastIndex"; "pop"; "push"; "reverse";
    "shift"; "unshift"; "sort"; "splice";
    "join"; "keys"; "entries"; "values"; "forEach"; "filter"; "flat";
    "flatMap"; "map"; "every"; "some"; "reduce"; "reduceRight";
    "toReversed"; "toSorted"; "toSpliced"; "with" ].

Definition string_names : list string :=
  [ "charAt"; "charCodeAt"; "codePointAt"; "endsWith"; "localeCompare";
    "match"; "matchAll"; "normalize"; "padEnd"; "padStart"; "repeat";
    "replace"; "replaceAll"; "search"; "split"; "startsWith"; "substring";
    "substr"; "toLocaleLowerCase"; "toLocaleUpperCase"; "toLowerCase";
    "toUpperCase"; "trim"; "trimStart"; "trimEnd"; "trimLeft"; "trimRight";
    "isWellFormed"; "toWellFormed"; "anchor"; "big"; "blink"; "bold";
    "fixed"; "fontcolor"; "fontsize"; "italics"; "link"; "small"; "strike";
    "sub"; "sup" ].

Definition number_names : list string :=
  [ "toExponential"; "toFixed"; "toPrecision" ].

(** What a plain object, an array, a string and a number inherit. *)
Definition object_members : list string := object_names.
Definition array_members : list string :=
  object_names ++ sequence_names ++ array_names.
Definition string_members : list string :=
  object_names ++ sequence_names ++ string_names.
Definition number_members : list string := object_names ++ number_names.

Definition prototype_names : list string :=
  object_names ++ sequence_names ++ array_names ++ string_names ++
  number_names.

Definition member (names : list string) (k : string) : bool :=
  existsb (String.eqb k) names.

(** The name of a member of one of these prototypes. *)
Definition inherited (k : string) : bool :=
  existsb (String.eqb k) prototype_names.

(** A read that misses the own properties goes to the prototype of the
    receiver, whose members are [names]: a member found there is a function
    or an accessor result, which are not values of the model; otherwise the
    read yields [undefined]. *)
Definition miss (names : list string) (k : string) : outcome jsvalue :=
  if member names k then Beyond InheritedName else Ok VUndef.

(** [o[k]]. *)
Definition Get (o : jsvalue) (k : string) : outcome jsvalue :=
  match o with
  | VUndef | VNull => Throw TypeError
  | VObj ps =>
      match lookup ps k with Some v => Ok v | None => miss object_members k end
  | VArr len ps =>
      match lookup ps k with
      | Some v => Ok v
      | None =>
          if String.eqb k "length" then Ok (VNum (Dec (Z.of_N len) 0))
          else miss array_members k
      end
  | VStr s =>
      match array_index k with
      | Some i =>
          match String.get (N.to_nat i) s with
          | Some c => Ok (VStr (String c EmptyString))
          | None => Ok VUndef
          end
      | None =>
          if String.eqb k "length" then Ok (VNum (Dec (Z.of_nat (String.length s)) 0))
          else miss string_members k
      end
  | VNum _ => miss number_members k
  | VBool _ => miss object_members k
  end.

(** [o[k] = v] in sloppy mode (the module has no ['use strict']): a write
    to a property of a primitive is dropped.  A write to [__proto__] that
    is not an own property, and a write to the [length] of an array, go
    through the engine (a change of prototype; a truncation or a
    RangeError), which the model does not follow: [Beyond]. *)
Definition Put (o : jsvalue) (k : string) (v : jsvalue) : outcome jsvalue :=
  match o with
  | VUndef | VNull => Throw TypeError
  | VObj ps =>
      match lookup ps k with
      | None => if String.eqb k "__proto__" then Beyond InheritedName
                else Ok (VObj (define ps k v))
      | Some _ => Ok (VObj (define ps k v))
      end
  | VArr len ps =>
      if String.eqb k "length" then Beyond InheritedName else
      match lookup ps k with
      | None =>
          if String.eqb k "__proto__" then Beyond InheritedName
          else Ok (VArr match array_index k with
                        | Some i => N.max len (i + 1)
                        | None => len
                        end (define ps k v))
      | Some _ => Ok (VArr len (define ps k v))
      end
  | VBool _ | VNum _ | VStr _ => Ok o
  end.

(** The own enumerable string keys, in order. *)
Definition own_keys (o : jsvalue) : list string :=
  match o with
  | VObj ps | VArr _ ps => map fst ps
  | VStr s => map (fun i => N_to_string (N.of_nat i)) (seq 0 (String.length s))
  | _ => []
  end.

(** [Object.keys(o)]. *)
Definition Object_keys (o : jsvalue) : outcome (list string) :=
  match o with
  | VUndef | VNull => Throw TypeError
  | _ => Ok (own_keys o)
  end.

Definition typeof (v : jsvalue) : string :=
  match v with
  | VUndef => "undefined"
  | VNull => "object"
  | VBool _ => "boolean"
  | VNum _ => "number"
  | VStr _ => "string"
  | VObj _ | VArr _ _ => "object"
  end.

(** Truthiness ([ToBoolean]). *)
Definition truthy (v : jsvalue) : bool :=
  match v with
  | VUndef | VNull => false
  | VBool b => b
  | VNum NaN => false
  | VNum (Dec m _) => negb (m =? 0)%Z
  | VNum (Infinity _) => true
  | VStr s => negb (String.eqb s "")
  | VObj _ | VArr _ _ => true
  end.

Definition isArray (v : jsvalue) : bool :=
  match v with VArr _ _ => true | _ => false end.

(** [v === null || v === undefined]. *)
Definition nullish (v : jsvalue) : bool :=
  match v with VUndef | VNull => true | _ => false end.

(** [ToString] of a value with the built-in [toString] methods. *)
Fixpoint ToString (v : jsvalue) : string :=
  match v with
  | VUndef => "undefined"
  | VNull => "null"
  | VBool b => if b then "true" else "false"
  | VNum n => NumberToString n
  | VStr s => s
  | VObj _ => "[object Object]"
  | VArr len ps =>
      let fix strs (l : props) : list (string * string) :=
        match l with
        | [] => []
        | (k, x) :: l' =>
            (k, match x with VUndef | VNull => "" | _ => ToString x end) :: strs l'
        end in
      let items := strs ps in
      join ","
        (map (fun i => match lookup items (N_to_string (N.of_nat i)) with
                       | Some s => s
                       | None => ""
                       end)
             (seq 0 (N.to_nat len)))
  end.

(** [Number(v)]. *)
Definition ToNumber (v : jsvalue) : number :=
  match v with
  | VUndef => NaN
  | VNull => Dec 0 0
  | VBool b => if b then Dec 1 0 else Dec 0 0
  | VNum n => n
  | _ => StringToNumber (ToString v)
  end.

(* ================================================================= *)
(** * JSON.parse *)

Definition json_ws (c : ascii) : bool :=
  let n := nat_of_ascii c in (n =? 32) || (n =? 9) || (n =? 10) || (n =? 13).

Fixpoint skip_ws (s : string) : string :=
  match s with
  | String c s' => if json_ws c then skip_ws s' else s
  | EmptyString => EmptyString
  end.

(** A JSON number at the head of [s]. *)
Definition parse_number (s : string) : outcome (number * string) :=
  let (neg, s1) := match s with String "-" r => (true, r) | _ => (false, s) end in
  let (ip, s2) := span_digits s1 in
  match ip with
  | EmptyString => Throw SyntaxError
  | String "0" (String _ _) => Throw SyntaxError
  | _ =>
      let frac :=
        match s2 with
        | String "." r =>
            let (fp, r') := span_digits r in
            match fp with
            | EmptyString => None
            | _ => Some (fp, r')
            end
        | _ => Some (EmptyString, s2)
        end in
      match frac with
      | None => Throw SyntaxError
      | Some (fp, s3) =>
          match s3 with
          | String c r =>
              if Ascii.eqb c "e" || Ascii.eqb c "E" then
                let (eneg, r1) :=
                  match r with
                  | String "+" t => (false, t)
                  | String "-" t => (true, t)
                  | _ => (false, r)
                  end in
                let (ed, r2) := span_digits r1 in
                match ed with
                | EmptyString => Throw SyntaxError
                | _ =>
                    let ex := digits_value 0 ed in
                    Ok (decimal neg ip fp (if eneg then - ex else ex)%Z, r2)
                end
              else Ok (decimal neg ip fp 0, s3)
          | EmptyString => Ok (decimal neg ip fp 0, s3)
          end
      end
  end.

Definition hex4 (a b c d : ascii) : option Z :=
  radix_value 16 0 (String a (String b (String c (String d EmptyString)))).

(** The characters of a JSON string after its opening quote, and what
    follows the closing quote. *)
Fixpoint parse_string (s : string) : outcome (string * string) :=
  match s with
  | EmptyString => Throw SyntaxError
  | String "034" r => Ok (EmptyString, r)
  | String "\" EmptyString => Throw SyntaxError
  | String "\" (String e r) =>
      let cont (c : ascii) (rest : outcome (string * string)) :=
        ' (t, r') <- rest ;; Ok (String c t, r') in
      match e with
      | "034"%char => cont "034"%char (parse_string r)
      | "\"%char => cont "\"%char (parse_string r)
      | "/"%char => cont "/"%char (parse_string r)
      | "b"%char => cont (ascii_of_nat 8) (parse_string r)
      | "f"%char => cont (ascii_of_nat 12) (parse_string r)
      | "n"%char => cont (ascii_of_nat 10) (parse_string r)
      | "r"%char => cont (ascii_of_nat 13) (parse_string r)
      | "t"%char => cont (ascii_of_nat 9) (parse_string r)
      | "u"%char =>
          match r with
          | String h1 (String h2 (String h3 (String h4 r'))) =>
              match hex4 h1 h2 h3 h4 with
              | Some code =>
                  if (code <? 256)%Z
                  then cont (ascii_of_nat (Z.to_nat code)) (parse_string r')
                  else Beyond WideChar
              | None => Throw SyntaxError
              end
          | _ => Throw SyntaxError
          end
      | _ => Throw SyntaxError
      end
  | String c r =>
      if nat_of_ascii c <? 32 then Throw SyntaxError
      else ' (t, r') <- parse_string r ;; Ok (String c t, r')
  end.

(** A JSON value at the head of [s] (after white space), the elements of
    an array after its opening bracket, and the members of an object after
    its opening brace. *)
Fixpoint parse_value (fuel : nat) (s : string) {struct fuel}
  : outcome (jsvalue * string) :=
  match fuel with
  | O => Beyond OutOfFuel
  | S f =>
      match skip_ws s with
      | String "{" r =>
          match skip_ws r with
          | String "}" r' => Ok (VObj [], r')
          | r' => parse_members f [] r'
          end
      | String "[" r =>
          match skip_ws r with
          | String "]" r' => Ok (VArr 0 [], r')
          | r' => parse_elements f 0%N [] r'
          end
      | String "034" r =>
          ' (t, r') <- parse_string r ;; Ok (VStr t, r')
      | String "t" (String "r" (String "u" (String "e" r))) => Ok (VBool true, r)
      | String "f" (String "a" (String "l" (String "s" (String "e" r)))) =>
          Ok (VBool false, r)
      | String "n" (String "u" (String "l" (String "l" r))) => Ok (VNull, r)
      | t => ' (n, r) <- parse_number t ;; Ok (VNum n, r)
      end
  end
with parse_elements (fuel : nat) (i : N) (acc : props) (s : string) {struct fuel}
  : outcome (jsvalue * string) :=
  match fuel with
  | O => Beyond OutOfFuel
  | S f =>
      ' (v, r) <- parse_value f s ;;
      let acc' := acc ++ [(N_to_string i, v)] in
      match skip_ws r with
      | String "," r' => parse_elements f (i + 1)%N acc' r'
      | String "]" r' => Ok (VArr (i + 1)%N acc', r')
      | _ => Throw SyntaxError
      end
  end
with parse_members (fuel : nat) (acc : props) (s : string) {struct fuel}
  : outcome (jsvalue * string) :=
  match fuel with
  | O => Beyond OutOfFuel
  | S f =>
      match skip_ws s with
      | String "034" r =>
          ' (k, r1) <- parse_string r ;;
          match skip_ws r1 with
          | String ":" r2 =>
              ' (v, r3) <- parse_value f r2 ;;
              let acc' := define acc k v in
              match skip_ws r3 with
              | String "," r4 => parse_members f acc' r4
              | String "}" r4 => Ok (VObj acc', r4)
              | _ => Throw SyntaxError
              end
          | _ => Throw SyntaxError
          end
      | _ => Throw SyntaxError
      end
  end.

(** [JSON.parse(text)]. *)
Definition JSON_parse (text : string) : outcome jsvalue :=
  ' (v, r) <- parse_value (2 * String.length text + 2) text ;;
  match skip_ws r with
  | EmptyString => Ok v
  | _ => Throw SyntaxError
  end.

(* ================================================================= *)
(** * The path codec *)

(** [result[k] = v] on the property list of a plain object. *)
Definition put_props (result : props) (k : string) (v : jsvalue) : outcome props :=
  r <- Put (VObj result) k v ;;
  match r with
  | VObj ps => Ok ps
  | _ => Ok result
  end.

(** The body of the [forEach] callback of [deflate]; [sub] is the
    recursive call on [value]. *)
Definition deflate_entry (sub : string -> outcome props)
    (prefix : string) (result : props) (key : string) (value : jsvalue)
  : outcome props :=
  valueKeys <- Object_keys value ;;
  if truthy value && String.eqb (typeof value) "object" && (0 <? List.length valueKeys) then
    let currPrefix := key +++ "." in
    let _prefix := if String.eqb prefix "" then currPrefix else prefix +++ currPrefix in
    flat <- sub _prefix ;;
    Ok (spread result flat)
  else
    let _prefix := if String.eqb prefix "" then key else prefix +++ key in
    put_props result _prefix value.

(** The characters of a string as its indexed properties. *)
Fixpoint chars (i : nat) (s : string) : props :=
  match s with
  | EmptyString => []
  | String c s' =>
      (N_to_string (N.of_nat i), VStr (String c EmptyString)) :: chars (S i) s'
  end.

(** [deflate(json, prefix)] (the parameter [keysOnly] is not used by the
    source). *)
Fixpoint deflate (json : jsvalue) (prefix : string) {struct json} : outcome props :=
  match json with
  | VUndef | VNull => Throw TypeError
  | VObj ps | VArr _ ps =>
      (fix each (l : props) (result : props) {struct l} : outcome props :=
         match l with
         | [] => Ok result
         | (key, value) :: l' =>
             result' <- deflate_entry (deflate value) prefix result key value ;;
             each l' result'
         end) ps []
  | VStr s =>
      fold_left
        (fun acc kv =>
           result <- acc ;;
           deflate_entry (fun _ => Ok []) prefix result (fst kv) (snd kv))
        (chars 0 s) (Ok [])
  | VBool _ | VNum _ => Ok []
  end.

(** [deflateKeys(json)]. *)
Definition deflateKeys (json : jsvalue) : outcome (list string) :=
  flat <- deflate json "" ;; Ok (map fst flat).

(** [v || {}]. *)
Definition or_empty (v : jsvalue) : jsvalue := if truthy v then v else VObj [].

(** [_inflateItem(keys, value, result)] with [keys = key :: rest].  The
    first component is the value returned; the second is the object the
    caller passed as [result], as the call leaves it: the source rebinds
    its local [result] to a new array when the segment is numeric and
    [result] has no keys, and then the caller's object is not written. *)
Fixpoint _inflateItem (key : string) (rest : list string) (value result : jsvalue)
    {struct rest} : outcome (jsvalue * jsvalue) :=
  let number := StringToNumber key in
  ks <- Object_keys result ;;
  let rebound := negb (isNaN number) && (List.length ks =? 0) in
  let result1 := if rebound then VArr 0 [] else result in
  let key1 := if rebound then NumberToString number else key in
  r <- match rest with
       | [] => Put result1 key1 value
       | k :: rest' =>
           child <- Get result1 key1 ;;
           ' (sub, _) <- _inflateItem k rest' value (or_empty child) ;;
           Put result1 key1 sub
       end ;;
  Ok (r, if rebound then result else r).

(** The body of the loop of [inflate]: the value returned by
    [_inflateItem] is dropped; the root keeps what was written to it in
    place. *)
Definition inflate_step (acc : outcome jsvalue) (kv : string * jsvalue)
  : outcome jsvalue :=
  result <- acc ;;
  let (k, rest) := split "." (trim (fst kv)) in
  ' (_, result') <- _inflateItem k rest (snd kv) result ;;
  Ok result'.

(** [inflate(obj)]. *)
Definition inflate (obj : props) : outcome jsvalue :=
  fold_left inflate_step obj (Ok (VObj [])).

(* ================================================================= *)
(** * The merge *)

(** [a || b] on an optional type name and a type name. *)
Definition or_type (a : option string) (b : string) : string :=
  match a with
  | Some s => if String.eqb s "" then b else s
  | None => b
  end.

(** [a.length] for arrays and strings; other receivers are not modelled. *)
Definition length_of (a : jsvalue) : outcome N :=
  match a with
  | VUndef | VNull => Throw TypeError
  | VArr len _ => Ok len
  | VStr s => Ok (N.of_nat (String.length s))
  | _ => Beyond InheritedName
  end.

(** [a.map(f)]: [f] is called on the elements that are present, in index
    order; holes stay holes and the length is kept.  Anything but an array
    has no [map]. *)
Fixpoint map_elements (f : jsvalue -> N -> outcome jsvalue) (ps : props) : outcome props :=
  match ps with
  | [] => Ok []
  | (k, v) :: ps' =>
      match array_index k with
      | Some i => r <- f v i ;; rs <- map_elements f ps' ;; Ok ((k, r) :: rs)
      | None => map_elements f ps'
      end
  end.

Definition Array_map (f : jsvalue -> N -> outcome jsvalue) (a : jsvalue) : outcome jsvalue :=
  match a with
  | VArr len ps => ps' <- map_elements f ps ;; Ok (VArr len ps')
  | _ => Throw TypeError
  end.

(** The first occurrences, in order: [[...new Set(l)]]. *)
Fixpoint dedup (l : list string) : list string :=
  match l with
  | [] => []
  | k :: l' => k :: filter (fun k' => negb (String.eqb k' k)) (dedup l')
  end.

Section Merge.

(** The recursive call to [mergeEnvJsonValue]. *)
Variable rec : jsvalue -> jsvalue -> option string -> outcome jsvalue.

(** [mergeEnvObject(defaultJson = {}, envValue)]. *)
Definition mergeEnvObject_body (defaultJson envValue : jsvalue) : outcome jsvalue :=
  let defaultJson := match defaultJson with VUndef => VObj [] | _ => defaultJson end in
  if nullish envValue then Ok defaultJson else
  envValue <-
    (if negb (String.eqb (typeof envValue) "object") then
       if String.eqb (typeof envValue) "string" then
         tmp <- JSON_parse (ToString envValue) ;;
         if String.eqb (typeof tmp) "object" then Ok tmp
         else Throw InvalidJsonString
       else Throw TypeMismatch
     else Ok envValue) ;;
  dkeys <- Object_keys defaultJson ;;
  ekeys <- Object_keys envValue ;;
  let keys := dedup (dkeys ++ ekeys) in
  result <-
    fold_left
      (fun acc key =>
         result <- acc ;;
         dj <- Get defaultJson key ;;
         ej <- Get envValue key ;;
         r <- rec dj ej None ;;
         put_props result key r)
      keys (Ok []) ;;
  Ok (VObj result).

(** [mergeEnvArray(defaultJson = [], envValue)]. *)
Definition mergeEnvArray_body (defaultJson envValue : jsvalue) : outcome jsvalue :=
  let defaultJson := match defaultJson with VUndef => VArr 0 [] | _ => defaultJson end in
  if nullish envValue then Ok defaultJson else
  envValue <-
    (if negb (isArray envValue) then
       if String.eqb (typeof envValue) "string" then
         tmp <- JSON_parse (ToString envValue) ;;
         if isArray tmp then Ok tmp else Throw InvalidJsonArrayString
       else Throw TypeMismatch
     else Ok envValue) ;;
  dlen <- length_of defaultJson ;;
  if (0 <? dlen)%N then
    d0 <- Get defaultJson "0" ;;
    let valueType := typeof d0 in
    elen <- length_of envValue ;;
    if (dlen <? elen)%N then
      Array_map
        (fun value i =>
           d <- Get defaultJson (N_to_string i) ;;
           rec d value (Some valueType))
        envValue
    else
      Array_map
        (fun defaultValue i =>
           e <- Get envValue (N_to_string i) ;;
           rec defaultValue e (Some valueType))
        defaultJson
  else Ok envValue.

End Merge.

(** [mergeEnvJsonValue(defaultValue, envValue, defaultType)]; [fuel]
    bounds the depth of the recursion through [mergeEnvObject] and
    [mergeEnvArray]. *)
Fixpoint mergeEnvJsonValue (fuel : nat) (defaultValue envValue : jsvalue)
    (defaultType : option string) {struct fuel} : outcome jsvalue :=
  match fuel with
  | O => Beyond OutOfFuel
  | S fuel' =>
      let result := defaultValue in
      if truthy envValue then
        let typeOfDj :=
          or_type (if negb (nullish defaultValue) then Some (typeof defaultValue)
                   else defaultType)
                  (typeof envValue) in
        if String.eqb typeOfDj "array" || isArray defaultValue then
          mergeEnvArray_body (mergeEnvJsonValue fuel') defaultValue envValue
        else if String.eqb typeOfDj "object" then
          mergeEnvObject_body (mergeEnvJsonValue fuel') defaultValue envValue
        else if String.eqb typeOfDj "boolean" then
          value <- JSON_parse (ToString envValue) ;;
          match value with
          | VBool _ => Ok value
          | _ => Throw TypeMismatch
          end
        else if String.eqb typeOfDj "number" then
          let value := ToNumber envValue in
          if isNaN value then Throw TypeMismatch else Ok (VNum value)
        else if String.eqb typeOfDj "" then
          let strValue := trim (ToString envValue) in
          let number := StringToNumber strValue in
          if negb (isNaN number) then Ok (VNum number)
          else
            try_catch
              (if startsWith strValue "{" || startsWith strValue "[" then
                 JSON_parse strValue
               else if String.eqb (toLowerCase strValue) "true" then Ok (VBool true)
               else if String.eqb (toLowerCase strValue) "false" then Ok (VBool false)
               else Ok (VStr strValue))
              (Ok result)
        else Ok envValue
      else Ok result
  end.

Definition mergeEnvObject (fuel : nat) : jsvalue -> jsvalue -> outcome jsvalue :=
  mergeEnvObject_body (mergeEnvJsonValue fuel).

Definition mergeEnvArray (fuel : nat) : jsvalue -> jsvalue -> outcome jsvalue :=
  mergeEnvArray_body (mergeEnvJsonValue fuel).

(** [process.env]: names and values in the order of [Object.keys]. *)
Definition environment : Type := list (string * string).

(** [process.env[key]]. *)
Definition env_get (env : environment) (key : string) : outcome (option string) :=
  match lookup env key with
  | Some v => Ok (Some v)
  | None => if member object_members key then Beyond InheritedName else Ok None
  end.

(** [for (const key in keys)] on an array enumerates its indices. *)
Definition for_in_array {A : Type} (a : list A) : list string :=
  map (fun i => N_to_string (N.of_nat i)) (seq 0 (List.length a)).

(** The callback given to [filter] in [merge]; a callback that returns
    nothing rejects the element. *)
Definition selected (keys : list string) (envKey : string) : bool :=
  existsb (fun key => startsWith envKey (key +++ ".")) (for_in_array keys).

(** [merge(conf = {}, envKeys)] over the environment [env]; [None] stands
    for an [envKeys] that is not supplied. *)
Definition merge (fuel : nat) (env : environment) (conf : jsvalue)
    (envKeys : option (list string)) : outcome jsvalue :=
  let conf := match conf with VUndef => VObj [] | _ => conf end in
  keys <- deflateKeys conf ;;
  let envKeys :=
    match envKeys with
    | Some ks => ks
    | None => filter (selected keys) (map fst env)
    end in
  let allKeys := keys ++ envKeys in
  envConfig <-
    fold_left
      (fun acc key =>
         envConfig <- acc ;;
         envValue <- env_get env key ;;
         match envValue with
         | Some v => put_props envConfig key (VStr v)
         | None => Ok envConfig
         end)
      allKeys (Ok []) ;;
  envJson <- inflate envConfig ;;
  mergeEnvObject fuel conf envJson.

(* ================================================================= *)
(** * Notions used in the statements *)

(** A dense array: the elements of [l] at the indices [0], [1], ... *)
Fixpoint indexed (i : N) (l : list jsvalue) : props :=
  match l with
  | [] => []
  | x :: l' => (N_to_string i, x) :: indexed (i + 1) l'
  end.

Definition array_of (l : list jsvalue) : jsvalue :=
  VArr (N.of_nat (List.length l)) (indexed 0 l).

Definition head_is_digit (k : string) : bool :=
  match k with
  | String c _ => is_digit c
  | EmptyString => false
  end.

(** Whether a value has properties that can be written. *)
Definition is_container (o : jsvalue) : bool :=
  match o with VObj _ | VArr _ _ => true | _ => false end.

(** The test of [_inflateItem]: the segment is numeric and [result] has no
    keys, so that the local [result] is rebound to a new array. *)
Definition rebinds (key : string) (result : jsvalue) : bool :=
  negb (isNaN (StringToNumber key)) && (List.length (own_keys result) =? 0).

(** The numbers on which the decimals of the model and the binary64 values
    of the engine agree through [Number] and [String]: at most 15
    significant digits, within the range of the normal binary64 values. *)
Definition exact (n : number) : bool :=
  match n with
  | NaN | Infinity _ => true
  | Dec m s =>
      (String.length (strip_zeros_end (Z_to_string (Z.abs m))) <=? 15) &&
      (String.length (Z_to_string (Z.abs m)) <=? 300) && (s <=? 300)
  end.

(** A segment names the same property whether it is used as it is or
    through [Number]: it is not numeric, or it is the decimal form of the
    number it denotes, that number being [exact]. *)
Definition stable (seg : string) : bool :=
  isNaN (StringToNumber seg) ||
  (String.eqb (NumberToString (StringToNumber seg)) seg &&
   exact (StringToNumber seg)).

(** The value returned by a call of [_inflateItem]. *)
Definition returned (m : outcome (jsvalue * jsvalue)) : outcome jsvalue :=
  ' (r, _) <- m ;; Ok r.

(** Two computations end the same way: both return, or both fail alike. *)
Definition same_shape {A : Type} (m m' : outcome A) : Prop :=
  match m, m' with
  | Ok _, Ok _ => True
  | Throw e, Throw e' => e = e'
  | Beyond l, Beyond l' => l = l'
  | _, _ => False
  end.

(** Where [_inflateItem] writes: the new array and the number, or the
    object received and the segment. *)
Definition target (key : string) (result : jsvalue) : jsvalue * string :=
  if rebinds key result
  then (VArr 0 [], NumberToString (StringToNumber key))
  else (result, key).

(** No dot in a key. *)
Fixpoint dotfree (k : string) : bool :=
  match k with
  | EmptyString => true
  | String c k' => negb (Ascii.eqb c ".") && dotfree k'
  end.

(** Whether the first (the last) character is white space. *)
Definition head_ws (s : string) : bool :=
  match s with
  | String c _ => is_ws c
  | EmptyString => false
  end.

Fixpoint last_ws (s : string) : bool :=
  match s with
  | EmptyString => false
  | String c EmptyString => is_ws c
  | String _ s' => last_ws s'
  end.

(** A key that survives [trim]: no white space at either end. *)
Definition trimmed (k : string) : bool := negb (head_ws k) && negb (last_ws k).

(** The test of [deflate]: an object or array that has keys is walked;
    anything else is a leaf. *)
Definition walked (v : jsvalue) : bool :=
  truthy v && String.eqb (typeof v) "object" && (0 <? List.length (own_keys v)).

Definition scalar (v : jsvalue) : bool :=
  match v with VBool _ | VNum _ | VStr _ => true | _ => false end.

(** The own properties of a container. *)
Definition props_of (o : jsvalue) : props :=
  match o with VObj ps | VArr _ ps => ps | _ => [] end.

(** A leaf of a nested structure: the segments of its path (the first one
    apart) and its value. *)
Definition entry : Type := string * list string * jsvalue.

Definition under (key : string) (e : entry) : entry :=
  (key, fst (fst e) :: snd (fst e), snd e).

(** The leaves of [T], in the order in which [deflate] meets them. *)
Fixpoint entries (T : jsvalue) : list entry :=
  match T with
  | VObj ps | VArr _ ps =>
      (fix each (l : props) : list entry :=
         match l with
         | [] => []
         | (key, value) :: l' =>
             (if walked value then map (under key) (entries value)
              else [(key, [], value)]) ++ each l'
         end) ps
  | _ => []
  end.

(** The flat key of a leaf under a prefix. *)
Definition dotted (prefix : string) (e : entry) : string * jsvalue :=
  (prefix +++ join "." (fst (fst e) :: snd (fst e)), snd e).

(** Creating [k] after the keys [seen] puts it last: [k] is new and, when
    it is an array index, so are the keys seen, with smaller indices. *)
Definition appends (seen : list string) (k : string) : bool :=
  forallb
    (fun k' =>
       negb (String.eqb k' k) &&
       match array_index k with
       | Some i =>
           match array_index k' with
           | Some i' => negb (i <? i')%N
           | None => false
           end
       | None => true
       end)
    seen.

(** Keys in own-property order, without repetition. *)
Fixpoint canonical_from (seen ks : list string) : bool :=
  match ks with
  | [] => true
  | k :: ks' => appends seen k && canonical_from (seen ++ [k]) ks'
  end.

Definition canonical (ps : props) : bool := canonical_from [] (map fst ps).

(** The keys for which the path codec is transparent. *)
Definition key_ok (k : string) : bool :=
  dotfree k && trimmed k && negb (inherited k).

(** The test of [_inflateItem] on a segment: [!isNaN(Number(key))]. *)
Definition numeric (k : string) : bool := negb (isNaN (StringToNumber k)).

(** An assignment [o[k] = v] stores an own property of the object (array,
    when [arr]) [o], unless [k] is [__proto__] or the [length] of an
    array. *)
Definition writes (arr : bool) (k : string) : bool :=
  negb (String.eqb k "__proto__") && negb (arr && String.eqb k "length").

(** A read [o[k]] of the object (array, when [arr]) [o] that has no own
    property [k] is [undefined]: no member of the prototype has that
    name. *)
Definition reads (arr : bool) (k : string) : bool :=
  negb (member (if arr then array_members else object_members) k).

(** A non-empty container whose leaves are scalars and whose nested
    containers are non-empty, with keys in own-property order, the first
    key of each container being [stable]; [inflate] builds the container
    as an array when that first key is numeric.  No key contains a dot; a
    key that holds a scalar does not end with white space and can be
    written; a key that holds a container can be read before it exists,
    and the container qualifies in turn. *)
Fixpoint roundtrips (T : jsvalue) : bool :=
  match T with
  | VObj ps | VArr _ ps =>
      match ps with
      | [] => false
      | (k1, _) :: _ =>
          stable k1 && canonical ps &&
          (fix all (l : props) : bool :=
             match l with
             | [] => true
             | (k, v) :: l' =>
                 dotfree k &&
                 (if scalar v then negb (last_ws k) && writes (numeric k1) k
                  else reads (numeric k1) k && roundtrips v) &&
                 all l'
             end) ps
      end
  | _ => false
  end.

Definition number_eqb (n n' : number) : bool :=
  match n, n' with
  | NaN, NaN => true
  | Infinity b, Infinity b' => Bool.eqb b b'
  | Dec m s, Dec m' s' => (m =? m')%Z && (s =? s')
  | _, _ => false
  end.

(** Two structures with the same keys in the same order at every level
    and the same leaves; an object and an array with the same properties
    are alike. *)
Fixpoint alike (x x' : jsvalue) : bool :=
  match x, x' with
  | VObj ps, VObj ps' | VObj ps, VArr _ ps'
  | VArr _ ps, VObj ps' | VArr _ ps, VArr _ ps' =>
      (fix each (l l' : props) : bool :=
         match l, l' with
         | [], [] => true
         | (k, v) :: l1, (k', v') :: l1' =>
             String.eqb k k' && alike v v' && each l1 l1'
         | _, _ => false
         end) ps ps'
  | VUndef, VUndef | VNull, VNull => true
  | VBool b, VBool b' => Bool.eqb b b'
  | VNum n, VNum n' => number_eqb n n'
  | VStr s, VStr s' => String.eqb s s'
  | _, _ => false
  end.

Fixpoint alike_each (l l' : props) : bool :=
  match l, l' with
  | [], [] => true
  | (k, v) :: l1, (k', v') :: l1' =>
      String.eqb k k' && alike v v' && alike_each l1 l1'
  | _, _ => false
  end.

(** The first key of the root is not numeric. *)
Definition root_first (T : jsvalue) : bool :=
  match props_of T with
  | (k1, _) :: _ => isNaN (StringToNumber k1)
  | [] => false
  end.

(** The first key of the root is not numeric, and no key of the root
    begins with white space. *)
Definition root_ok (T : jsvalue) : bool :=
  root_first T && forallb (fun kv => negb (head_ws (fst kv))) (props_of T).

(** Insertion of one leaf into a container, the caller storing the value
    returned, and insertion of a list of leaves. *)
Definition insert (acc : outcome jsvalue) (e : entry) : outcome jsvalue :=
  R <- acc ;; returned (_inflateItem (fst (fst e)) (snd (fst e)) (snd e) R).

Definition insert_all (es : list entry) (R : jsvalue) : outcome jsvalue :=
  fold_left insert es (Ok R).

(** The loop of [deflate] over the properties of a container. *)
Definition deflate_each (prefix : string) : props -> props -> outcome props :=
  fix each (l : props) (result : props) {struct l} : outcome props :=
    match l with
    | [] => Ok result
    | (key, value) :: l' =>
        result' <- deflate_entry (deflate value) prefix result key value ;;
        each l' result'
    end.

(** Two values that are alike and that [deflate] cannot tell apart as
    children. *)
Definition flat_equal (x x' : jsvalue) : Prop :=
  nullish x' = nullish x /\
  walked x' = walked x /\
  (walked x = false -> x' = x) /\
  (forall p : string, deflate x' p = deflate x p) /\
  alike x x' = true.

(** The loops of [entries] and of [roundtrips] over the properties of a
    container. *)
Fixpoint entries_each (l : props) : list entry :=
  match l with
  | [] => []
  | (key, value) :: l' =>
      (if walked value then map (under key) (entries value)
       else [(key, [], value)]) ++ entries_each l'
  end.

Definition children_ok (arr : bool) : props -> bool :=
  fix all (l : props) : bool :=
    match l with
    | [] => true
    | (k, v) :: l' =>
        dotfree k &&
        (if scalar v then negb (last_ws k) && writes arr k
         else reads arr k && roundtrips v) &&
        all l'
    end.

(** What the insertion of the leaves of [T] into an empty object builds:
    a container that is like [T] and that [deflate] cannot tell from
    [T]. *)
Definition rebuilt (T : jsvalue) : Prop :=
  entries T <> [] /\
  exists T' : jsvalue,
    insert_all (entries T) (VObj []) = Ok T' /\
    is_container T' = true /\ own_keys T' <> [] /\
    (forall p : string, deflate T' p = deflate T p) /\
    alike T T' = true.

(** The children built correspond to the children given. *)
Definition same_child (kv kv' : string * jsvalue) : Prop :=
  fst kv' = fst kv /\ flat_equal (snd kv) (snd kv').

(** The segments of a path have no dot, and the last one does not end
    with white space. *)
Definition tail_ok (e : entry) : bool :=
  dotfree (fst (fst e)) && forallb dotfree (snd (fst e)) &&
  negb (last_ws (last (snd (fst e)) (fst (fst e)))).

(** The path of a leaf survives [trim] and [split]. *)
Definition path_ok (e : entry) : bool :=
  dotfree (fst (fst e)) && forallb dotfree (snd (fst e)) &&
  negb (head_ws (fst (fst e))) &&
  negb (last_ws (last (snd (fst e)) (fst (fst e)))).

(** A flat key that a plain assignment appends to the flat object. *)
Definition flat_key_ok (kv : string * jsvalue) : bool :=
  match array_index (fst kv) with
  | None => negb (String.eqb (fst kv) "__proto__")
  | Some _ => false
  end.

(** [deflate] answers the leaves of [T] under their flat keys. *)
Definition deflates (T : jsvalue) : Prop :=
  forall p : string,
    NoDup (map fst (map (dotted p) (entries T))) ->
    forallb flat_key_ok (map (dotted p) (entries T)) = true ->
    deflate T p = Ok (map (dotted p) (entries T)).

Fixpoint all_digits (s : string) : bool :=
  match s with
  | EmptyString => true
  | String c s' => is_digit c && all_digits s'
  end.

(** Induction on values through the property lists. *)
Fixpoint jsvalue_nested_ind (P : jsvalue -> Prop)
    (Hleaf : forall v, is_container v = false -> P v)
    (Hobj : forall ps, Forall (fun kv => P (snd kv)) ps -> P (VObj ps))
    (Harr : forall len ps, Forall (fun kv => P (snd kv)) ps -> P (VArr len ps))
    (v : jsvalue) {struct v} : P v :=
  let fix all (l : props) : Forall (fun kv => P (snd kv)) l :=
    match l with
    | [] => Forall_nil _
    | kv :: l' =>
        Forall_cons kv (jsvalue_nested_ind P Hleaf Hobj Harr (snd kv)) (all l')
    end in
  match v with
  | VObj ps => Hobj ps (all ps)
  | VArr len ps => Harr len ps (all ps)
  | VUndef => Hleaf VUndef eq_refl
  | VNull => Hleaf VNull eq_refl
  | VBool b => Hleaf (VBool b) eq_refl
  | VNum n => Hleaf (VNum n) eq_refl
  | VStr s => Hleaf (VStr s) eq_refl
  end.


(* ================================================================= *)
(** * The same program over a store of objects *)

(** In this second embedding objects and arrays live in a store and
    values refer to them, as in JavaScript: every [o[k] = v] of the source
    is a write to the store, and sharing between the default configuration
    and the merged result is visible. *)
Module Store.

Inductive val : Type :=
| Undef
| Null
| Bool (b : bool)
| Num (n : number)
| Str (s : string)
| Ref (l : nat).

Record object : Type := Object {
  is_array : bool;
  len : N;
  fields : list (string * val)
}.

(** The object at location [l] is the [l]-th of the list; allocation
    appends. *)
Definition heap : Type := list object.

(** Computations read and write the store; a failure keeps the store of
    the moment it occurs. *)
Definition M (A : Type) : Type := heap -> outcome A * heap.

Definition ret {A : Type} (a : A) : M A := fun h => (Ok a, h).
Definition raise {A : Type} (e : error) : M A := fun h => (Throw e, h).
Definition beyond {A : Type} (l : limit) : M A := fun h => (Beyond l, h).
Definition lift {A : Type} (o : outcome A) : M A := fun h => (o, h).

Definition mbind {A B : Type} (m : M A) (k : A -> M B) : M B :=
  fun h =>
    match m h with
    | (Ok a, h') => k a h'
    | (Throw e, h') => (Throw e, h')
    | (Beyond l, h') => (Beyond l, h')
    end.

Declare Scope store_scope.
Delimit Scope store_scope with store.
Notation "x <- m ;; k" := (mbind m (fun x => k))
  (at level 61, m at next level, right associativity) : store_scope.
Notation "' p <- m ;; k" := (mbind m (fun p => k))
  (at level 61, p pattern, m at next level, right associativity) : store_scope.
#[local] Open Scope store_scope.

(** A loop over a list that threads a variable of the source. *)
Definition for_each {A S : Type} (l : list A) (init : S) (body : S -> A -> M S)
  : M S :=
  fold_left (fun acc a => s <- acc ;; body s a) l (ret init).

Definition alloc (o : object) : M val :=
  fun h => (Ok (Ref (List.length h)), h ++ [o]).

Definition load (l : nat) : M object :=
  fun h =>
    match nth_error h l with
    | Some o => (Ok o, h)
    | None => (Beyond Dangling, h)
    end.

Fixpoint update (h : heap) (l : nat) (o : object) : heap :=
  match h, l with
  | [], _ => []
  | _ :: h', O => o :: h'
  | x :: h', S l' => x :: update h' l' o
  end.

Definition save (l : nat) (o : object) : M unit :=
  fun h => (Ok tt, update h l o).

Definition typeof (v : val) : string :=
  match v with
  | Undef => "undefined"
  | Bool _ => "boolean"
  | Num _ => "number"
  | Str _ => "string"
  | Null | Ref _ => "object"
  end.

Definition truthy (v : val) : bool :=
  match v with
  | Undef | Null => false
  | Bool b => b
  | Num NaN => false
  | Num (Dec m _) => negb (m =? 0)%Z
  | Num (Infinity _) => true
  | Str s => negb (String.eqb s "")
  | Ref _ => true
  end.

Definition nullish (v : val) : bool :=
  match v with Undef | Null => true | _ => false end.

Definition miss (names : list string) (k : string) : M val :=
  if member names k then beyond InheritedName else ret Undef.

(** [o[k]]. *)
Definition Get (o : val) (k : string) : M val :=
  match o with
  | Undef | Null => raise TypeError
  | Ref l =>
      ob <- load l ;;
      match lookup (fields ob) k with
      | Some v => ret v
      | None =>
          if is_array ob && String.eqb k "length"
          then ret (Num (Dec (Z.of_N (len ob)) 0))
          else miss (if is_array ob then array_members else object_members) k
      end
  | Str s =>
      match array_index k with
      | Some i =>
          match String.get (N.to_nat i) s with
          | Some c => ret (Str (String c EmptyString))
          | None => ret Undef
          end
      | None =>
          if String.eqb k "length" then ret (Num (Dec (Z.of_nat (String.length s)) 0))
          else miss string_members k
      end
  | Num _ => miss number_members k
  | Bool _ => miss object_members k
  end.

(** [o[k] = v] in sloppy mode. *)
Definition Put (o : val) (k : string) (v : val) : M unit :=
  match o with
  | Undef | Null => raise TypeError
  | Ref l =>
      ob <- load l ;;
      if is_array ob && String.eqb k "length" then beyond InheritedName else
      match lookup (fields ob) k with
      | None =>
          if String.eqb k "__proto__" then beyond InheritedName
          else
            save l (Object (is_array ob)
                      (if is_array ob then
                         match array_index k with
                         | Some i => N.max (len ob) (i + 1)
                         | None => len ob
                         end
                       else len ob)
                      (define (fields ob) k v))
      | Some _ => save l (Object (is_array ob) (len ob) (define (fields ob) k v))
      end
  | Bool _ | Num _ | Str _ => ret tt
  end.

(** The own enumerable properties of a value. *)
Definition own_fields (o : val) : M (list (string * val)) :=
  match o with
  | Ref l => ob <- load l ;; ret (fields ob)
  | Str s =>
      ret (map (fun kc => (fst kc, Str (match snd kc with
                                        | VStr c => c
                                        | _ => EmptyString
                                        end))) (chars 0 s))
  | _ => ret []
  end.

(** [Object.keys(o)]. *)
Definition Object_keys (o : val) : M (list string) :=
  match o with
  | Undef | Null => raise TypeError
  | _ => fs <- own_fields o ;; ret (map fst fs)
  end.

Definition isArray (v : val) : M bool :=
  match v with
  | Ref l => ob <- load l ;; ret (is_array ob)
  | _ => ret false
  end.

(** [a.length] for arrays and strings. *)
Definition length_of (a : val) : M N :=
  match a with
  | Undef | Null => raise TypeError
  | Ref l => ob <- load l ;; if is_array ob then ret (len ob) else beyond InheritedName
  | Str s => ret (N.of_nat (String.length s))
  | _ => beyond InheritedName
  end.

(** The tree that a value denotes in a store. *)
Fixpoint reify (fuel : nat) (h : heap) (v : val) {struct fuel} : outcome jsvalue :=
  match v with
  | Undef => Ok VUndef
  | Null => Ok VNull
  | Bool b => Ok (VBool b)
  | Num n => Ok (VNum n)
  | Str s => Ok (VStr s)
  | Ref l =>
      match fuel with
      | O => Beyond OutOfFuel
      | S fuel' =>
          match nth_error h l with
          | None => Beyond Dangling
          | Some ob =>
              bind
                ((fix each (fs : list (string * val)) : outcome props :=
                    match fs with
                    | [] => Ok []
                    | (k, x) :: fs' =>
                        bind (reify fuel' h x) (fun t =>
                        bind (each fs') (fun ts => Ok ((k, t) :: ts)))
                    end) (fields ob))
                (fun ps => Ok (if is_array ob then VArr (len ob) ps else VObj ps))
          end
      end
  end.

(** Reading a value as a tree; the depth of an acyclic store is bounded by
    its size. *)
Definition to_tree (v : val) : M jsvalue :=
  fun h => (reify (S (List.length h)) h v, h).

(** New objects for a tree. *)
Fixpoint allocate (t : jsvalue) : M val :=
  let fix each (l : props) : M (list (string * val)) :=
    match l with
    | [] => ret []
    | (k, x) :: l' => v <- allocate x ;; vs <- each l' ;; ret ((k, v) :: vs)
    end in
  match t with
  | VUndef => ret Undef
  | VNull => ret Null
  | VBool b => ret (Bool b)
  | VNum n => ret (Num n)
  | VStr s => ret (Str s)
  | VObj ps => fs <- each ps ;; alloc (Object false 0 fs)
  | VArr n ps => fs <- each ps ;; alloc (Object true n fs)
  end.

(** [JSON.parse(v)]: the argument is converted to a string first. *)
Definition JSON_parse (v : val) : M val :=
  t <- to_tree v ;;
  parsed <- lift (JSON_parse (ToString t)) ;;
  allocate parsed.

(** [Number(v)]. *)
Definition ToNumber (v : val) : M number :=
  t <- to_tree v ;; ret (ToNumber t).

(** [{...a, ...b}]. *)
Definition spread (a b : val) : M val :=
  fa <- own_fields a ;;
  fb <- own_fields b ;;
  alloc (Object false 0 (spread fa fb)).

(** [deflate(json, prefix)]; [rec] is the recursive call. *)
Definition deflate_body (rec : val -> string -> M val) (json : val) (prefix : string)
  : M val :=
  result <- alloc (Object false 0 []) ;;
  keys <- Object_keys json ;;
  for_each keys result
    (fun result key =>
       value <- Get json key ;;
       valueKeys <- Object_keys value ;;
       if truthy value && String.eqb (typeof value) "object"
          && (0 <? List.length valueKeys) then
         let currPrefix := key +++ "." in
         let _prefix := if String.eqb prefix "" then currPrefix
                        else prefix +++ currPrefix in
         flat <- rec value _prefix ;;
         spread result flat
       else
         let _prefix := if String.eqb prefix "" then key else prefix +++ key in
         _ <- Put result _prefix value ;;
         ret result).

Fixpoint deflate (fuel : nat) (json : val) (prefix : string) {struct fuel} : M val :=
  match fuel with
  | O => beyond OutOfFuel
  | S fuel' => deflate_body (deflate fuel') json prefix
  end.

(** [deflateKeys(json)]. *)
Definition deflateKeys (fuel : nat) (json : val) : M (list string) :=
  flat <- deflate fuel json "" ;; Object_keys flat.

(** [_inflateItem(keys, value, result)]: the writes go to the store, the
    value returned is the local [result]. *)
Fixpoint _inflateItem (key : string) (rest : list string) (value result : val)
    {struct rest} : M val :=
  let number := StringToNumber key in
  ks <- Object_keys result ;;
  ' (result, key) <-
    (if negb (isNaN number) && (List.length ks =? 0) then
       fresh <- alloc (Object true 0 []) ;;
       ret (fresh, NumberToString number)
     else ret (result, key)) ;;
  _ <- match rest with
       | [] => Put result key value
       | k :: rest' =>
           child <- Get result key ;;
           child <- (if truthy child then ret child
                     else alloc (Object false 0 [])) ;;
           sub <- _inflateItem k rest' value child ;;
           Put result key sub
       end ;;
  ret result.

(** [inflate(obj)]. *)
Definition inflate (obj : val) : M val :=
  result <- alloc (Object false 0 []) ;;
  keys <- Object_keys obj ;;
  _ <- for_each keys tt
         (fun _ key =>
            value <- Get obj key ;;
            let (k, rest) := split "." (trim key) in
            _ <- _inflateItem k rest value result ;;
            ret tt) ;;
  ret result.

(** [a.map(f)]. *)
Definition Array_map (f : val -> N -> M val) (a : val) : M val :=
  arr <- isArray a ;;
  if arr then
    n <- length_of a ;;
    result <- alloc (Object true n []) ;;
    keys <- Object_keys a ;;
    _ <- for_each keys tt
           (fun _ key =>
              match array_index key with
              | Some i =>
                  value <- Get a key ;;
                  r <- f value i ;;
                  Put result key r
              | None => ret tt
              end) ;;
    ret result
  else raise TypeError.

Section Merge.

(** The recursive call to [mergeEnvJsonValue]. *)
Variable rec : val -> val -> option string -> M val.

(** [mergeEnvObject(defaultJson = {}, envValue)]. *)
Definition mergeEnvObject_body (defaultJson envValue : val) : M val :=
  defaultJson <- match defaultJson with
                 | Undef => alloc (Object false 0 [])
                 | _ => ret defaultJson
                 end ;;
  if nullish envValue then ret defaultJson else
  result <- alloc (Object false 0 []) ;;
  envValue <-
    (if negb (String.eqb (typeof envValue) "object") then
       if String.eqb (typeof envValue) "string" then
         tmp <- JSON_parse envValue ;;
         if String.eqb (typeof tmp) "object" then ret tmp
         else raise InvalidJsonString
       else raise TypeMismatch
     else ret envValue) ;;
  dkeys <- Object_keys defaultJson ;;
  ekeys <- Object_keys envValue ;;
  let keys := dedup (dkeys ++ ekeys) in
  _ <- for_each keys tt
         (fun _ key =>
            dj <- Get defaultJson key ;;
            ej <- Get envValue key ;;
            r <- rec dj ej None ;;
            Put result key r) ;;
  ret result.

(** [mergeEnvArray(defaultJson = [], envValue)]. *)
Definition mergeEnvArray_body (defaultJson envValue : val) : M val :=
  defaultJson <- match defaultJson with
                 | Undef => alloc (Object true 0 [])
                 | _ => ret defaultJson
                 end ;;
  if nullish envValue then ret defaultJson else
  earr <- isArray envValue ;;
  envValue <-
    (if negb earr then
       if String.eqb (typeof envValue) "string" then
         tmp <- JSON_parse envValue ;;
         tarr <- isArray tmp ;;
         if tarr then ret tmp else raise InvalidJsonArrayString
       else raise TypeMismatch
     else ret envValue) ;;
  dlen <- length_of defaultJson ;;
  if (0 <? dlen)%N then
    d0 <- Get defaultJson "0" ;;
    let valueType := typeof d0 in
    elen <- length_of envValue ;;
    if (dlen <? elen)%N then
      Array_map
        (fun value i =>
           d <- Get defaultJson (N_to_string i) ;;
           rec d value (Some valueType))
        envValue
    else
      Array_map
        (fun defaultValue i =>
           e <- Get envValue (N_to_string i) ;;
           rec defaultValue e (Some valueType))
        defaultJson
  else ret envValue.

End Merge.

(** [mergeEnvJsonValue(defaultValue, envValue, defaultType)]. *)
Fixpoint mergeEnvJsonValue (fuel : nat) (defaultValue envValue : val)
    (defaultType : option string) {struct fuel} : M val :=
  match fuel with
  | O => beyond OutOfFuel
  | S fuel' =>
      let result := defaultValue in
      if truthy envValue then
        let typeOfDj :=
          or_type (if negb (nullish defaultValue) then Some (typeof defaultValue)
                   else defaultType)
                  (typeof envValue) in
        darr <- isArray defaultValue ;;
        if String.eqb typeOfDj "array" || darr then
          mergeEnvArray_body (mergeEnvJsonValue fuel') defaultValue envValue
        else if String.eqb typeOfDj "object" then
          mergeEnvObject_body (mergeEnvJsonValue fuel') defaultValue envValue
        else if String.eqb typeOfDj "boolean" then
          value <- JSON_parse envValue ;;
          match value with
          | Bool _ => ret value
          | _ => raise TypeMismatch
          end
        else if String.eqb typeOfDj "number" then
          value <- ToNumber envValue ;;
          if isNaN value then raise TypeMismatch else ret (Num value)
        else if String.eqb typeOfDj "" then
          t <- to_tree envValue ;;
          let strValue := trim (ToString t) in
          let number := StringToNumber strValue in
          if negb (isNaN number) then ret (Num number)
          else
            fun h =>
              match
                (if startsWith strValue "{" || startsWith strValue "[" then
                   JSON_parse (Str strValue)
                 else if String.eqb (toLowerCase strValue) "true" then ret (Bool true)
                 else if String.eqb (toLowerCase strValue) "false" then ret (Bool false)
                 else ret (Str strValue)) h
              with
              | (Throw _, h') => (Ok result, h')
              | r => r
              end
        else ret envValue
      else ret result
  end.

Definition mergeEnvObject (fuel : nat) : val -> val -> M val :=
  mergeEnvObject_body (mergeEnvJsonValue fuel).

Definition mergeEnvArray (fuel : nat) : val -> val -> M val :=
  mergeEnvArray_body (mergeEnvJsonValue fuel).

(** [merge(conf = {}, envKeys)] over the environment [env]. *)
Definition merge (fuel : nat) (env : environment) (conf : val)
    (envKeys : option (list string)) : M val :=
  conf <- match conf with
          | Undef => alloc (Object false 0 [])
          | _ => ret conf
          end ;;
  envConfig <- alloc (Object false 0 []) ;;
  keys <- deflateKeys fuel conf ;;
  let envKeys :=
    match envKeys with
    | Some ks => ks
    | None => filter (selected keys) (map fst env)
    end in
  let allKeys := keys ++ envKeys in
  _ <- for_each allKeys tt
         (fun _ key =>
            envValue <- lift (env_get env key) ;;
            match envValue with
            | Some v => Put envConfig key (Str v)
            | None => ret tt
            end) ;;
  envJson <- inflate envConfig ;;
  mergeEnvObject fuel conf envJson.

(** [for (let key in o)]: the own enumerable keys of an object, an array or
    a string; [null] and [undefined] have none.  The prototypes have no
    enumerable property unless the program gives them one, which it does
    only through a read or a write that the model stops at
    ([InheritedName]); so no inherited key is enumerated. *)
Definition for_in (o : val) : M (list string) :=
  match o with
  | Undef | Null => ret []
  | _ => Object_keys o
  end.

(** [config(conf = {}, options)].  [dotenv.config(options)] belongs to
    another package: [parsed] stands for [Object.keys] of the object that
    it returns (no key when it reports an error), and [env] for the
    environment as it leaves it. *)
Definition config (fuel : nat) (env : environment) (parsed : list string)
    (conf : val) : M val :=
  conf <- match conf with
          | Undef => alloc (Object false 0 [])
          | _ => ret conf
          end ;;
  mergedConfig <- merge fuel env conf (Some parsed) ;;
  keys <- for_in mergedConfig ;;
  _ <- for_each keys tt
         (fun _ key =>
            v <- Get mergedConfig key ;;
            Put conf key v) ;;
  ret conf.

End Store.

(* ================================================================= *)
(** * Notions used in the statements about the store *)

(** The store [h'] extends [h] and agrees with it below location [n]. *)
Definition frame (n : nat) (h h' : Store.heap) : Prop :=
  List.length h <= List.length h' /\ firstn n h' = firstn n h.

(** A value that the program may write through when the objects below [n]
    are to be left alone: a primitive, or an object at [n] or above. *)
Definition writable (n : nat) (v : Store.val) : Prop :=
  match v with
  | Store.Ref l => n <= l
  | _ => True
  end.

Definition primitive (v : Store.val) : Prop :=
  match v with
  | Store.Ref _ => False
  | _ => True
  end.

(** A computation that, started in a store of [n] objects or more that
    satisfies [I], leaves the objects below [n] alone, keeps [I], and
    returns values that satisfy [Q]. *)
Definition spec {A : Type} (n : nat) (I : Store.heap -> Prop) (Q : A -> Prop)
    (m : Store.M A) : Prop :=
  forall h : Store.heap,
    n <= List.length h -> I h ->
    frame n h (snd (m h)) /\ I (snd (m h)) /\
    forall a : A, fst (m h) = Ok a -> Q a.

Definition any_heap (h : Store.heap) : Prop := True.
Definition any {A : Type} (a : A) : Prop := True.

(** The objects at [n] and above hold only values that are [writable]. *)
Definition closed (n : nat) (h : Store.heap) : Prop :=
  forall (l : nat) (ob : Store.object),
    n <= l -> nth_error h l = Some ob ->
    Forall (fun kv => writable n (snd kv)) (Store.fields ob).

(** The object at [l] holds only primitive values. *)
Definition flat_at (l : nat) (h : Store.heap) : Prop :=
  exists ob : Store.object,
    nth_error h l = Some ob /\
    Forall (fun kv => primitive (snd kv)) (Store.fields ob).

(** The invariant of [inflate] on the flat object at [l]. *)
Definition inflating (l n : nat) (h : Store.heap) : Prop :=
  l < n /\ flat_at l h /\ closed n h.

(** The default configuration [{port: 8080}] as an object of the store. *)
Definition port_default : Store.object :=
  Store.Object false 0 [("port", Store.Num (Dec 8080 0))].

(* ================================================================= *)
(** * Notions used in the statements about the functions as a whole *)

(** Whether [deflate] meets [null] or [undefined]: at the root, or as the
    value of a property of a container that it walks. *)
Fixpoint has_null (T : jsvalue) : bool :=
  match T with
  | VUndef | VNull => true
  | VObj ps | VArr _ ps =>
      existsb (fun '(_, v) => nullish v || (walked v && has_null v)) ps
  | _ => false
  end.

(** A key each of whose segments is no name of a prototype member. *)
Definition plain_path (k : string) : bool :=
  let (k0, rest) := split "." (trim k) in
  forallb (fun seg => negb (inherited seg)) (k0 :: rest).

(** The characters of the decimal form of a number. *)
Definition numeric_char (c : ascii) : bool :=
  is_digit c || Ascii.eqb c "." || Ascii.eqb c "e" || Ascii.eqb c "+" ||
  Ascii.eqb c "-".

Fixpoint numeric_chars (s : string) : bool :=
  match s with
  | EmptyString => true
  | String c s' => numeric_char c && numeric_chars s'
  end.

(** Own-property order: [k] may come before [k'] in a property list when
    the two differ and, if [k'] is an array index, [k] is a smaller one. *)
Definition before (k k' : string) : bool :=
  negb (String.eqb k k') &&
  match array_index k' with
  | Some i' =>
      match array_index k with
      | Some i => (i <? i')%N
      | None => false
      end
  | None => true
  end.

(** Keys in own-property order, without repetition: the array indices in
    ascending order, then the other names. *)
Fixpoint ordered (ks : list string) : bool :=
  match ks with
  | [] => true
  | k :: ks' => forallb (before k) ks' && ordered ks'
  end.

(** The values that the loop of [mergeEnvObject] computes for the keys
    [keys], in order. *)
Fixpoint merge_each (rec : jsvalue -> jsvalue -> option string -> outcome jsvalue)
    (D E : jsvalue) (keys : list string) : outcome props :=
  match keys with
  | [] => Ok []
  | k :: keys' =>
      dj <- Get D k ;;
      ej <- Get E k ;;
      x <- rec dj ej None ;;
      rs <- merge_each rec D E keys' ;;
      Ok ((k, x) :: rs)
  end.

(** An environment variable that is not set. *)
Definition unset (env : environment) (k : string) : bool :=
  match env_get env k with
  | Ok None => true
  | _ => false
  end.

(** A key of a flat configuration: one segment, which [trim] keeps, no
    number and no name of a prototype member. *)
Definition flat_key (k : string) : bool :=
  key_ok k && isNaN (StringToNumber k).

(** A flat configuration: the keys are flat, in own-property order, and
    the values are leaves for [deflate]. *)
Definition flat_config (ps : props) : bool :=
  ordered (map fst ps) &&
  forallb (fun '(k, d) => flat_key k && negb (nullish d) && negb (walked d)) ps.

(** What the environment holds under a key, as [inflate] hands it to the
    merge. *)
Definition env_value (env : environment) (k : string) : jsvalue :=
  match lookup env k with
  | Some s => VStr s
  | None => VUndef
  end.

(** The defaults overridden one by one, in order. *)
Fixpoint override (fuel : nat) (env : environment) (ps : props) : outcome props :=
  match ps with
  | [] => Ok []
  | (k, d) :: ps' =>
      x <- mergeEnvJsonValue fuel d (env_value env k) None ;;
      rs <- override fuel env ps' ;;
      Ok ((k, x) :: rs)
  end.

(** The variables that the environment sets among [keys], in order. *)
Fixpoint picked (env : environment) (keys : list string) : props :=
  match keys with
  | [] => []
  | k :: keys' =>
      match lookup env k with
      | Some s => (k, VStr s) :: picked env keys'
      | None => picked env keys'
      end
  end.

(** [for (let key in o)] on a tree: the own enumerable keys, as in
    [Store.for_in]. *)
Definition for_in (o : jsvalue) : outcome (list string) :=
  match o with
  | VUndef | VNull => Ok []
  | _ => Object_keys o
  end.

(** [config(conf = {}, options)] by its value: what [conf] holds when the
    call returns.  [parsed] and [env] are as in [Store.config]. *)
Definition config (fuel : nat) (env : environment) (parsed : list string)
    (conf : jsvalue) : outcome jsvalue :=
  let conf := match conf with VUndef => VObj [] | _ => conf end in
  mergedConfig <- merge fuel env conf (Some parsed) ;;
  keys <- for_in mergedConfig ;;
  fold_left
    (fun acc key =>
       conf <- acc ;;
       v <- Get mergedConfig key ;;
       Put conf key v)
    keys (Ok conf).

(** The store [h'] extends [h] and differs from it at most in the object
    that [c] refers to. *)
Definition same_except (c : Store.val) (h h' : Store.heap) : Prop :=
  List.length h <= List.length h' /\
  forall l : nat, l < List.length h -> c <> Store.Ref l ->
                  nth_error h' l = nth_error h l.

(** Nested plain objects: no array, and no key that parses as a number. *)
Fixpoint plain (T : jsvalue) : bool :=
  match T with
  | VObj ps =>
      (fix all (l : props) : bool :=
         match l with
         | [] => true
         | (k, v) :: l' => isNaN (StringToNumber k) && (scalar v || plain v) && all l'
         end) ps
  | _ => false
  end.

Fixpoint plain_each (l : props) : bool :=
  match l with
  | [] => true
  | (k, v) :: l' => isNaN (StringToNumber k) && (scalar v || plain v) && plain_each l'
  end.

(** The flat entries [k.j], [k.(j+1)], ... for the elements of a list. *)
Fixpoint run (k : string) (j : N) (l : list jsvalue) : props :=
  match l with
  | [] => []
  | x :: l' => (join "." [k; N_to_string j], x) :: run k (j + 1) l'
  end.
(* ================================================================= *)
(** * Properties *)

(* ----------------------------------------------------------------- *)
(** ** Outcomes *)

Lemma bind_Ok {A B : Type} (m : outcome A) (k : A -> outcome B) (b : B) :
  bind m k = Ok b -> exists a, m = Ok a /\ k a = Ok b.
Proof.
  destruct m as [a | e | l]; simpl; intros H; try discriminate.
  exists a; split; [reflexivity | exact H].
Qed.

(* ----------------------------------------------------------------- *)
(** ** The effective type *)

Lemma typeof_nonempty (v : jsvalue) : String.eqb (typeof v) "" = false.
Proof. destruct v; reflexivity. Qed.

(** The effective type of [mergeEnvJsonValue] is never the empty string:
    the branch guarded by [!typeOfDj] cannot be taken when [defaultType]
    is absent or is itself a [typeof]. *)
Lemma or_type_nonempty (a : option string) (v : jsvalue) :
  String.eqb (or_type a (typeof v)) "" = false.
Proof.
  unfold or_type. destruct a as [s |].
  - destruct (String.eqb s "") eqn:E; [apply typeof_nonempty | exact E].
  - apply typeof_nonempty.
Qed.

(** An incoming value that is falsy is ignored, whatever the default. *)
Lemma mergeEnvJsonValue_falsy (fuel : nat) (D E : jsvalue) (ty : option string) :
  truthy E = false -> mergeEnvJsonValue (S fuel) D E ty = Ok D.
Proof. intros H. simpl. rewrite H. reflexivity. Qed.

(** With a boolean default the boolean branch is taken, whatever the
    fallback type. *)
Lemma mergeEnvJsonValue_boolean (fuel : nat) (b : bool) (E : jsvalue)
    (ty : option string) :
  truthy E = true ->
  mergeEnvJsonValue (S fuel) (VBool b) E ty =
    (value <- JSON_parse (ToString E) ;;
     match value with
     | VBool _ => Ok value
     | _ => Throw TypeMismatch
     end).
Proof. intros H. simpl. rewrite H. reflexivity. Qed.

(* ----------------------------------------------------------------- *)
(** ** Coercion of scalars *)

(** With no default and no fallback type, a non-empty incoming string has
    the effective type ["string"] (its own [typeof]) and is used verbatim:
    no inference takes place. *)
Lemma mergeEnvJsonValue_untyped_string (fuel : nat) (s : string) :
  s <> "" -> mergeEnvJsonValue (S fuel) VUndef (VStr s) None = Ok (VStr s).
Proof.
  intros H. simpl.
  destruct (String.eqb s "") eqn:E; [apply String.eqb_eq in E; contradiction |].
  reflexivity.
Qed.

(** C1 (defect of the code).  With default [{}], environment
    [{"n": "3.5"}] and the explicit key ["n"], [merge] returns
    [{n: "3.5"}]: the value is the string ["3.5"], not the number [3.5]
    that the claim and the README promise.  The effective type falls back
    to [typeof envValue], which is ["string"], so the inference branch of
    [mergeEnvJsonValue] is never reached. *)
Theorem merge_untyped_numeric_string_stays_string :
  forall fuel : nat,
    merge (S fuel) [("n", "3.5")] (VObj []) (Some ["n"])
    = Ok (VObj [("n", VStr "3.5")]).
Proof. intros fuel. reflexivity. Qed.

(** C2, as stated, fails: the strings ["false"] and ["0"] are not empty,
    hence truthy; ["false"] replaces a boolean default, ["0"] replaces a
    number default, and ["0"] against a boolean default raises. *)
Lemma falsy_strings_counterexample :
  mergeEnvJsonValue 1 (VBool true) (VStr "false") None = Ok (VBool false) /\
  mergeEnvJsonValue 1 (VNum (Dec 5 0)) (VStr "0") None = Ok (VNum (Dec 0 0)) /\
  mergeEnvJsonValue 1 (VBool true) (VStr "0") None = Throw TypeMismatch.
Proof. repeat split; reflexivity. Qed.

(** C2 (amended).  For every default value [D] and every fallback type,
    the empty string as incoming value never overrides [D]: the coercion
    returns [D] unchanged and raises nothing; in particular default
    [{flag: true}] merged with [flag=""] stays [{flag: true}]. *)
Theorem empty_string_never_overrides :
  (forall (fuel : nat) (D : jsvalue) (ty : option string),
      mergeEnvJsonValue (S fuel) D (VStr "") ty = Ok D) /\
  (forall fuel : nat,
      merge (S fuel) [("flag", "")] (VObj [("flag", VBool true)]) None
      = Ok (VObj [("flag", VBool true)])).
Proof.
  split.
  - intros fuel D ty. apply mergeEnvJsonValue_falsy. reflexivity.
  - intros fuel. reflexivity.
Qed.

(** C8.  The string ["false"] against a boolean default is parsed as JSON
    and overrides the default: default [{flag: true}] merged with
    [flag="false"] is [{flag: false}]. *)
Theorem merge_false_overrides_boolean :
  (forall (fuel : nat) (b : bool) (ty : option string),
      mergeEnvJsonValue (S fuel) (VBool b) (VStr "false") ty = Ok (VBool false)) /\
  (forall fuel : nat,
      merge (S fuel) [("flag", "false")] (VObj [("flag", VBool true)]) None
      = Ok (VObj [("flag", VBool false)])).
Proof.
  split.
  - intros fuel b ty. rewrite mergeEnvJsonValue_boolean by reflexivity. reflexivity.
  - intros fuel. reflexivity.
Qed.

(** C9, as stated, fails: ["yes"] is not JSON, and what reaches the caller
    is the [SyntaxError] of [JSON.parse], not the type-mismatch error. *)
Lemma boolean_default_invalid_json_counterexample :
  mergeEnvJsonValue 1 (VBool true) (VStr "yes") None = Throw SyntaxError.
Proof. reflexivity. Qed.

(** C9 (amended).  For a boolean default and a non-empty incoming string:
    when the string parses as JSON to anything but [true] or [false] the
    merge raises the type-mismatch error; when it is not JSON at all the
    [SyntaxError] of [JSON.parse] is raised instead. *)
Theorem boolean_default_rejects_non_boolean
    (fuel : nat) (b : bool) (s : string) (ty : option string) :
  s <> "" ->
  (forall v : jsvalue,
      JSON_parse s = Ok v -> (forall b' : bool, v <> VBool b') ->
      mergeEnvJsonValue (S fuel) (VBool b) (VStr s) ty = Throw TypeMismatch) /\
  (JSON_parse s = Throw SyntaxError ->
   mergeEnvJsonValue (S fuel) (VBool b) (VStr s) ty = Throw SyntaxError).
Proof.
  intros Hs.
  assert (Ht : truthy (VStr s) = true).
  { simpl. destruct (String.eqb s "") eqn:E; [| reflexivity].
    apply String.eqb_eq in E. contradiction. }
  split.
  - intros v Hp Hv. rewrite mergeEnvJsonValue_boolean by exact Ht.
    simpl ToString. rewrite Hp. simpl.
    destruct v; try reflexivity. exfalso. apply (Hv b0). reflexivity.
  - intros Hp. rewrite mergeEnvJsonValue_boolean by exact Ht.
    simpl ToString. rewrite Hp. reflexivity.
Qed.

Lemma boolean_default_rejects_non_boolean_witness :
  mergeEnvJsonValue 1 (VBool true) (VStr "0") None = Throw TypeMismatch /\
  mergeEnvJsonValue 1 (VBool true) (VStr "yes") None = Throw SyntaxError.
Proof.
  split.
  - apply (proj1 (boolean_default_rejects_non_boolean 0 true "0" None
                    ltac:(discriminate)) (VNum (Dec 0 0))).
    + reflexivity.
    + intros b'. discriminate.
  - apply (proj2 (boolean_default_rejects_non_boolean 0 true "yes" None
                    ltac:(discriminate))).
    reflexivity.
Defined.

(* ----------------------------------------------------------------- *)
(** ** Selection of the environment keys *)

(** What the filter of [merge] tests: the position of a default path in
    [keys], not the path. *)
Lemma selected_spec (keys : list string) (envKey : string) :
  selected keys envKey = true <->
  exists i : nat,
    i < List.length keys /\
    startsWith envKey (N_to_string (N.of_nat i) +++ ".") = true.
Proof.
  unfold selected, for_in_array. rewrite existsb_exists. split.
  - intros (k & Hin & Hk). apply in_map_iff in Hin. destruct Hin as (i & <- & Hi).
    apply in_seq in Hi. exists i. split; [lia | exact Hk].
  - intros (i & Hi & Hk). exists (N_to_string (N.of_nat i)). split; [| exact Hk].
    apply in_map_iff. exists i. split; [reflexivity |]. apply in_seq. lia.
Qed.

(** C3 (defect of the code).  The default [{db: {host: ""}}] has the one
    leaf path ["db.host"].  Without explicit keys the claim selects the
    ambient key ["db.host.port"] and rejects ["0.port"]; the code does the
    opposite, because [for (const key in keys)] enumerates the indices of
    the array [keys] and not its elements. *)
Theorem merge_autoselect_tests_positions :
  deflateKeys (VObj [("db", VObj [("host", VStr "")])]) = Ok ["db.host"] /\
  selected ["db.host"] "db.host.port" = false /\
  selected ["db.host"] "0.port" = true /\
  filter (selected ["db.host"]) ["db.host.port"; "0.port"; "db.host"] = ["0.port"].
Proof. repeat split; reflexivity. Qed.

(* ----------------------------------------------------------------- *)
(** ** Inflation at the root *)

(** C5 (defect of the code).  For the flat mapping [{"0": "a"}] the call
    [_inflateItem(["0"], "a", {})] does create the array [["a"]] and
    returns it, but [inflate] drops the value returned and answers the
    untouched root [{}]: no array is produced at the top level.  One level
    down, where the caller stores the value returned, the array is there. *)
Theorem inflate_numeric_root_segment_is_dropped :
  _inflateItem "0" [] (VStr "a") (VObj []) = Ok (array_of [VStr "a"], VObj []) /\
  inflate [("0", VStr "a")] = Ok (VObj []) /\
  inflate [("a.0", VStr "x")] = Ok (VObj [("a", array_of [VStr "x"])]).
Proof. repeat split; reflexivity. Qed.

(* ----------------------------------------------------------------- *)
(** ** Array indices *)

Lemma N_to_uint_nonnil (n : N) : N.to_uint n <> Decimal.Nil.
Proof.
  destruct n as [| p]; simpl; [discriminate |].
  apply DecimalPos.Unsigned.to_uint_nonnil.
Qed.

Lemma N_to_string_inj (n m : N) : N_to_string n = N_to_string m -> n = m.
Proof.
  unfold N_to_string. intros H.
  apply (f_equal NilZero.uint_of_string) in H.
  rewrite !NilZero.usu in H by apply N_to_uint_nonnil.
  injection H as H. apply DecimalN.Unsigned.to_uint_inj. exact H.
Qed.

Lemma array_index_N_to_string (n : N) :
  (n < 4294967295)%N -> array_index (N_to_string n) = Some n.
Proof.
  intros H. unfold array_index, N_to_string.
  rewrite NilZero.usu by apply N_to_uint_nonnil.
  rewrite DecimalN.Unsigned.of_to. fold (N_to_string n).
  rewrite String.eqb_refl. apply N.ltb_lt in H. rewrite H. reflexivity.
Qed.

Lemma array_index_Some (k : string) (n : N) :
  array_index k = Some n -> k = N_to_string n /\ (n < 4294967295)%N.
Proof.
  unfold array_index. destruct (NilZero.uint_of_string k) as [d |]; [| discriminate].
  destruct (String.eqb (N_to_string (N.of_uint d)) k) eqn:E; [| discriminate].
  destruct (N.of_uint d <? 4294967295)%N eqn:L; [| discriminate].
  simpl. intros [= <-]. apply String.eqb_eq in E. apply N.ltb_lt in L. auto.
Qed.

Lemma N_to_string_head (n : N) : head_is_digit (N_to_string n) = true.
Proof.
  unfold N_to_string. destruct (N.to_uint n); reflexivity.
Qed.

Lemma inherited_head (k : string) : inherited k = true -> head_is_digit k = false.
Proof.
  unfold inherited. rewrite existsb_exists. intros (name & Hin & Hk).
  apply String.eqb_eq in Hk. subst name.
  assert (F : forallb (fun name => negb (head_is_digit name)) prototype_names = true)
    by reflexivity.
  rewrite forallb_forall in F. apply F in Hin.
  destruct (head_is_digit k); [discriminate | reflexivity].
Qed.

Lemma inherited_index (n : N) : inherited (N_to_string n) = false.
Proof.
  destruct (inherited (N_to_string n)) eqn:E; [| reflexivity].
  apply inherited_head in E. rewrite N_to_string_head in E. discriminate.
Qed.

(** The members of each prototype are among the names that [inherited]
    recognises. *)
Lemma member_inherited (names : list string) (k : string) :
  forallb inherited names = true -> inherited k = false -> member names k = false.
Proof.
  intros F Hk. destruct (member names k) eqn:E; [| reflexivity].
  unfold member in E. apply existsb_exists in E. destruct E as (name & Hin & E).
  apply String.eqb_eq in E. subst name.
  rewrite forallb_forall in F. rewrite (F k Hin) in Hk. discriminate.
Qed.

Lemma miss_object (k : string) : inherited k = false -> miss object_members k = Ok VUndef.
Proof.
  intros H. unfold miss. rewrite (member_inherited object_members k eq_refl H). reflexivity.
Qed.

Lemma miss_array (k : string) : inherited k = false -> miss array_members k = Ok VUndef.
Proof.
  intros H. unfold miss. rewrite (member_inherited array_members k eq_refl H). reflexivity.
Qed.

Lemma miss_string (k : string) : inherited k = false -> miss string_members k = Ok VUndef.
Proof.
  intros H. unfold miss. rewrite (member_inherited string_members k eq_refl H). reflexivity.
Qed.

Lemma miss_number (k : string) : inherited k = false -> miss number_members k = Ok VUndef.
Proof.
  intros H. unfold miss. rewrite (member_inherited number_members k eq_refl H). reflexivity.
Qed.

Lemma miss_index (names : list string) (n : N) :
  forallb inherited names = true -> miss names (N_to_string n) = Ok VUndef.
Proof.
  intros F. unfold miss. rewrite (member_inherited _ _ F (inherited_index n)). reflexivity.
Qed.

Lemma N_to_string_not_length (n : N) : String.eqb (N_to_string n) "length" = false.
Proof.
  destruct (String.eqb (N_to_string n) "length") eqn:E; [| reflexivity].
  apply String.eqb_eq in E. pose proof (N_to_string_head n) as H.
  rewrite E in H. discriminate.
Qed.

(* ----------------------------------------------------------------- *)
(** ** Dense arrays *)

Lemma lookup_indexed_lt (l : list jsvalue) (j n : N) :
  (n < j)%N -> lookup (indexed j l) (N_to_string n) = None.
Proof.
  revert j. induction l as [| x l IH]; intros j H; simpl; [reflexivity |].
  destruct (String.eqb (N_to_string j) (N_to_string n)) eqn:E.
  - apply String.eqb_eq, N_to_string_inj in E. lia.
  - apply IH. lia.
Qed.

Lemma lookup_indexed (l : list jsvalue) (j : N) (i : nat) :
  lookup (indexed j l) (N_to_string (j + N.of_nat i)) = nth_error l i.
Proof.
  revert j i. induction l as [| x l IH]; intros j i; simpl.
  - destruct i; reflexivity.
  - destruct i as [| i].
    + rewrite N.add_0_r, String.eqb_refl. reflexivity.
    + destruct (String.eqb (N_to_string j) (N_to_string (j + N.of_nat (S i)))) eqn:E.
      * apply String.eqb_eq, N_to_string_inj in E. lia.
      * replace (j + N.of_nat (S i))%N with (j + 1 + N.of_nat i)%N by lia.
        apply IH.
Qed.

(** [a[i]] on a dense array: the element, or [undefined] past the end. *)
Lemma Get_array_of (l : list jsvalue) (i : nat) :
  Get (array_of l) (N_to_string (N.of_nat i)) = Ok (nth i l VUndef).
Proof.
  unfold array_of, Get.
  pose proof (lookup_indexed l 0 i) as H. rewrite N.add_0_l in H. rewrite H.
  destruct (nth_error l i) as [x |] eqn:E.
  - rewrite (nth_error_nth _ _ _ E). reflexivity.
  - rewrite N_to_string_not_length, (miss_index array_members _ eq_refl).
    rewrite nth_overflow; [reflexivity |]. apply nth_error_None. exact E.
Qed.

Lemma indexed_length (l : list jsvalue) (j : N) :
  List.length (indexed j l) = List.length l.
Proof. revert j. induction l; intros j; simpl; [| rewrite IHl]; reflexivity. Qed.

(** [map] over the elements of a dense array calls [f] on every index and
    answers the dense array of the results. *)
Lemma map_elements_indexed (f : jsvalue -> N -> outcome jsvalue)
    (l : list jsvalue) (j : N) (ps : props) :
  (j + N.of_nat (List.length l) < 4294967296)%N ->
  map_elements f (indexed j l) = Ok ps <->
  exists rs : list jsvalue,
    ps = indexed j rs /\ List.length rs = List.length l /\
    forall i : nat, i < List.length l ->
      f (nth i l VUndef) (j + N.of_nat i)%N = Ok (nth i rs VUndef).
Proof.
  revert j ps. induction l as [| x l IH]; intros j ps Hb; simpl.
  - split.
    + intros [= <-]. exists []. repeat split. intros i Hi. lia.
    + intros (rs & -> & Hl & _). destruct rs; [reflexivity | discriminate].
  - rewrite array_index_N_to_string by (simpl in Hb; lia).
    split.
    + intros H. apply bind_Ok in H. destruct H as (r & Hr & H).
      apply bind_Ok in H. destruct H as (rs' & Hrs & H). injection H as <-.
      apply IH in Hrs; [| simpl in Hb; lia].
      destruct Hrs as (rs & -> & Hl & Hall).
      exists (r :: rs). split; [reflexivity |]. split; [simpl; congruence |].
      intros [| i] Hi; simpl.
      * rewrite N.add_0_r. exact Hr.
      * replace (j + N.pos (Pos.of_succ_nat i))%N with (j + 1 + N.of_nat i)%N by lia.
        apply Hall. lia.
    + intros (rs & -> & Hl & Hall). destruct rs as [| r rs]; [discriminate |].
      pose proof (Hall 0 ltac:(lia)) as H0. simpl in H0. rewrite N.add_0_r in H0.
      rewrite H0. simpl.
      assert (Hrest : map_elements f (indexed (j + 1) l) = Ok (indexed (j + 1) rs)).
      { apply IH; [simpl in Hb; lia |]. exists rs. split; [reflexivity |].
        split; [simpl in Hl; congruence |]. intros i Hi.
        specialize (Hall (S i) ltac:(lia)). simpl in Hall.
        replace (j + 1 + N.of_nat i)%N with (j + N.pos (Pos.of_succ_nat i))%N by lia.
        exact Hall. }
      rewrite Hrest. reflexivity.
Qed.

(* ----------------------------------------------------------------- *)
(** ** Array merge *)

Lemma bind_unit {A B : Type} (a : A) (k : A -> outcome B) : bind (Ok a) k = k a.
Proof. reflexivity. Qed.

Lemma length_of_array_of (l : list jsvalue) :
  length_of (array_of l) = Ok (N.of_nat (List.length l)).
Proof. reflexivity. Qed.

Lemma Array_map_array_of (f : jsvalue -> N -> outcome jsvalue) (l : list jsvalue) :
  Array_map f (array_of l) =
    (ps <- map_elements f (indexed 0 l) ;; Ok (VArr (N.of_nat (List.length l)) ps))%js.
Proof. reflexivity. Qed.

(** For a non-empty default array and an incoming array, both without
    holes, the array merge returns a result exactly when every element-wise
    coercion does; the result has the length of the longer of the two (the
    length of the default on a tie) and holds at each index the coercion of
    the default element against the incoming one (absent past the end of
    either), with the type of the first default element as the fallback
    type. *)
Lemma mergeEnvArray_dense (fuel : nat) (ds es : list jsvalue) (r : jsvalue) :
  ds <> [] ->
  (N.of_nat (List.length ds) < 4294967296)%N ->
  (N.of_nat (List.length es) < 4294967296)%N ->
  mergeEnvArray fuel (array_of ds) (array_of es) = Ok r <->
  exists rs : list jsvalue,
    r = array_of rs /\
    List.length rs = Nat.max (List.length ds) (List.length es) /\
    forall i : nat, i < Nat.max (List.length ds) (List.length es) ->
      mergeEnvJsonValue fuel (nth i ds VUndef) (nth i es VUndef)
        (Some (typeof (nth 0 ds VUndef)))
      = Ok (nth i rs VUndef).
Proof.
  intros Hne Hd He.
  unfold mergeEnvArray, mergeEnvArray_body.
  change (nullish (array_of es)) with false.
  change (isArray (array_of es)) with true.
  change (match array_of ds with VUndef => VArr 0 [] | _ => array_of ds end)
    with (array_of ds).
  cbv beta iota. change (negb true) with false. cbv iota.
  rewrite bind_unit. cbv beta.
  rewrite length_of_array_of, bind_unit. cbv beta.
  assert (Hpos : (0 <? N.of_nat (List.length ds))%N = true).
  { apply N.ltb_lt. destruct ds; [contradiction | simpl; lia]. }
  rewrite Hpos.
  change "0" with (N_to_string (N.of_nat 0)). rewrite Get_array_of.
  rewrite bind_unit. cbv beta.
  rewrite length_of_array_of, bind_unit. cbv beta.
  set (ty := Some (typeof (nth 0 ds VUndef))).
  destruct (N.of_nat (List.length ds) <? N.of_nat (List.length es))%N eqn:L.
  - apply N.ltb_lt in L.
    replace (Nat.max (List.length ds) (List.length es)) with (List.length es) by lia.
    rewrite Array_map_array_of.
    split.
    + intros H. apply bind_Ok in H. destruct H as (ps & Hps & H).
      cbv beta in H. injection H as <-.
      apply map_elements_indexed in Hps; [| lia].
      destruct Hps as (rs & -> & Hl & Hall).
      exists rs. split; [unfold array_of; rewrite Hl; reflexivity |].
      split; [exact Hl |]. intros i Hi. specialize (Hall i Hi).
      rewrite N.add_0_l, Get_array_of in Hall. exact Hall.
    + intros (rs & -> & Hl & Hall).
      assert (Hps : map_elements
                (fun value i => d <- Get (array_of ds) (N_to_string i) ;;
                                mergeEnvJsonValue fuel d value ty)%js
                (indexed 0 es) = Ok (indexed 0 rs)).
      { apply map_elements_indexed; [lia |]. exists rs. split; [reflexivity |].
        split; [exact Hl |]. intros i Hi.
        rewrite N.add_0_l, Get_array_of. apply Hall. exact Hi. }
      rewrite Hps. unfold bind, array_of. rewrite Hl. reflexivity.
  - apply N.ltb_ge in L.
    replace (Nat.max (List.length ds) (List.length es)) with (List.length ds) by lia.
    rewrite Array_map_array_of.
    split.
    + intros H. apply bind_Ok in H. destruct H as (ps & Hps & H).
      cbv beta in H. injection H as <-.
      apply map_elements_indexed in Hps; [| lia].
      destruct Hps as (rs & -> & Hl & Hall).
      exists rs. split; [unfold array_of; rewrite Hl; reflexivity |].
      split; [exact Hl |]. intros i Hi. specialize (Hall i Hi).
      rewrite N.add_0_l, Get_array_of in Hall. exact Hall.
    + intros (rs & -> & Hl & Hall).
      assert (Hps : map_elements
                (fun defaultValue i => e <- Get (array_of es) (N_to_string i) ;;
                                mergeEnvJsonValue fuel defaultValue e ty)%js
                (indexed 0 ds) = Ok (indexed 0 rs)).
      { apply map_elements_indexed; [lia |]. exists rs. split; [reflexivity |].
        split; [exact Hl |]. intros i Hi.
        rewrite N.add_0_l, Get_array_of. apply Hall. exact Hi. }
      rewrite Hps. unfold bind, array_of. rewrite Hl. reflexivity.
Qed.

(** C6: a defect of [mergeEnvArray].  On arrays without holes the claim
    holds ([mergeEnvArray_dense]); the example of the claim, the three keys
    supplied as [config] supplies them, merges to [["a", "b", "c"]].  With
    an incoming array that has holes and is longer than the default, which
    is what [inflate] builds when the environment sets [arr.2] alone, the
    result comes from [envValue.map], and [map] skips the holes: indices 0
    and 1 of the result are holes and the defaults ["x"] and ["y"] are
    lost, where the element-wise coercion of ["x"] against an absent value
    is ["x"].  The sibling branch, [defaultJson.map], taken when the
    incoming array is not the longer one, does keep the defaults at the
    holes of the incoming array: [["x", "y", "z"]] with [[<hole>, "b"]]
    gives [["x", "b", "z"]].  It skips the holes of the default in turn:
    [[<hole>, "y"]] with [["a"]] gives [[<hole>, "y"]]. *)
Theorem array_merge_loses_defaults_at_holes :
  (forall fuel : nat,
      merge (S (S fuel))
        [("arr.0", "a"); ("arr.1", "b"); ("arr.2", "c")]
        (VObj [("arr", array_of [VStr "x"; VStr "y"])])
        (Some ["arr.0"; "arr.1"; "arr.2"])
      = Ok (VObj [("arr", array_of [VStr "a"; VStr "b"; VStr "c"])])) /\
  inflate [("arr.2", VStr "c")] = Ok (VObj [("arr", VArr 3 [("2", VStr "c")])]) /\
  (forall fuel : nat,
      merge (S (S fuel)) [("arr.2", "c")]
        (VObj [("arr", array_of [VStr "x"; VStr "y"])]) (Some ["arr.2"])
      = Ok (VObj [("arr", VArr 3 [("2", VStr "c")])])) /\
  (forall fuel : nat,
      mergeEnvArray (S fuel) (array_of [VStr "x"; VStr "y"]) (VArr 3 [("2", VStr "c")])
      = Ok (VArr 3 [("2", VStr "c")])) /\
  Get (VArr 3 [("2", VStr "c")]) "0" = Ok VUndef /\
  (forall fuel : nat,
      mergeEnvJsonValue (S fuel) (VStr "x") VUndef (Some "string") = Ok (VStr "x")) /\
  (forall fuel : nat,
      mergeEnvArray (S fuel) (array_of [VStr "x"; VStr "y"; VStr "z"])
        (VArr 2 [("1", VStr "b")])
      = Ok (array_of [VStr "x"; VStr "b"; VStr "z"])) /\
  (forall fuel : nat,
      mergeEnvArray (S fuel) (VArr 2 [("1", VStr "y")]) (array_of [VStr "a"])
      = Ok (VArr 2 [("1", VStr "y")])).
Proof. repeat split; intros; reflexivity. Qed.
(* ----------------------------------------------------------------- *)
(** ** Property lists *)

Lemma lookup_define_same (ps : props) (k : string) (x : jsvalue) :
  lookup (define ps k x) k = Some x.
Proof.
  induction ps as [| [k' v'] ps IH]; simpl.
  - rewrite String.eqb_refl. reflexivity.
  - destruct (String.eqb k' k) eqn:E.
    + simpl. rewrite String.eqb_refl. reflexivity.
    + destruct (array_index k) as [i |], (array_index k') as [i' |];
        try destruct (i <? i')%N; simpl;
        rewrite ?String.eqb_refl, ?E; auto.
Qed.

Lemma define_define (ps : props) (k : string) (x y : jsvalue) :
  define (define ps k x) k y = define ps k y.
Proof.
  induction ps as [| [k' v'] ps IH]; simpl.
  - rewrite String.eqb_refl. reflexivity.
  - destruct (String.eqb k' k) eqn:E.
    + simpl. rewrite String.eqb_refl. reflexivity.
    + destruct (array_index k) as [i |] eqn:Ek, (array_index k') as [i' |] eqn:Ek';
        try destruct (i <? i')%N eqn:L; simpl;
        rewrite ?String.eqb_refl, ?E, ?Ek, ?Ek', ?L, ?IH; auto.
Qed.

Lemma define_nonempty (ps : props) (k : string) (x : jsvalue) : define ps k x <> [].
Proof.
  destruct ps as [| [k' v'] ps]; simpl; [discriminate |].
  destruct (String.eqb k' k); [discriminate |].
  destruct (array_index k), (array_index k'); try destruct (_ <? _)%N; discriminate.
Qed.

Lemma Put_Put (o o' : jsvalue) (k : string) (x y : jsvalue) :
  Put o k x = Ok o' -> Put o' k y = Put o k y.
Proof.
  destruct o as [| | b | n | s | ps | len ps]; simpl; try discriminate;
    try (intros [= <-]; reflexivity).
  - destruct (lookup ps k) eqn:L.
    + intros [= <-]. simpl. rewrite lookup_define_same, define_define. reflexivity.
    + destruct (String.eqb k "__proto__"); [discriminate |].
      intros [= <-]. simpl. rewrite lookup_define_same, define_define. reflexivity.
  - destruct (String.eqb k "length") eqn:El; [discriminate |].
    destruct (lookup ps k) eqn:L.
    + intros [= <-]. simpl. rewrite El, lookup_define_same, define_define. reflexivity.
    + destruct (String.eqb k "__proto__"); [discriminate |].
      intros [= <-]. simpl. rewrite El, lookup_define_same, define_define. reflexivity.
Qed.

Lemma Get_Put (o o' : jsvalue) (k : string) (x : jsvalue) :
  is_container o = true -> Put o k x = Ok o' -> Get o' k = Ok x.
Proof.
  destruct o as [| | b | n | s | ps | len ps]; simpl; try discriminate; intros _.
  - destruct (lookup ps k) eqn:L; [| destruct (String.eqb k "__proto__"); [discriminate |]];
      intros [= <-]; simpl; rewrite lookup_define_same; reflexivity.
  - destruct (String.eqb k "length") eqn:El; [discriminate |].
    destruct (lookup ps k) eqn:L; [| destruct (String.eqb k "__proto__"); [discriminate |]];
      intros [= <-]; simpl; rewrite lookup_define_same; reflexivity.
Qed.

Lemma Put_container (o o' : jsvalue) (k : string) (x : jsvalue) :
  is_container o = true -> Put o k x = Ok o' ->
  is_container o' = true /\ own_keys o' <> [].
Proof.
  destruct o as [| | b | n | s | ps | len ps]; simpl; try discriminate; intros _.
  - destruct (lookup ps k) eqn:L; [| destruct (String.eqb k "__proto__"); [discriminate |]];
      intros [= <-]; simpl; (split; [reflexivity |]);
      pose proof (define_nonempty ps k x); destruct (define ps k x); [contradiction | discriminate | contradiction | discriminate].
  - destruct (String.eqb k "length") eqn:El; [discriminate |].
    destruct (lookup ps k) eqn:L; [| destruct (String.eqb k "__proto__"); [discriminate |]];
      intros [= <-]; simpl; (split; [reflexivity |]);
      pose proof (define_nonempty ps k x); destruct (define ps k x); [contradiction | discriminate | contradiction | discriminate].
Qed.

Lemma Put_primitive (o o' : jsvalue) (k : string) (x : jsvalue) :
  is_container o = false -> Put o k x = Ok o' -> o' = o.
Proof.
  destruct o; simpl; try discriminate; intros _ [= <-]; reflexivity.
Qed.

(* ----------------------------------------------------------------- *)
(** ** One call of [_inflateItem] *)

Lemma Object_keys_Ok (o : jsvalue) :
  nullish o = false -> Object_keys o = Ok (own_keys o).
Proof. destruct o; simpl; intros H; try discriminate; reflexivity. Qed.

Lemma truthy_not_nullish (o : jsvalue) : truthy o = true -> nullish o = false.
Proof. destruct o; simpl; intros H; try discriminate; reflexivity. Qed.

Lemma or_empty_truthy (v : jsvalue) : truthy (or_empty v) = true.
Proof. unfold or_empty. destruct (truthy v) eqn:E; [exact E | reflexivity]. Qed.

Lemma or_empty_id (v : jsvalue) : truthy v = true -> or_empty v = v.
Proof. unfold or_empty. intros ->. reflexivity. Qed.

Lemma container_truthy (o : jsvalue) : is_container o = true -> truthy o = true.
Proof. destruct o; simpl; intros H; try discriminate; reflexivity. Qed.

Lemma returned_pair (m : outcome jsvalue) (f : jsvalue -> jsvalue) :
  returned (r <- m ;; Ok (r, f r)) = m.
Proof. destruct m; reflexivity. Qed.

(** One unfolding of the recursion. *)
Lemma inflateItem_unfold (key : string) (rest : list string) (v R : jsvalue) :
  _inflateItem key rest v R =
    (ks <- Object_keys R ;;
     let rebound := negb (isNaN (StringToNumber key)) && (List.length ks =? 0) in
     let result1 := if rebound then VArr 0 [] else R in
     let key1 := if rebound then NumberToString (StringToNumber key) else key in
     r <- match rest with
          | [] => Put result1 key1 v
          | k :: rest' =>
              child <- Get result1 key1 ;;
              sub <- returned (_inflateItem k rest' v (or_empty child)) ;;
              Put result1 key1 sub
          end ;;
     Ok (r, if rebound then R else r)).
Proof.
  destruct rest as [| k rest']; [reflexivity |].
  cbn [_inflateItem]. unfold returned.
  destruct (Object_keys R) as [ks | |]; [| reflexivity | reflexivity].
  cbn [bind]. cbv zeta.
  destruct (Get _ _) as [child | |]; [| reflexivity | reflexivity].
  cbn [bind].
  destruct (_inflateItem k rest' v (or_empty child)) as [[sub a] | |]; reflexivity.
Qed.

(** The value returned, in terms of the place written. *)
Lemma returned_inflateItem (key : string) (rest : list string) (v R : jsvalue) :
  nullish R = false ->
  returned (_inflateItem key rest v R) =
    let (o, k1) := target key R in
    match rest with
    | [] => Put o k1 v
    | k :: rest' =>
        child <- Get o k1 ;;
        sub <- returned (_inflateItem k rest' v (or_empty child)) ;;
        Put o k1 sub
    end.
Proof.
  intros HR. rewrite inflateItem_unfold, (Object_keys_Ok R HR).
  cbn [bind]. cbv zeta. unfold target, rebinds.
  destruct (negb (isNaN (StringToNumber key)) && (List.length (own_keys R) =? 0));
    apply returned_pair with (f := fun r => _).
Qed.

(** The whole result: the value returned, and the caller's object. *)
Lemma inflateItem_returned (key : string) (rest : list string) (v R : jsvalue) :
  _inflateItem key rest v R =
    (r <- returned (_inflateItem key rest v R) ;;
     Ok (r, if rebinds key R then R else r)).
Proof.
  rewrite inflateItem_unfold at 1. rewrite inflateItem_unfold at 1.
  unfold rebinds.
  destruct R; try reflexivity; cbn [Object_keys own_keys bind]; cbv zeta;
    match goal with
    | |- bind ?m _ = _ => destruct m; reflexivity
    end.
Qed.

Lemma same_shape_refl {A : Type} (m : outcome A) : same_shape m m.
Proof. destruct m; simpl; auto. Qed.


Lemma rebinds_nonempty (key : string) (o : jsvalue) :
  own_keys o <> [] -> rebinds key o = false.
Proof.
  intros H. unfold rebinds. destruct (own_keys o); [contradiction |].
  simpl. apply andb_false_r.
Qed.

Lemma target_stable (key : string) (R : jsvalue) :
  rebinds key R = false \/ stable key = true -> snd (target key R) = key.
Proof.
  intros H. unfold target. destruct (rebinds key R) eqn:Rb; [| reflexivity].
  destruct H as [H | H]; [discriminate |].
  unfold rebinds in Rb. apply andb_prop in Rb. destruct Rb as [Rb _].
  unfold stable in H. destruct (isNaN (StringToNumber key)); [discriminate |].
  simpl in H. apply andb_prop in H. destruct H as (H & _).
  apply String.eqb_eq in H. exact H.
Qed.

Lemma target_cases (key : string) (R : jsvalue) :
  is_container (fst (target key R)) = true \/
  (is_container R = false /\ target key R = (R, key)).
Proof.
  unfold target. destruct (rebinds key R); [left; reflexivity |].
  destruct (is_container R) eqn:E; [left; exact E | right; auto].
Qed.

(** The value returned is truthy when the object received is. *)
Lemma returned_truthy (key : string) (rest : list string) (v R r : jsvalue) :
  truthy R = true ->
  returned (_inflateItem key rest v R) = Ok r -> truthy r = true.
Proof.
  intros HR H. rewrite returned_inflateItem in H by (apply truthy_not_nullish, HR).
  assert (HP : exists x, Put (fst (target key R)) (snd (target key R)) x = Ok r).
  { destruct (target key R) as [o k1]. destruct rest as [| k rest'].
    - exists v. exact H.
    - apply bind_Ok in H. destruct H as (child & _ & H).
      apply bind_Ok in H. destruct H as (sub & _ & H). exists sub. exact H. }
  destruct HP as (x & HP).
  destruct (target_cases key R) as [Hc | (Hc & Ht)].
  - apply container_truthy. apply (Put_container _ _ _ _ Hc HP).
  - rewrite Ht in HP. simpl in HP. apply Put_primitive in HP; [| exact Hc].
    subst r. exact HR.
Qed.





(* ----------------------------------------------------------------- *)
(** ** Keys, dots and white space *)

Lemma split_dotfree (k : string) : dotfree k = true -> split "." k = (k, []).
Proof.
  induction k as [| c k IH]; simpl; [reflexivity |].
  intros H. apply andb_prop in H. destruct H as (Hc & Hk).
  rewrite (IH Hk). destruct (Ascii.eqb c "."); [discriminate | reflexivity].
Qed.

Lemma split_app_dot (k t : string) :
  dotfree k = true ->
  split "." (k +++ String "." t) = (k, fst (split "." t) :: snd (split "." t)).
Proof.
  induction k as [| c k IH]; simpl.
  - intros _. destruct (split "." t). reflexivity.
  - intros H. apply andb_prop in H. destruct H as (Hc & Hk).
    rewrite (IH Hk). destruct (Ascii.eqb c "."); [discriminate | reflexivity].
Qed.

Lemma split_join (k : string) (rest : list string) :
  dotfree k = true -> forallb dotfree rest = true ->
  split "." (join "." (k :: rest)) = (k, rest).
Proof.
  revert k. induction rest as [| k' rest IH]; intros k Hk Hr.
  - apply split_dotfree. exact Hk.
  - simpl in Hr. apply andb_prop in Hr. destruct Hr as (Hk' & Hr).
    change (join "." (k :: k' :: rest)) with (k +++ String "." (join "." (k' :: rest))).
    rewrite (split_app_dot _ _ Hk), (IH k' Hk' Hr). reflexivity.
Qed.

Lemma trimStart_id (s : string) : head_ws s = false -> trimStart s = s.
Proof. destruct s as [| c s]; simpl; [reflexivity |]. intros ->. reflexivity. Qed.

Lemma all_ws_last (s : string) : s <> "" -> all_ws s = true -> last_ws s = true.
Proof.
  induction s as [| c s IH]; [contradiction |]. intros _ H. simpl in H.
  apply andb_prop in H. destruct H as (Hc & Hs).
  destruct s as [| c' s']; [exact Hc |]. apply IH; [discriminate | exact Hs].
Qed.

Lemma trimEnd_id (s : string) : last_ws s = false -> trimEnd s = s.
Proof.
  induction s as [| c s IH]; [reflexivity |]. intros H.
  cbn [trimEnd]. destruct (all_ws (String c s)) eqn:E.
  - apply all_ws_last in E; [congruence | discriminate].
  - f_equal. apply IH. destruct s; [reflexivity | exact H].
Qed.

Lemma trim_id (s : string) : trimmed s = true -> trim s = s.
Proof.
  unfold trimmed, trim. intros H. apply andb_prop in H. destruct H as (Hh & Hl).
  rewrite trimStart_id by (destruct (head_ws s); [discriminate | reflexivity]).
  apply trimEnd_id. destruct (last_ws s); [discriminate | reflexivity].
Qed.

Lemma head_ws_app (a b : string) :
  head_ws (a +++ b) = match a with EmptyString => head_ws b | _ => head_ws a end.
Proof. destruct a; reflexivity. Qed.

Lemma last_ws_app (a b : string) :
  b <> "" -> last_ws (a +++ b) = last_ws b.
Proof.
  intros Hb. induction a as [| c a IH]; [reflexivity |].
  simpl. rewrite IH. destruct (a +++ b) eqn:E; [| reflexivity].
  destruct a; simpl in E; [contradiction | discriminate].
Qed.

Lemma last_cons_default {A : Type} (l : list A) (a d d' : A) :
  last (a :: l) d = last (a :: l) d'.
Proof.
  revert a. induction l as [| b l IH]; intros a; [reflexivity |].
  change (last (b :: l) d = last (b :: l) d'). apply IH.
Qed.

Lemma last_ws_join (k : string) (rest : list string) :
  last_ws (join "." (k :: rest)) = last_ws (last rest k).
Proof.
  revert k. induction rest as [| k' rest IH]; intros k; [reflexivity |].
  change (join "." (k :: k' :: rest)) with (k +++ String "." (join "." (k' :: rest))).
  rewrite last_ws_app by discriminate.
  transitivity (last_ws (join "." (k' :: rest))).
  - destruct (join "." (k' :: rest)); reflexivity.
  - rewrite IH. destruct rest as [| k'' rest]; [reflexivity |].
    change (last (k' :: k'' :: rest) k) with (last (k'' :: rest) k).
    rewrite (last_cons_default rest k'' k' k). reflexivity.
Qed.

(** A dotted path is trimmed when its first segment has no leading and its
    last segment no trailing white space. *)
Lemma trimmed_join (k : string) (rest : list string) :
  head_ws k = false -> last_ws (last rest k) = false ->
  trimmed (join "." (k :: rest)) = true.
Proof.
  intros Hh Hl. unfold trimmed. rewrite last_ws_join, Hl, andb_true_r.
  apply negb_true_iff.
  destruct rest as [| k' rest]; [exact Hh |].
  change (join "." (k :: k' :: rest)) with (k +++ String "." (join "." (k' :: rest))).
  rewrite head_ws_app. destruct k; [reflexivity | exact Hh].
Qed.

Lemma dotfree_app (a b : string) : dotfree (a +++ b) = dotfree a && dotfree b.
Proof.
  induction a as [| c a IH]; [reflexivity |]. simpl. rewrite IH, andb_assoc. reflexivity.
Qed.

Lemma string_of_uint_dotfree (d : Decimal.uint) :
  dotfree (NilEmpty.string_of_uint d) = true.
Proof. induction d; simpl; auto. Qed.

Lemma N_to_string_dotfree (n : N) : dotfree (N_to_string n) = true.
Proof.
  unfold N_to_string, NilZero.string_of_uint.
  destruct (N.to_uint n); try reflexivity; apply string_of_uint_dotfree.
Qed.

(** A key with a dot is not an array index. *)
Lemma array_index_dot (k : string) : dotfree k = false -> array_index k = None.
Proof.
  intros H. destruct (array_index k) as [n |] eqn:E; [| reflexivity].
  apply array_index_Some in E. destruct E as (-> & _).
  rewrite N_to_string_dotfree in H. discriminate.
Qed.

Lemma inherited_dotfree (k : string) : inherited k = true -> dotfree k = true.
Proof.
  unfold inherited. rewrite existsb_exists. intros (name & Hin & Hk).
  apply String.eqb_eq in Hk. subst name.
  assert (F : forallb dotfree prototype_names = true) by reflexivity.
  rewrite forallb_forall in F. apply F. exact Hin.
Qed.

(* ----------------------------------------------------------------- *)
(** ** Property order *)

Lemma lookup_None_appends (ps : props) (k : string) :
  appends (map fst ps) k = true -> lookup ps k = None.
Proof.
  induction ps as [| [k' v'] ps IH]; simpl; [reflexivity |].
  intros H. apply andb_prop in H. destruct H as (H & Hps).
  apply andb_prop in H. destruct H as (Hne & _).
  destruct (String.eqb k' k); [discriminate |]. apply IH. exact Hps.
Qed.

Lemma define_appends (ps : props) (k : string) (v : jsvalue) :
  appends (map fst ps) k = true -> define ps k v = ps ++ [(k, v)].
Proof.
  induction ps as [| [k' v'] ps IH]; simpl; [reflexivity |].
  intros H. apply andb_prop in H. destruct H as (H & Hps).
  apply andb_prop in H. destruct H as (Hne & Hord).
  destruct (String.eqb k' k); [discriminate |].
  destruct (array_index k) as [i |].
  - destruct (array_index k') as [i' |]; [| discriminate].
    destruct (i <? i')%N; [discriminate |]. rewrite (IH Hps). reflexivity.
  - rewrite (IH Hps). reflexivity.
Qed.

(** A key that is not an array index and is not there yet goes last. *)
Lemma appends_fresh (seen : list string) (k : string) :
  array_index k = None -> ~ In k seen -> appends seen k = true.
Proof.
  intros Hi Hn. unfold appends. rewrite Hi. apply forallb_forall.
  intros k' Hin. rewrite andb_true_r. apply negb_true_iff.
  destruct (String.eqb k' k) eqn:E; [| reflexivity].
  apply String.eqb_eq in E. subst k'. contradiction.
Qed.

Lemma appends_not_In (seen : list string) (k : string) :
  appends seen k = true -> ~ In k seen.
Proof.
  unfold appends. rewrite forallb_forall. intros H Hin.
  specialize (H k Hin). rewrite String.eqb_refl in H. discriminate.
Qed.

(* ----------------------------------------------------------------- *)
(** ** Writes to containers *)

Lemma own_keys_props (o : jsvalue) :
  is_container o = true -> own_keys o = map fst (props_of o).
Proof. destruct o; simpl; intros H; try discriminate; reflexivity. Qed.

Lemma inherited_not_special (k : string) :
  inherited k = false ->
  String.eqb k "length" = false /\ String.eqb k "__proto__" = false.
Proof.
  intros H. split.
  - destruct (String.eqb k "length") eqn:E; [| reflexivity].
    apply String.eqb_eq in E. subst k. discriminate.
  - destruct (String.eqb k "__proto__") eqn:E; [| reflexivity].
    apply String.eqb_eq in E. subst k. discriminate.
Qed.

(** Writing a new property that goes last. *)
Lemma Put_appends (o : jsvalue) (k : string) (x : jsvalue) :
  is_container o = true -> inherited k = false ->
  appends (map fst (props_of o)) k = true ->
  exists o', Put o k x = Ok o' /\ is_container o' = true /\
             props_of o' = props_of o ++ [(k, x)].
Proof.
  intros Hc Hi Ha. destruct (inherited_not_special k Hi) as (Hl & Hp).
  pose proof (lookup_None_appends _ _ Ha) as Hn.
  destruct o as [| | b | n | s | ps | len ps]; try discriminate; simpl in *.
  - rewrite Hn, Hp, (define_appends _ _ x Ha). eexists. repeat split.
  - rewrite Hl, Hn, Hp, (define_appends _ _ x Ha). eexists. repeat split.
Qed.

(** Writing to a container succeeds unless the name is special. *)
Lemma Put_Ok (o : jsvalue) (k : string) (x : jsvalue) :
  is_container o = true -> inherited k = false -> exists o', Put o k x = Ok o'.
Proof.
  intros Hc Hi. destruct (inherited_not_special k Hi) as (Hl & Hp).
  destruct o as [| | b | n | s | ps | len ps]; try discriminate; simpl.
  - rewrite Hp. destruct (lookup ps k); eexists; reflexivity.
  - rewrite Hl, Hp. destruct (lookup ps k); eexists; reflexivity.
Qed.

(** Reading a property that is not there. *)
Lemma Get_absent (o : jsvalue) (k : string) :
  is_container o = true -> inherited k = false ->
  lookup (props_of o) k = None -> Get o k = Ok VUndef.
Proof.
  intros Hc Hi Hn. destruct (inherited_not_special k Hi) as (Hl & Hp).
  destruct o as [| | b | n | s | ps | len ps]; try discriminate; simpl in *;
    rewrite Hn, ?Hl, ?(miss_object k Hi), ?(miss_array k Hi); reflexivity.
Qed.

(* ----------------------------------------------------------------- *)
(** ** Writes and reads by the kind of the receiver *)

Lemma Put_isArray (o o' : jsvalue) (k : string) (x : jsvalue) :
  Put o k x = Ok o' -> isArray o' = isArray o.
Proof.
  destruct o as [| | b | n | s | ps | len ps]; simpl; try discriminate;
    try (intros [= <-]; reflexivity).
  - destruct (lookup ps k); [| destruct (String.eqb k "__proto__"); [discriminate |]];
      intros [= <-]; reflexivity.
  - destruct (String.eqb k "length"); [discriminate |].
    destruct (lookup ps k); [| destruct (String.eqb k "__proto__"); [discriminate |]];
      intros [= <-]; reflexivity.
Qed.

Lemma writes_parts (arr : bool) (k : string) :
  writes arr k = true ->
  String.eqb k "__proto__" = false /\ (arr = true -> String.eqb k "length" = false).
Proof.
  unfold writes. intros H. apply andb_prop in H. destruct H as (Hp & Hl).
  apply negb_true_iff in Hp, Hl. split; [exact Hp |].
  intros ->. exact Hl.
Qed.

Lemma reads_writes (arr : bool) (k : string) :
  reads arr k = true -> writes arr k = true.
Proof.
  unfold reads, writes. intros H. apply negb_true_iff in H.
  destruct (String.eqb k "__proto__") eqn:Ep.
  - apply String.eqb_eq in Ep. subst k. destruct arr; discriminate.
  - destruct arr; [| reflexivity]. cbn [negb andb].
    destruct (String.eqb k "length") eqn:El; [| reflexivity].
    apply String.eqb_eq in El. subst k. discriminate.
Qed.

Lemma inherited_reads (arr : bool) (k : string) :
  inherited k = false -> reads arr k = true.
Proof.
  intros H. unfold reads. apply negb_true_iff.
  destruct arr; [apply (member_inherited array_members k eq_refl H)
                | apply (member_inherited object_members k eq_refl H)].
Qed.

Lemma inherited_writes (arr : bool) (k : string) :
  inherited k = false -> writes arr k = true.
Proof. intros H. apply reads_writes, inherited_reads, H. Qed.

(** Writing a new property that goes last. *)
Lemma Put_appends_at (o : jsvalue) (k : string) (x : jsvalue) :
  is_container o = true -> writes (isArray o) k = true ->
  appends (map fst (props_of o)) k = true ->
  exists o', Put o k x = Ok o' /\ is_container o' = true /\
             isArray o' = isArray o /\
             props_of o' = props_of o ++ [(k, x)].
Proof.
  intros Hc Hw Ha. destruct (writes_parts _ k Hw) as (Hp & Hl).
  pose proof (lookup_None_appends _ _ Ha) as Hn.
  destruct o as [| | b | n | s | ps | len ps]; try discriminate; simpl in *.
  - rewrite Hn, Hp, (define_appends _ _ x Ha). eexists. repeat split.
  - rewrite (Hl eq_refl), Hn, Hp, (define_appends _ _ x Ha). eexists. repeat split.
Qed.

Lemma Put_Ok_at (o : jsvalue) (k : string) (x : jsvalue) :
  is_container o = true -> writes (isArray o) k = true ->
  exists o', Put o k x = Ok o'.
Proof.
  intros Hc Hw. destruct (writes_parts _ k Hw) as (Hp & Hl).
  destruct o as [| | b | n | s | ps | len ps]; try discriminate; simpl in *.
  - rewrite Hp. destruct (lookup ps k); eexists; reflexivity.
  - rewrite (Hl eq_refl), Hp. destruct (lookup ps k); eexists; reflexivity.
Qed.

(** Reading a property that is not there. *)
Lemma Get_absent_at (o : jsvalue) (k : string) :
  is_container o = true -> reads (isArray o) k = true ->
  lookup (props_of o) k = None -> Get o k = Ok VUndef.
Proof.
  intros Hc Hr Hn.
  destruct (writes_parts _ k (reads_writes _ k Hr)) as (_ & Hl).
  unfold reads in Hr. apply negb_true_iff in Hr.
  destruct o as [| | b | n | s | ps | len ps]; try discriminate;
    cbn [Get props_of isArray] in *;
    rewrite Hn; unfold miss; rewrite ?(Hl eq_refl), Hr; reflexivity.
Qed.
(* ----------------------------------------------------------------- *)
(** ** Inserting the leaves of a subtree *)

Lemma insert_failed (es : list entry) (m : outcome jsvalue) :
  (forall R, m <> Ok R) -> fold_left insert es m = m.
Proof.
  intros H. induction es as [| e es IH]; [reflexivity |].
  simpl. destruct m as [R | e' | l]; [exfalso; apply (H R); reflexivity | |]; exact IH.
Qed.

Lemma insert_all_cons (e : entry) (es : list entry) (R : jsvalue) :
  insert_all (e :: es) R =
    (R1 <- returned (_inflateItem (fst (fst e)) (snd (fst e)) (snd e) R) ;;
     insert_all es R1).
Proof.
  unfold insert_all. cbn [fold_left]. unfold insert at 2. cbn [bind].
  destruct (returned _) as [R1 | e' | l]; [reflexivity | |];
    apply insert_failed; intros R0; discriminate.
Qed.

Lemma insert_all_app (es1 es2 : list entry) (R : jsvalue) :
  insert_all (es1 ++ es2) R = (R1 <- insert_all es1 R ;; insert_all es2 R1).
Proof.
  unfold insert_all. rewrite fold_left_app.
  destruct (fold_left insert es1 (Ok R)) as [R1 | e' | l]; [reflexivity | |];
    apply insert_failed; intros R0; discriminate.
Qed.

Lemma target_container (key : string) (S : jsvalue) :
  is_container S = true ->
  is_container (fst (target key S)) = true /\
  props_of (fst (target key S)) = props_of S.
Proof.
  intros Hc. unfold target. destruct (rebinds key S) eqn:Rb; [| auto].
  split; [reflexivity |]. unfold rebinds in Rb. apply andb_prop in Rb.
  destruct Rb as (_ & Rb).
  destruct S as [| | b | n | s | ps | len ps]; try discriminate; simpl in *;
    destruct ps; try discriminate; reflexivity.
Qed.

(** The leaves of a subtree stored under [key] are inserted through the
    parent one by one; the effect is that of building the subtree apart
    and storing it once. *)
Lemma insert_all_under (key : string) (tails : list entry) :
  forall S : jsvalue,
    tails <> [] -> is_container S = true ->
    writes (isArray (fst (target key S))) key = true ->
    rebinds key S = false \/ stable key = true ->
    insert_all (map (under key) tails) S =
      (child <- Get (fst (target key S)) key ;;
       c <- insert_all tails (or_empty child) ;;
       Put (fst (target key S)) key c).
Proof.
  induction tails as [| e tails IH]; intros S Hne Hc Hi Hk; [contradiction |].
  cbn [map]. rewrite insert_all_cons.
  change (fst (fst (under key e))) with key.
  change (snd (fst (under key e))) with (fst (fst e) :: snd (fst e)).
  change (snd (under key e)) with (snd e).
  rewrite returned_inflateItem by (apply truthy_not_nullish, container_truthy, Hc).
  pose proof (target_stable key S Hk) as Hs.
  destruct (target_container key S Hc) as (Ho & _).
  destruct (target key S) as [o k1]. cbn [fst snd] in *. subst k1.
  destruct (Get o key) as [child | e' | l]; cbn [bind]; [| reflexivity | reflexivity].
  rewrite (insert_all_cons e tails).
  destruct (returned (_inflateItem (fst (fst e)) (snd (fst e)) (snd e) (or_empty child)))
    as [sub1 | e' | l] eqn:Hsub; cbn [bind]; [| reflexivity | reflexivity].
  destruct (Put_Ok_at o key sub1 Ho Hi) as (S1 & HP). rewrite HP. cbn [bind].
  destruct tails as [| e2 tails'].
  - cbn. symmetry. exact HP.
  - destruct (Put_container _ _ _ _ Ho HP) as (Hc1 & Hk1).
    pose proof (rebinds_nonempty key S1 Hk1) as Rb1.
    assert (Hi1 : writes (isArray (fst (target key S1))) key = true).
    { unfold target. rewrite Rb1. cbn [fst]. rewrite (Put_isArray _ _ _ _ HP). exact Hi. }
    rewrite (IH S1 ltac:(discriminate) Hc1 Hi1 (or_introl Rb1)).
    unfold target. rewrite Rb1. cbn [fst]. rewrite (Get_Put _ _ _ _ Ho HP). cbn [bind].
    rewrite (or_empty_id sub1)
      by (apply (returned_truthy _ _ _ _ _ (or_empty_truthy child) Hsub)).
    destruct (insert_all (e2 :: tails') sub1) as [c | e' | l]; cbn [bind];
      [| reflexivity | reflexivity].
    apply (Put_Put _ _ _ _ _ HP).
Qed.
(* ----------------------------------------------------------------- *)
(** ** What [deflate] sees of a child *)

Lemma number_eqb_refl (n : number) : number_eqb n n = true.
Proof.
  destruct n as [| b | m s]; simpl;
    [reflexivity | apply Bool.eqb_reflx | rewrite Z.eqb_refl, Nat.eqb_refl; reflexivity].
Qed.

Lemma number_eqb_eq (n n' : number) : number_eqb n n' = true -> n' = n.
Proof.
  destruct n as [| b | m s], n' as [| b' | m' s']; simpl; try discriminate; intros H.
  - reflexivity.
  - apply Bool.eqb_prop in H. congruence.
  - apply andb_prop in H. destruct H as (H1 & H2).
    apply Z.eqb_eq in H1. apply Nat.eqb_eq in H2. congruence.
Qed.

Lemma alike_container (T T' : jsvalue) :
  is_container T = true -> is_container T' = true ->
  alike T T' = alike_each (props_of T) (props_of T').
Proof.
  destruct T; try discriminate; destruct T'; try discriminate; reflexivity.
Qed.

Lemma alike_each_refl (l : props) :
  Forall (fun kv => alike (snd kv) (snd kv) = true) l -> alike_each l l = true.
Proof.
  induction 1 as [| [k v] l Hv _ IH]; [reflexivity |].
  cbn [snd] in Hv. cbn [alike_each]. rewrite String.eqb_refl, Hv, IH. reflexivity.
Qed.

Lemma alike_refl (x : jsvalue) : alike x x = true.
Proof.
  induction x as [v Hv | ps IH | len ps IH] using jsvalue_nested_ind.
  - destruct v; try discriminate; simpl;
      auto using Bool.eqb_reflx, number_eqb_refl, String.eqb_refl.
  - rewrite alike_container by reflexivity. apply alike_each_refl, IH.
  - rewrite alike_container by reflexivity. apply alike_each_refl, IH.
Qed.

(** A scalar is alike itself only. *)
Lemma alike_scalar (x x' : jsvalue) :
  scalar x = true -> alike x x' = true -> x' = x.
Proof.
  destruct x; try discriminate; destruct x'; try discriminate; simpl; intros _ H.
  - apply Bool.eqb_prop in H. congruence.
  - apply number_eqb_eq in H. congruence.
  - apply String.eqb_eq in H. congruence.
Qed.

Lemma flat_equal_refl (x : jsvalue) : flat_equal x x.
Proof. repeat split. apply alike_refl. Qed.

Lemma scalar_not_walked (x : jsvalue) : scalar x = true -> walked x = false.
Proof.
  destruct x; simpl; intros H; try discriminate; unfold walked; simpl;
    rewrite ?andb_false_r; reflexivity.
Qed.

Lemma container_walked (x : jsvalue) :
  is_container x = true -> own_keys x <> [] -> walked x = true.
Proof.
  destruct x as [| | b | n | s | ps | len ps]; simpl; intros H Hk; try discriminate;
    unfold walked; simpl; destruct ps; try contradiction; reflexivity.
Qed.

Lemma roundtrips_container (x : jsvalue) :
  roundtrips x = true -> is_container x = true /\ own_keys x <> [].
Proof.
  destruct x as [| | b | n | s | ps | len ps]; simpl; intros H; try discriminate;
    (split; [reflexivity |]); destruct ps; simpl in *; discriminate.
Qed.

Lemma deflate_container (T : jsvalue) (p : string) :
  is_container T = true -> deflate T p = deflate_each p (props_of T) [].
Proof. destruct T; simpl; intros H; try discriminate; reflexivity. Qed.

Lemma deflate_entry_congr (x x' : jsvalue) (p : string) (res : props) (k : string) :
  flat_equal x x' ->
  deflate_entry (deflate x') p res k x' = deflate_entry (deflate x) p res k x.
Proof.
  intros (Hn & Hw & Hl & Hd & _). unfold deflate_entry.
  destruct (nullish x) eqn:Nx.
  - destruct x; try discriminate; destruct x'; try discriminate; reflexivity.
  - rewrite !Object_keys_Ok by congruence. cbn [bind].
    fold (walked x'). fold (walked x). rewrite Hw.
    destruct (walked x) eqn:W.
    + rewrite Hd. reflexivity.
    + rewrite (Hl eq_refl). reflexivity.
Qed.

Lemma deflate_each_congr (l built : props) (p : string) :
  Forall2 same_child l built ->
  forall res : props, deflate_each p built res = deflate_each p l res.
Proof.
  induction 1 as [| [k x] [k' x'] l built (Hk & Hx) _ IH]; intros res; [reflexivity |].
  cbn [fst snd] in Hk, Hx. subst k'.
  change (deflate_each p ((k, x') :: built) res)
    with (result' <- deflate_entry (deflate x') p res k x' ;; deflate_each p built result').
  change (deflate_each p ((k, x) :: l) res)
    with (result' <- deflate_entry (deflate x) p res k x ;; deflate_each p l result').
  rewrite (deflate_entry_congr _ _ _ _ _ Hx).
  destruct (deflate_entry (deflate x) p res k x); cbn [bind]; auto.
Qed.

Lemma alike_children (l built : props) :
  Forall2 same_child l built -> alike_each l built = true.
Proof.
  induction 1 as [| [k x] [k' x'] l built (Hk & Hx) _ IH]; [reflexivity |].
  cbn [fst snd] in Hk, Hx. subst k'. destruct Hx as (_ & _ & _ & _ & Ha).
  cbn [alike_each]. rewrite String.eqb_refl, Ha, IH. reflexivity.
Qed.

(* ----------------------------------------------------------------- *)
(** ** Building a container child by child *)

Lemma children_ok_cons (arr : bool) (k : string) (x : jsvalue) (l : props) :
  children_ok arr ((k, x) :: l) = true ->
  dotfree k = true /\ writes arr k = true /\
  (scalar x = true \/ (reads arr k = true /\ roundtrips x = true)) /\
  children_ok arr l = true /\
  (scalar x = true -> last_ws k = false).
Proof.
  change (children_ok arr ((k, x) :: l))
    with (dotfree k &&
          (if scalar x then negb (last_ws k) && writes arr k
           else reads arr k && roundtrips x) &&
          children_ok arr l).
  intros H. apply andb_prop in H. destruct H as (H & Hl).
  apply andb_prop in H. destruct H as (Hs & Hx).
  split; [exact Hs |]. destruct (scalar x).
  - apply andb_prop in Hx. destruct Hx as (Hlw & Hx). apply negb_true_iff in Hlw.
    split; [exact Hx |]. split; [left; reflexivity |]. split; [exact Hl | intros _; exact Hlw].
  - apply andb_prop in Hx. destruct Hx as (Hr & Hx).
    split; [apply reads_writes, Hr |]. split; [right; split; assumption |].
    split; [exact Hl | discriminate].
Qed.

Lemma build_child (S : jsvalue) (arr : bool) (k : string) (x : jsvalue) :
  is_container S = true ->
  rebinds k S = false \/ stable k = true ->
  isArray (fst (target k S)) = arr ->
  appends (map fst (props_of S)) k = true ->
  writes arr k = true ->
  scalar x = true \/ (reads arr k = true /\ roundtrips x = true /\ rebuilt x) ->
  exists S1 x' : jsvalue,
    insert_all (if walked x then map (under k) (entries x) else [(k, [], x)]) S
    = Ok S1 /\
    is_container S1 = true /\
    isArray S1 = arr /\
    props_of S1 = props_of S ++ [(k, x')] /\
    flat_equal x x'.
Proof.
  intros Hc Hk Harr Ha Hw Hx.
  pose proof (target_stable k S Hk) as Hs.
  destruct (target_container k S Hc) as (Ho & Hp).
  rewrite <- Hp in Ha. rewrite <- Harr in Hw.
  destruct Hx as [Hx | (Hr & Hx & Hne & x' & Hins & Hc' & Hk' & Hd & Hal)].
  - rewrite (scalar_not_walked x Hx).
    destruct (Put_appends_at _ k x Ho Hw Ha) as (S1 & HP & Hc1 & Ha1 & Hp1).
    exists S1, x.
    split; [| split; [exact Hc1 | split; [congruence | split;
                                          [congruence | apply flat_equal_refl]]]].
    rewrite insert_all_cons. cbn [fst snd].
    rewrite returned_inflateItem by (apply truthy_not_nullish, container_truthy, Hc).
    destruct (target k S) as [o k1]. cbn [fst snd] in *. subst k1.
    rewrite HP. reflexivity.
  - destruct (roundtrips_container x Hx) as (Hcx & Hkx).
    rewrite (container_walked x Hcx Hkx).
    destruct (Put_appends_at _ k x' Ho Hw Ha) as (S1 & HP & Hc1 & Ha1 & Hp1).
    exists S1, x'.
    split; [| split; [exact Hc1 | split; [congruence | split; [congruence |]]]].
    + rewrite (insert_all_under k (entries x) S Hne Hc Hw Hk).
      rewrite <- Harr in Hr.
      rewrite (Get_absent_at _ k Ho Hr (lookup_None_appends _ _ Ha)). cbn [bind].
      change (or_empty VUndef) with (VObj []). rewrite Hins. cbn [bind]. exact HP.
    + split; [| split; [| split; [| split; [exact Hd | exact Hal]]]].
      * destruct x; try discriminate; destruct x'; try discriminate; reflexivity.
      * rewrite (container_walked x Hcx Hkx). apply container_walked; assumption.
      * rewrite (container_walked x Hcx Hkx). discriminate.
Qed.

Lemma build_children (arr : bool) (l : props) :
  Forall (fun kv => roundtrips (snd kv) = true -> rebuilt (snd kv)) l ->
  forall S : jsvalue,
    is_container S = true ->
    match l with
    | [] => True
    | (k1, _) :: _ =>
        (rebinds k1 S = false \/ stable k1 = true) /\
        isArray (fst (target k1 S)) = arr
    end ->
    canonical_from (map fst (props_of S)) (map fst l) = true ->
    children_ok arr l = true ->
    exists (S' : jsvalue) (built : props),
      insert_all (entries_each l) S = Ok S' /\
      is_container S' = true /\
      props_of S' = props_of S ++ built /\
      Forall2 same_child l built.
Proof.
  induction l as [| [k x] l IH]; intros HF S Hc Hfirst Hcan Hok.
  - exists S, []. repeat split; [exact Hc | symmetry; apply app_nil_r | constructor].
  - cbn [map fst canonical_from] in Hcan. apply andb_prop in Hcan.
    destruct Hcan as (Ha & Hcan).
    destruct (children_ok_cons _ _ _ _ Hok) as (_ & Hw & Hx & Hl & _).
    destruct Hfirst as (Hfirst & Harr).
    inversion HF as [| ? ? HFx HFl]; subst. cbn [snd] in HFx.
    assert (Hx' : scalar x = true \/
                  (reads (isArray (fst (target k S))) k = true /\
                   roundtrips x = true /\ rebuilt x)).
    { destruct Hx as [Hx | (Hr & Hx)]; [left; exact Hx | right; auto]. }
    destruct (build_child S _ k x Hc Hfirst eq_refl Ha Hw Hx')
      as (S1 & x' & Hins & Hc1 & Ha1 & Hp1 & Hfe).
    assert (Hk1 : own_keys S1 <> []).
    { rewrite (own_keys_props S1 Hc1), Hp1, map_app. intros E.
      apply app_eq_nil in E. destruct E as (_ & E). discriminate. }
    destruct (IH HFl S1 Hc1) as (S' & built & Hins' & Hc' & Hp' & HF2).
    + destruct l as [| [k2 x2] l]; [exact I |].
      pose proof (rebinds_nonempty k2 S1 Hk1) as Rb. split; [left; exact Rb |].
      unfold target. rewrite Rb. exact Ha1.
    + rewrite Hp1, map_app. exact Hcan.
    + exact Hl.
    + exists S', ((k, x') :: built). split; [| split; [exact Hc' | split]].
      * cbn [entries_each]. rewrite insert_all_app, Hins. cbn [bind]. exact Hins'.
      * rewrite Hp', Hp1, <- app_assoc. reflexivity.
      * constructor; [split; [reflexivity | exact Hfe] | exact HF2].
Qed.

Lemma entries_container (T : jsvalue) :
  is_container T = true -> entries T = entries_each (props_of T).
Proof. destruct T; simpl; intros H; try discriminate; reflexivity. Qed.

Lemma roundtrips_unfold (T : jsvalue) :
  roundtrips T = true ->
  exists (k1 : string) (v1 : jsvalue) (l : props),
    props_of T = (k1, v1) :: l /\ stable k1 = true /\
    canonical (props_of T) = true /\
    children_ok (numeric k1) (props_of T) = true.
Proof.
  destruct T as [| | b | n | s | ps | len ps]; intros H; try discriminate;
    (destruct ps as [| [k1 v1] l]; [discriminate |]);
    cbn [roundtrips] in H;
    apply andb_prop in H; destruct H as (H & H3);
    apply andb_prop in H; destruct H as (H1 & H2);
    exists k1, v1, l; cbn [props_of];
    (split; [reflexivity | split; [exact H1 | split; [exact H2 | exact H3]]]).
Qed.

(** Where the first leaf of an empty object goes: to a new array when the
    key is numeric. *)
Lemma target_empty (k : string) :
  isArray (fst (target k (VObj []))) = numeric k.
Proof.
  unfold target, rebinds, numeric. cbn [own_keys map List.length Nat.eqb].
  rewrite andb_true_r. destruct (isNaN (StringToNumber k)); reflexivity.
Qed.

(** The leaves of a qualifying tree, inserted into an empty object, build
    a tree that is like it. *)
Lemma build_tree (T : jsvalue) : roundtrips T = true -> rebuilt T.
Proof.
  induction T as [v Hv | ps IH | len ps IH] using jsvalue_nested_ind; intros HT.
  - destruct v; discriminate.
  - destruct (roundtrips_unfold _ HT) as (k1 & v1 & l & Hp & Hs & Hcan & Hok).
    cbn [props_of] in *.
    destruct (build_children (numeric k1) ps IH (VObj []) eq_refl)
      as (T' & built & Hins & Hc & Hpr & HF2).
    + rewrite Hp. split; [right; exact Hs | apply target_empty].
    + exact Hcan.
    + exact Hok.
    + cbn [props_of app] in Hpr. split.
      * rewrite (entries_container (VObj ps) eq_refl). cbn [props_of]. rewrite Hp.
        cbn [entries_each]. destruct (walked v1) eqn:W; [| discriminate].
        rewrite Hp in IH, Hok. inversion IH as [| ? ? IH1 _]; subst. cbn [snd] in IH1.
        destruct (children_ok_cons _ _ _ _ Hok) as (_ & _ & Hx & _).
        destruct Hx as [Hx | (_ & Hx)].
        -- rewrite (scalar_not_walked _ Hx) in W. discriminate.
        -- destruct (IH1 Hx) as (Hne & _). intros E. apply app_eq_nil in E.
           destruct E as (E & _). apply map_eq_nil in E. contradiction.
      * exists T'. rewrite (entries_container (VObj ps) eq_refl). cbn [props_of].
        split; [exact Hins |]. split; [exact Hc |]. split; [| split].
        -- rewrite (own_keys_props T' Hc), Hpr. inversion HF2; subst;
             [discriminate | discriminate].
        -- intros p. rewrite (deflate_container T' p Hc), Hpr.
           rewrite (deflate_container (VObj ps) p eq_refl). cbn [props_of].
           apply deflate_each_congr. exact HF2.
        -- rewrite (alike_container (VObj ps) T' eq_refl Hc), Hpr.
           apply alike_children, HF2.
  - destruct (roundtrips_unfold _ HT) as (k1 & v1 & l & Hp & Hs & Hcan & Hok).
    cbn [props_of] in *.
    destruct (build_children (numeric k1) ps IH (VObj []) eq_refl)
      as (T' & built & Hins & Hc & Hpr & HF2).
    + rewrite Hp. split; [right; exact Hs | apply target_empty].
    + exact Hcan.
    + exact Hok.
    + cbn [props_of app] in Hpr. split.
      * rewrite (entries_container (VArr len ps) eq_refl). cbn [props_of]. rewrite Hp.
        cbn [entries_each]. destruct (walked v1) eqn:W; [| discriminate].
        rewrite Hp in IH, Hok. inversion IH as [| ? ? IH1 _]; subst. cbn [snd] in IH1.
        destruct (children_ok_cons _ _ _ _ Hok) as (_ & _ & Hx & _).
        destruct Hx as [Hx | (_ & Hx)].
        -- rewrite (scalar_not_walked _ Hx) in W. discriminate.
        -- destruct (IH1 Hx) as (Hne & _). intros E. apply app_eq_nil in E.
           destruct E as (E & _). apply map_eq_nil in E. contradiction.
      * exists T'. rewrite (entries_container (VArr len ps) eq_refl). cbn [props_of].
        split; [exact Hins |]. split; [exact Hc |]. split; [| split].
        -- rewrite (own_keys_props T' Hc), Hpr. inversion HF2; subst;
             [discriminate | discriminate].
        -- intros p. rewrite (deflate_container T' p Hc), Hpr.
           rewrite (deflate_container (VArr len ps) p eq_refl). cbn [props_of].
           apply deflate_each_congr. exact HF2.
        -- rewrite (alike_container (VArr len ps) T' eq_refl Hc), Hpr.
           apply alike_children, HF2.
Qed.
(* ----------------------------------------------------------------- *)
(** ** From flat keys back to paths *)

Lemma key_ok_parts (k : string) :
  key_ok k = true ->
  dotfree k = true /\ head_ws k = false /\ last_ws k = false /\ inherited k = false.
Proof.
  unfold key_ok, trimmed. intros H.
  apply andb_prop in H. destruct H as (H & Hi).
  apply andb_prop in H. destruct H as (Hd & Ht).
  apply andb_prop in Ht. destruct Ht as (Hh & Hl).
  repeat split; try assumption; apply negb_true_iff; assumption.
Qed.

Lemma tail_ok_under (k : string) (e : entry) :
  dotfree k = true -> tail_ok e = true -> tail_ok (under k e) = true.
Proof.
  intros Hd He.
  destruct e as [[k' rest] v]. unfold tail_ok, under in *. cbn [fst snd] in *.
  apply andb_prop in He. destruct He as (He & Hl).
  apply andb_prop in He. destruct He as (Hd' & Hr).
  rewrite Hd. cbn [forallb]. rewrite Hd', Hr. cbn [andb].
  destruct rest as [| k'' rest]; [exact Hl |].
  change (last (k' :: k'' :: rest) k) with (last (k'' :: rest) k).
  change (last (k'' :: rest) k') with (last (k'' :: rest) k') in Hl.
  rewrite (last_cons_default rest k'' k k'). exact Hl.
Qed.

Lemma entries_each_tail_ok (arr : bool) (l : props) :
  Forall (fun kv => roundtrips (snd kv) = true ->
                    Forall (fun e => tail_ok e = true) (entries (snd kv))) l ->
  children_ok arr l = true ->
  Forall (fun e => tail_ok e = true) (entries_each l).
Proof.
  induction l as [| [k x] l IH]; intros HF Hok; [constructor |].
  destruct (children_ok_cons _ _ _ _ Hok) as (Hd & _ & Hx & Hl & Hlw).
  inversion HF as [| ? ? HFx HFl]; subst. cbn [snd] in HFx.
  cbn [entries_each]. apply Forall_app. split; [| apply IH; assumption].
  destruct Hx as [Hx | (_ & Hx)].
  - rewrite (scalar_not_walked x Hx). constructor; [| constructor].
    unfold tail_ok. cbn [fst snd forallb last]. rewrite Hd, (Hlw Hx). reflexivity.
  - destruct (roundtrips_container x Hx) as (Hcx & Hkx).
    rewrite (container_walked x Hcx Hkx).
    apply Forall_map. specialize (HFx Hx).
    eapply Forall_impl; [| exact HFx]. intros e He. apply tail_ok_under; assumption.
Qed.

Lemma entries_tail_ok (T : jsvalue) :
  roundtrips T = true -> Forall (fun e => tail_ok e = true) (entries T).
Proof.
  induction T as [v Hv | ps IH | len ps IH] using jsvalue_nested_ind; intros HT.
  - destruct v; discriminate.
  - destruct (roundtrips_unfold _ HT) as (k1 & v1 & l & Hp & Hs & Hcan & Hok).
    rewrite (entries_container (VObj ps) eq_refl).
    apply (entries_each_tail_ok (numeric k1)); assumption.
  - destruct (roundtrips_unfold _ HT) as (k1 & v1 & l & Hp & Hs & Hcan & Hok).
    rewrite (entries_container (VArr len ps) eq_refl).
    apply (entries_each_tail_ok (numeric k1)); assumption.
Qed.

Lemma entries_each_head (l : props) (e : entry) :
  In e (entries_each l) -> In (fst (fst e)) (map fst l).
Proof.
  induction l as [| [k x] l IH]; intros Hin; [destruct Hin |].
  cbn [entries_each] in Hin. apply in_app_or in Hin. destruct Hin as [Hin | Hin].
  - left. cbn [fst]. destruct (walked x).
    + apply in_map_iff in Hin. destruct Hin as (e' & <- & _). reflexivity.
    + destruct Hin as [<- | []]. reflexivity.
  - right. apply IH. exact Hin.
Qed.

(** The paths of the leaves of a qualifying tree survive [trim] and
    [split]. *)
Lemma entries_path_ok (T : jsvalue) :
  roundtrips T = true -> root_ok T = true ->
  Forall (fun e => path_ok e = true) (entries T).
Proof.
  intros HT Hr. destruct (roundtrips_container T HT) as (Hc & _).
  pose proof (entries_tail_ok T HT) as Ht.
  unfold root_ok in Hr. apply andb_prop in Hr. destruct Hr as (_ & Hh).
  rewrite forallb_forall in Hh. rewrite Forall_forall in Ht |- *.
  intros e He. specialize (Ht e He).
  rewrite (entries_container T Hc) in He. apply entries_each_head in He.
  apply in_map_iff in He. destruct He as (kv & Hk & Hin).
  specialize (Hh kv Hin). rewrite Hk in Hh.
  unfold tail_ok in Ht. unfold path_ok.
  apply andb_prop in Ht. destruct Ht as (Ht & Hl).
  rewrite Ht, Hh, Hl. reflexivity.
Qed.

(** One iteration of [inflate] on the flat key of a leaf. *)
Lemma inflate_step_dotted (R : jsvalue) (e : entry) :
  path_ok e = true ->
  inflate_step (Ok R) (dotted "" e) =
    (r <- returned (_inflateItem (fst (fst e)) (snd (fst e)) (snd e) R) ;;
     Ok (if rebinds (fst (fst e)) R then R else r)).
Proof.
  destruct e as [[k rest] v]. unfold path_ok. cbn [fst snd]. intros H.
  apply andb_prop in H. destruct H as (H & Hl).
  apply andb_prop in H. destruct H as (H & Hh).
  apply andb_prop in H. destruct H as (Hd & Hr).
  apply negb_true_iff in Hl, Hh.
  unfold inflate_step, dotted. cbn [fst snd bind].
  change ("" +++ join "." (k :: rest)) with (join "." (k :: rest)).
  rewrite (trim_id _ (trimmed_join k rest Hh Hl)), (split_join k rest Hd Hr).
  rewrite (inflateItem_returned k rest v R) at 1.
  destruct (returned (_inflateItem k rest v R)); reflexivity.
Qed.

Lemma inflate_failed (l : props) (m : outcome jsvalue) :
  (forall R, m <> Ok R) -> fold_left inflate_step l m = m.
Proof.
  intros H. induction l as [| kv l IH]; [reflexivity |].
  simpl. destruct m as [R | e' | lim]; [exfalso; apply (H R); reflexivity | |]; exact IH.
Qed.

Lemma returned_container (key : string) (rest : list string) (v R r : jsvalue) :
  is_container R = true ->
  returned (_inflateItem key rest v R) = Ok r ->
  is_container r = true /\ own_keys r <> [].
Proof.
  intros Hc H.
  rewrite returned_inflateItem in H by (apply truthy_not_nullish, container_truthy, Hc).
  destruct (target_container key R Hc) as (Ho & _).
  destruct (target key R) as [o k1]. cbn [fst] in Ho.
  destruct rest as [| k rest'].
  - apply (Put_container _ _ _ _ Ho H).
  - apply bind_Ok in H. destruct H as (child & _ & H).
    apply bind_Ok in H. destruct H as (sub & _ & H).
    apply (Put_container _ _ _ _ Ho H).
Qed.

(** At a root that is not rebound, the loop of [inflate] over the flat
    keys is the insertion of the leaves. *)
Lemma inflate_flat (es : list entry) :
  forall R : jsvalue,
    is_container R = true ->
    match es with
    | [] => True
    | e :: _ => rebinds (fst (fst e)) R = false
    end ->
    Forall (fun e => path_ok e = true) es ->
    fold_left inflate_step (map (dotted "") es) (Ok R) = insert_all es R.
Proof.
  induction es as [| e es IH]; intros R Hc Hrb Hok; [reflexivity |].
  inversion Hok as [| ? ? He Hes]; subst.
  cbn [map fold_left]. rewrite (inflate_step_dotted R e He), Hrb, insert_all_cons.
  destruct (returned (_inflateItem (fst (fst e)) (snd (fst e)) (snd e) R))
    as [R1 | e' | l] eqn:H1; cbn [bind].
  - destruct (returned_container _ _ _ _ _ Hc H1) as (Hc1 & Hk1).
    apply IH; [exact Hc1 | | exact Hes].
    destruct es as [| e2 es]; [exact I |]. apply rebinds_nonempty, Hk1.
  - apply inflate_failed. intros R0. discriminate.
  - apply inflate_failed. intros R0. discriminate.
Qed.
(* ----------------------------------------------------------------- *)
(** ** What [deflate] answers *)

Lemma append_assoc (a b c : string) : (a +++ b) +++ c = a +++ (b +++ c).
Proof. induction a as [| x a IH]; [reflexivity |]. simpl. rewrite IH. reflexivity. Qed.

Lemma prefix_key (p k : string) :
  (if String.eqb p "" then k else p +++ k) = p +++ k.
Proof. destruct p; reflexivity. Qed.

Lemma dotted_under (p k : string) (e : entry) :
  dotted p (under k e) = dotted (p +++ (k +++ ".")) e.
Proof.
  destruct e as [[k' rest] v]. unfold dotted, under. cbn [fst snd]. f_equal.
  change (join "." (k :: k' :: rest)) with (k +++ "." +++ join "." (k' :: rest)).
  rewrite !append_assoc. reflexivity.
Qed.

Lemma map_dotted_under (p k : string) (es : list entry) :
  map (dotted p) (map (under k) es) = map (dotted (p +++ (k +++ "."))) es.
Proof. rewrite map_map. apply map_ext. intros e. apply dotted_under. Qed.

Lemma put_props_fresh (res : props) (k : string) (v : jsvalue) :
  ~ In k (map fst res) -> flat_key_ok (k, v) = true ->
  put_props res k v = Ok (res ++ [(k, v)]).
Proof.
  unfold flat_key_ok. cbn [fst]. intros Hn Hk.
  destruct (array_index k) eqn:Hi; [discriminate |]. apply negb_true_iff in Hk.
  pose proof (appends_fresh _ _ Hi Hn) as Ha.
  unfold put_props. cbn [Put]. rewrite (lookup_None_appends _ _ Ha), Hk.
  cbn [bind]. rewrite (define_appends _ _ v Ha). reflexivity.
Qed.

Lemma spread_fresh (sub : props) :
  forall res : props,
    NoDup (map fst (res ++ sub)) ->
    forallb flat_key_ok sub = true ->
    spread res sub = res ++ sub.
Proof.
  induction sub as [| [k v] sub IH]; intros res Hnd Hok.
  - rewrite app_nil_r. reflexivity.
  - cbn [forallb] in Hok. apply andb_prop in Hok. destruct Hok as (Hk & Hok).
    unfold flat_key_ok in Hk. cbn [fst] in Hk.
    destruct (array_index k) eqn:Hi; [discriminate |].
    assert (Hn : ~ In k (map fst res)).
    { rewrite map_app in Hnd. cbn [map fst] in Hnd.
      apply NoDup_remove_2 in Hnd. intros Hin. apply Hnd. apply in_or_app. left. exact Hin. }
    unfold spread in *. cbn [fold_left fst snd].
    rewrite (define_appends _ _ v (appends_fresh _ _ Hi Hn)).
    rewrite IH; [rewrite <- app_assoc; reflexivity | | exact Hok].
    rewrite <- app_assoc. exact Hnd.
Qed.

Lemma forallb_app' {A : Type} (f : A -> bool) (l1 l2 : list A) :
  forallb f (l1 ++ l2) = true -> forallb f l1 = true /\ forallb f l2 = true.
Proof. rewrite forallb_app. apply andb_prop. Qed.

Lemma deflate_each_flat (arr : bool) (p : string) (l : props) :
  Forall (fun kv => roundtrips (snd kv) = true -> deflates (snd kv)) l ->
  children_ok arr l = true ->
  forall res : props,
    NoDup (map fst (res ++ map (dotted p) (entries_each l))) ->
    forallb flat_key_ok (map (dotted p) (entries_each l)) = true ->
    deflate_each p l res = Ok (res ++ map (dotted p) (entries_each l)).
Proof.
  induction l as [| [k x] l IH]; intros HF Hok res Hnd Hfk.
  - cbn. rewrite app_nil_r. reflexivity.
  - destruct (children_ok_cons _ _ _ _ Hok) as (Hkey & _ & Hx & Hl & _).
    inversion HF as [| ? ? HFx HFl]; subst. cbn [snd] in HFx.
    cbn [entries_each] in Hnd, Hfk |- *.
    set (A := if walked x then map (under k) (entries x) else [(k, [], x)]) in *.
    set (B := entries_each l) in *.
    assert (HndAB : NoDup (map fst ((res ++ map (dotted p) A) ++ map (dotted p) B)))
      by (rewrite <- app_assoc, <- map_app; exact Hnd).
    assert (HndA : NoDup (map fst (res ++ map (dotted p) A)))
      by (rewrite map_app in HndAB; apply NoDup_app_remove_r in HndAB; exact HndAB).
    rewrite map_app in Hfk. apply forallb_app' in Hfk. destruct Hfk as (Hfk1 & Hfk2).
    change (deflate_each p ((k, x) :: l) res)
      with (result' <- deflate_entry (deflate x) p res k x ;; deflate_each p l result').
    assert (Hstep : deflate_entry (deflate x) p res k x = Ok (res ++ map (dotted p) A)).
    { unfold deflate_entry. subst A. destruct Hx as [Hx | (_ & Hx)].
      - rewrite Object_keys_Ok by (destruct x; try discriminate; reflexivity).
        cbn [bind]. fold (walked x). rewrite (scalar_not_walked x Hx) in *.
        rewrite prefix_key. cbn [map] in *. apply put_props_fresh.
        + rewrite map_app in HndA. cbn [map fst] in HndA.
          apply NoDup_remove_2 in HndA. rewrite app_nil_r in HndA. exact HndA.
        + cbn [forallb] in Hfk1. rewrite andb_true_r in Hfk1. exact Hfk1.
      - destruct (roundtrips_container x Hx) as (Hcx & Hkx).
        rewrite Object_keys_Ok by (apply truthy_not_nullish, container_truthy, Hcx).
        cbn [bind]. fold (walked x). rewrite (container_walked x Hcx Hkx) in *.
        rewrite prefix_key. rewrite map_dotted_under in *.
        rewrite (HFx Hx (p +++ (k +++ "."))).
        + cbn [bind]. rewrite (spread_fresh _ res HndA Hfk1). reflexivity.
        + rewrite map_app in HndA. apply NoDup_app_remove_l in HndA. exact HndA.
        + exact Hfk1. }
    rewrite Hstep. cbn [bind]. rewrite map_app, app_assoc.
    apply IH; assumption.
Qed.

Lemma deflate_flat (T : jsvalue) : roundtrips T = true -> deflates T.
Proof.
  induction T as [v Hv | ps IH | len ps IH] using jsvalue_nested_ind; intros HT.
  - destruct v; discriminate.
  - destruct (roundtrips_unfold _ HT) as (k1 & v1 & l & Hp & Hs & Hcan & Hok).
    intros p Hnd Hfk. rewrite (entries_container (VObj ps) eq_refl) in *.
    rewrite (deflate_container (VObj ps) p eq_refl). cbn [props_of] in *.
    apply (deflate_each_flat _ p ps IH Hok []); assumption.
  - destruct (roundtrips_unfold _ HT) as (k1 & v1 & l & Hp & Hs & Hcan & Hok).
    intros p Hnd Hfk. rewrite (entries_container (VArr len ps) eq_refl) in *.
    rewrite (deflate_container (VArr len ps) p eq_refl). cbn [props_of] in *.
    apply (deflate_each_flat _ p ps IH Hok []); assumption.
Qed.
(* ----------------------------------------------------------------- *)
(** ** Array indices are numeric *)

Ltac ascii_cases c H :=
  destruct c as [[] [] [] [] [] [] [] []]; vm_compute in H; try discriminate H.

Lemma string_of_uint_digits (d : Decimal.uint) :
  all_digits (NilEmpty.string_of_uint d) = true.
Proof. induction d; simpl; auto. Qed.

Lemma N_to_string_digits (n : N) : all_digits (N_to_string n) = true.
Proof.
  unfold N_to_string, NilZero.string_of_uint.
  destruct (N.to_uint n); try reflexivity; apply string_of_uint_digits.
Qed.

Lemma span_all_digits (s : string) :
  all_digits s = true -> span_digits s = (s, EmptyString).
Proof.
  induction s as [| c s IH]; [reflexivity |]. simpl. intros H.
  apply andb_prop in H. destruct H as (Hc & Hs). rewrite Hc, (IH Hs). reflexivity.
Qed.

Lemma digit_not_ws (c : ascii) : is_digit c = true -> is_ws c = false.
Proof. intros H. ascii_cases c H; reflexivity. Qed.

Lemma digits_last_ws (s : string) : all_digits s = true -> last_ws s = false.
Proof.
  induction s as [| c s IH]; [reflexivity |]. simpl. intros H.
  apply andb_prop in H. destruct H as (Hc & Hs).
  destruct s; [apply digit_not_ws, Hc | apply IH, Hs].
Qed.

Lemma digits_trimmed (s : string) : all_digits s = true -> trimmed s = true.
Proof.
  intros H. unfold trimmed. rewrite (digits_last_ws s H), andb_true_r.
  destruct s as [| c s]; [reflexivity |]. simpl in *.
  apply andb_prop in H. destruct H as (Hc & _). rewrite (digit_not_ws c Hc). reflexivity.
Qed.

Lemma digits_not_radix (c : ascii) (s : string) :
  all_digits (String c s) = true -> non_decimal (String c s) = None.
Proof.
  simpl. intros H. apply andb_prop in H. destruct H as (Hc & Hs).
  ascii_cases c Hc; try reflexivity.
  destruct s as [| p [| c2 r]]; try reflexivity.
  simpl in Hs. apply andb_prop in Hs. destruct Hs as (Hp & _).
  ascii_cases p Hp; reflexivity.
Qed.

Lemma digits_unsigned (c : ascii) (s : string) :
  all_digits (String c s) = true ->
  isNaN (unsigned_decimal false (String c s)) = false.
Proof.
  intros H. unfold unsigned_decimal. rewrite (span_all_digits _ H). reflexivity.
Qed.

Lemma digits_numeric (s : string) :
  s <> "" -> all_digits s = true -> isNaN (StringToNumber s) = false.
Proof.
  intros Hne H. unfold StringToNumber. rewrite (trim_id s (digits_trimmed s H)).
  destruct s as [| c s]; [contradiction |].
  rewrite (digits_not_radix c s H).
  pose proof (digits_unsigned c s H) as Hu.
  simpl in H. apply andb_prop in H. destruct H as (Hc & Hs).
  ascii_cases c Hc; exact Hu.
Qed.

Lemma index_numeric (k : string) (n : N) :
  array_index k = Some n -> isNaN (StringToNumber k) = false.
Proof.
  intros H. apply array_index_Some in H. destruct H as (-> & _).
  apply digits_numeric; [| apply N_to_string_digits].
  pose proof (N_to_string_head n) as Hh. intros E. rewrite E in Hh. discriminate.
Qed.
(* ----------------------------------------------------------------- *)
(** ** The keys of a container in own-property order *)

Lemma canonical_from_NoDup (ks : list string) :
  forall seen : list string,
    canonical_from seen ks = true ->
    NoDup ks /\ forall k, In k ks -> ~ In k seen.
Proof.
  induction ks as [| k ks IH]; intros seen H.
  - split; [constructor | intros k []].
  - cbn [canonical_from] in H. apply andb_prop in H. destruct H as (Ha & H).
    destruct (IH _ H) as (Hnd & Hdis). split.
    + constructor; [| exact Hnd]. intros Hin. apply (Hdis k Hin).
      apply in_or_app. right. left. reflexivity.
    + intros k' [<- | Hin]; [apply appends_not_In, Ha |].
      intros Hs. apply (Hdis k' Hin). apply in_or_app. left. exact Hs.
Qed.

(** After a key that is not an array index no array index follows. *)
Lemma canonical_from_nonindex (ks : list string) :
  forall seen : list string,
    canonical_from seen ks = true ->
    (exists k0, In k0 seen /\ array_index k0 = None) ->
    forall k, In k ks -> array_index k = None.
Proof.
  induction ks as [| k ks IH]; intros seen H (k0 & Hin0 & Hk0) k' Hin; [destruct Hin |].
  cbn [canonical_from] in H. apply andb_prop in H. destruct H as (Ha & H).
  destruct Hin as [<- | Hin].
  - unfold appends in Ha. rewrite forallb_forall in Ha. specialize (Ha k0 Hin0).
    apply andb_prop in Ha. destruct Ha as (_ & Ha).
    destruct (array_index k); [| reflexivity]. rewrite Hk0 in Ha. discriminate.
  - apply (IH _ H); [| exact Hin]. exists k0. split; [| exact Hk0].
    apply in_or_app. left. exact Hin0.
Qed.

Lemma children_ok_key (arr : bool) (l : props) (k : string) :
  children_ok arr l = true -> In k (map fst l) ->
  dotfree k = true /\ writes arr k = true.
Proof.
  induction l as [| [k' x] l IH]; intros Hok Hin; [destruct Hin |].
  destruct (children_ok_cons _ _ _ _ Hok) as (Hkey & Hw & _ & Hl & _).
  destruct Hin as [<- | Hin]; [split; assumption | apply IH; assumption].
Qed.

(* ----------------------------------------------------------------- *)
(** ** The flat keys of a tree are distinct *)

Lemma entries_each_first (l : props) (e : entry) :
  In e (entries_each l) -> In (fst (fst e)) (map fst l).
Proof.
  induction l as [| [k x] l IH]; intros Hin; [destruct Hin |].
  cbn [entries_each] in Hin. apply in_app_or in Hin. destruct Hin as [Hin | Hin].
  - left. cbn [fst]. destruct (walked x).
    + apply in_map_iff in Hin. destruct Hin as (e' & <- & _). reflexivity.
    + destruct Hin as [<- | []]. reflexivity.
  - right. apply IH. exact Hin.
Qed.

Lemma under_paths_NoDup (k : string) (es : list entry) :
  NoDup (map fst es) -> NoDup (map fst (map (under k) es)).
Proof.
  intros H. rewrite map_map.
  replace (map (fun e => fst (under k e)) es)
    with (map (fun pth : string * list string => (k, fst pth :: snd pth)) (map fst es))
    by (rewrite map_map; reflexivity).
  apply Injective_map_NoDup; [| exact H].
  intros [a b] [a' b'] E. cbn [fst snd] in E. congruence.
Qed.

Lemma entries_each_NoDup (arr : bool) (l : props) :
  Forall (fun kv => roundtrips (snd kv) = true -> NoDup (map fst (entries (snd kv)))) l ->
  children_ok arr l = true ->
  NoDup (map fst l) ->
  NoDup (map fst (entries_each l)).
Proof.
  induction l as [| [k x] l IH]; intros HF Hok Hnd; [constructor |].
  destruct (children_ok_cons _ _ _ _ Hok) as (_ & _ & Hx & Hl & _).
  inversion HF as [| ? ? HFx HFl]; subst. cbn [snd] in HFx.
  cbn [map fst] in Hnd. apply NoDup_cons_iff in Hnd. destruct Hnd as (Hk & Hnd).
  cbn [entries_each]. rewrite map_app. apply NoDup_app.
  - destruct Hx as [Hx | (_ & Hx)].
    + rewrite (scalar_not_walked x Hx). constructor; [intros [] | constructor].
    + destruct (roundtrips_container x Hx) as (Hcx & Hkx).
      rewrite (container_walked x Hcx Hkx). apply under_paths_NoDup, HFx, Hx.
  - apply IH; assumption.
  - intros pth H1 H2.
    apply in_map_iff in H2. destruct H2 as (e2 & <- & H2).
    apply entries_each_first in H2.
    assert (E : fst (fst e2) = k).
    { apply in_map_iff in H1. destruct H1 as (e1 & E1 & H1). rewrite <- E1.
      destruct (walked x).
      - apply in_map_iff in H1. destruct H1 as (e' & <- & _). reflexivity.
      - destruct H1 as [<- | []]. reflexivity. }
    rewrite E in H2. contradiction.
Qed.

Lemma entries_NoDup (T : jsvalue) :
  roundtrips T = true -> NoDup (map fst (entries T)).
Proof.
  induction T as [v Hv | ps IH | len ps IH] using jsvalue_nested_ind; intros HT.
  - destruct v; discriminate.
  - destruct (roundtrips_unfold _ HT) as (k1 & v1 & l & Hp & Hs & Hcan & Hok).
    rewrite (entries_container (VObj ps) eq_refl).
    apply (entries_each_NoDup (numeric k1)); [exact IH | exact Hok |].
    apply (canonical_from_NoDup _ _ Hcan).
  - destruct (roundtrips_unfold _ HT) as (k1 & v1 & l & Hp & Hs & Hcan & Hok).
    rewrite (entries_container (VArr len ps) eq_refl).
    apply (entries_each_NoDup (numeric k1)); [exact IH | exact Hok |].
    apply (canonical_from_NoDup _ _ Hcan).
Qed.

Lemma path_ok_split (e : entry) :
  path_ok e = true -> split "." (fst (dotted "" e)) = fst e.
Proof.
  destruct e as [[k rest] v]. unfold path_ok, dotted. cbn [fst snd]. intros H.
  apply andb_prop in H. destruct H as (H & _).
  apply andb_prop in H. destruct H as (H & _).
  apply andb_prop in H. destruct H as (Hd & Hr).
  apply split_join; assumption.
Qed.

Lemma flat_keys_NoDup (es : list entry) :
  NoDup (map fst es) -> Forall (fun e => path_ok e = true) es ->
  NoDup (map fst (map (dotted "") es)).
Proof.
  induction es as [| e es IH]; intros Hnd Hok; [constructor |].
  inversion Hok as [| ? ? He Hes]; subst.
  cbn [map] in Hnd |- *. apply NoDup_cons_iff in Hnd. destruct Hnd as (Hn & Hnd).
  constructor; [| apply IH; assumption].
  intros Hin. apply Hn. rewrite map_map in Hin.
  apply in_map_iff in Hin. destruct Hin as (e' & E & Hin').
  apply in_map_iff. exists e'. split; [| exact Hin'].
  rewrite Forall_forall in Hes.
  rewrite <- (path_ok_split e' (Hes e' Hin')), <- (path_ok_split e He), E. reflexivity.
Qed.

(* ----------------------------------------------------------------- *)
(** ** The flat keys of a tree are appended by plain assignments *)

Lemma flat_key_dot (k k' : string) (rest : list string) (v : jsvalue) :
  flat_key_ok (dotted "" (k, k' :: rest, v)) = true.
Proof.
  unfold flat_key_ok, dotted. cbn [fst snd].
  change ("" +++ join "." (k :: k' :: rest)) with (k +++ String "." (join "." (k' :: rest))).
  assert (Hd : dotfree (k +++ String "." (join "." (k' :: rest))) = false).
  { rewrite dotfree_app. cbn [dotfree]. apply andb_false_r. }
  rewrite (array_index_dot _ Hd). apply negb_true_iff.
  destruct (String.eqb _ "__proto__") eqn:E; [| reflexivity].
  apply String.eqb_eq in E. rewrite E in Hd. discriminate.
Qed.

Lemma flat_keys_ok (arr : bool) (l : props) :
  children_ok arr l = true ->
  (forall k, In k (map fst l) -> array_index k = None) ->
  forallb flat_key_ok (map (dotted "") (entries_each l)) = true.
Proof.
  intros Hok Hni. apply forallb_forall. intros kv Hin.
  apply in_map_iff in Hin. destruct Hin as (e & <- & Hin).
  pose proof (entries_each_first l e Hin) as Hk.
  destruct e as [[k [| k' rest]] v]; [| apply flat_key_dot].
  cbn [fst] in Hk. unfold flat_key_ok, dotted. cbn [fst snd join].
  change ("" +++ k) with k. rewrite (Hni k Hk).
  destruct (children_ok_key arr l k Hok Hk) as (_ & Hw).
  apply negb_true_iff. apply (writes_parts arr k Hw).
Qed.

(** A root whose first key is not numeric has no array index among its
    keys. *)
Lemma root_nonindex (T : jsvalue) :
  root_first T = true -> canonical (props_of T) = true ->
  forall k, In k (map fst (props_of T)) -> array_index k = None.
Proof.
  unfold root_first, canonical. destruct (props_of T) as [| [k1 v1] l]; [discriminate |].
  intros Hr Hcan k Hin.
  assert (H1 : array_index k1 = None).
  { destruct (array_index k1) eqn:E; [| reflexivity].
    apply index_numeric in E. congruence. }
  destruct Hin as [<- | Hin]; [exact H1 |].
  cbn [map fst canonical_from] in Hcan. apply andb_prop in Hcan.
  destruct Hcan as (_ & Hcan).
  apply (canonical_from_nonindex _ _ Hcan); [| exact Hin].
  exists k1. split; [left; reflexivity | exact H1].
Qed.

(* ----------------------------------------------------------------- *)
(** ** The round trip *)

Lemma entries_head (T : jsvalue) :
  roundtrips T = true ->
  exists (e : entry) (es : list entry) (v1 : jsvalue) (l : props),
    entries T = e :: es /\ props_of T = (fst (fst e), v1) :: l.
Proof.
  intros HT. destruct (roundtrips_unfold _ HT) as (k1 & v1 & l & Hp & _ & _ & Hok).
  destruct (roundtrips_container T HT) as (Hc & _).
  pose proof (build_tree T HT) as (Hne & _).
  rewrite (entries_container T Hc) in *. rewrite Hp in *.
  cbn [entries_each] in *.
  destruct (walked v1) eqn:W.
  - destruct (entries v1) as [| e1 es1] eqn:E1.
    + exfalso. destruct (children_ok_cons _ _ _ _ Hok) as (_ & _ & Hx & _).
      destruct Hx as [Hx | (_ & Hx)].
      * rewrite (scalar_not_walked v1 Hx) in W. discriminate.
      * pose proof (build_tree v1 Hx) as (Hne1 & _). contradiction.
    + exists (under k1 e1), (map (under k1) es1 ++ entries_each l), v1, l.
      split; reflexivity.
  - exists (k1, [], v1), (entries_each l), v1, l. split; reflexivity.
Qed.

(** Structures that are alike have the same leaves at the same paths. *)
Lemma alike_is_container (x x' : jsvalue) :
  is_container x = true -> alike x x' = true -> is_container x' = true.
Proof.
  destruct x; try discriminate; destruct x'; try discriminate; reflexivity.
Qed.

Lemma alike_nonempty (x x' : jsvalue) :
  roundtrips x = true -> alike x x' = true -> walked x' = true.
Proof.
  intros Hx Ha. destruct (roundtrips_unfold _ Hx) as (k1 & v1 & l & Hp & _).
  destruct (roundtrips_container x Hx) as (Hc & _).
  pose proof (alike_is_container x x' Hc Ha) as Hc'.
  rewrite (alike_container x x' Hc Hc'), Hp in Ha.
  apply container_walked; [exact Hc' |]. rewrite (own_keys_props x' Hc').
  destruct (props_of x') as [| [k' v'] l']; [discriminate Ha | discriminate].
Qed.

Lemma alike_entries_each (arr : bool) (l : props) :
  Forall (fun kv => roundtrips (snd kv) = true ->
                    forall x', alike (snd kv) x' = true ->
                               entries x' = entries (snd kv)) l ->
  children_ok arr l = true ->
  forall l' : props, alike_each l l' = true -> entries_each l' = entries_each l.
Proof.
  induction l as [| [k x] l IH]; intros HF Hok l' Ha.
  - destruct l'; [reflexivity | discriminate].
  - destruct l' as [| [k' x'] l']; [discriminate |].
    cbn [alike_each] in Ha. apply andb_prop in Ha. destruct Ha as (Ha & Hal).
    apply andb_prop in Ha. destruct Ha as (Hk & Hax).
    apply String.eqb_eq in Hk. subst k'.
    inversion HF as [| ? ? HFx HFl]; subst. cbn [snd] in HFx.
    destruct (children_ok_cons _ _ _ _ Hok) as (_ & _ & Hx & Hl & _).
    cbn [entries_each]. rewrite (IH HFl Hl l' Hal). f_equal.
    destruct Hx as [Hx | (_ & Hx)].
    + rewrite (alike_scalar x x' Hx Hax). reflexivity.
    + destruct (roundtrips_container x Hx) as (Hcx & Hkx).
      rewrite (alike_nonempty x x' Hx Hax), (container_walked x Hcx Hkx).
      rewrite (HFx Hx x' Hax). reflexivity.
Qed.

Lemma alike_entries (T : jsvalue) :
  roundtrips T = true ->
  forall T' : jsvalue, alike T T' = true -> entries T' = entries T.
Proof.
  induction T as [v Hv | ps IH | len ps IH] using jsvalue_nested_ind; intros HT T' Ha.
  - destruct v; discriminate.
  - destruct (roundtrips_unfold _ HT) as (k1 & v1 & l & Hp & Hs & Hcan & Hok).
    pose proof (alike_is_container (VObj ps) T' eq_refl Ha) as Hc'.
    rewrite (alike_container (VObj ps) T' eq_refl Hc') in Ha.
    rewrite (entries_container T' Hc'), (entries_container (VObj ps) eq_refl).
    exact (alike_entries_each _ _ IH Hok _ Ha).
  - destruct (roundtrips_unfold _ HT) as (k1 & v1 & l & Hp & Hs & Hcan & Hok).
    pose proof (alike_is_container (VArr len ps) T' eq_refl Ha) as Hc'.
    rewrite (alike_container (VArr len ps) T' eq_refl Hc') in Ha.
    rewrite (entries_container T' Hc'), (entries_container (VArr len ps) eq_refl).
    exact (alike_entries_each _ _ IH Hok _ Ha).
Qed.

Lemma roundtrip (T : jsvalue) :
  roundtrips T = true -> root_ok T = true ->
  exists (flat : props) (T' : jsvalue),
    deflate T "" = Ok flat /\ inflate flat = Ok T' /\
    flat = map (dotted "") (entries T) /\
    alike T T' = true /\ entries T' = entries T /\
    deflate T' "" = Ok flat.
Proof.
  intros HT Hr.
  destruct (roundtrips_unfold _ HT) as (k1 & v1 & l & Hp & _ & Hcan & Hok).
  destruct (roundtrips_container T HT) as (Hc & _).
  pose proof (entries_path_ok T HT Hr) as Hpaths.
  apply andb_prop in Hr. destruct Hr as (Hr & _).
  assert (Hflat : deflate T "" = Ok (map (dotted "") (entries T))).
  { apply (deflate_flat T HT).
    - apply flat_keys_NoDup; [apply entries_NoDup, HT | exact Hpaths].
    - rewrite (entries_container T Hc). apply (flat_keys_ok (numeric k1)); [exact Hok |].
      apply root_nonindex; assumption. }
  destruct (build_tree T HT) as (_ & T' & Hins & Hc' & _ & Hd & Hal).
  exists (map (dotted "") (entries T)), T'.
  split; [exact Hflat |].
  split; [| split; [reflexivity | split; [exact Hal | split;
                     [exact (alike_entries T HT T' Hal) | rewrite Hd; exact Hflat]]]].
  unfold inflate. rewrite (inflate_flat (entries T) (VObj []) eq_refl); [exact Hins | | exact Hpaths].
  destruct (entries_head T HT) as (e & es & v1' & l' & He & Hp').
  rewrite He. unfold root_first in Hr. rewrite Hp' in Hr.
  unfold rebinds. rewrite Hr. reflexivity.
Qed.

(** C4, as stated, fails.  With a key of the root that begins with white
    space, or a key of a leaf that ends with white space, the leaf comes
    back under another path, because [inflate] trims the flat key.  With a
    dot in a key the leaf comes back one level deeper, because [inflate]
    splits the flat key on dots.  With ["01"] as the first key of a nested
    container the leaf comes back at index [1] of an array, because
    [_inflateItem] writes [Number("01")].  With [null] as a leaf [deflate]
    throws, because it takes [Object.keys] of every value.  With an array
    at the root (its first key is numeric) every leaf is lost, because
    [inflate] drops the array that [_inflateItem] returns. *)
Lemma roundtrip_counterexample :
  (deflate (VObj [(" a", VNum (Dec 1 0))]) "" = Ok [(" a", VNum (Dec 1 0))] /\
   inflate [(" a", VNum (Dec 1 0))] = Ok (VObj [("a", VNum (Dec 1 0))]) /\
   entries (VObj [("a", VNum (Dec 1 0))]) <> entries (VObj [(" a", VNum (Dec 1 0))]) /\
   deflate (VObj [("a", VNum (Dec 1 0))]) "" = Ok [("a", VNum (Dec 1 0))]) /\
  (deflate (VObj [("a", VObj [("b ", VNum (Dec 1 0))])]) ""
   = Ok [("a.b ", VNum (Dec 1 0))] /\
   inflate [("a.b ", VNum (Dec 1 0))]
   = Ok (VObj [("a", VObj [("b", VNum (Dec 1 0))])]) /\
   deflate (VObj [("a", VObj [("b", VNum (Dec 1 0))])]) ""
   = Ok [("a.b", VNum (Dec 1 0))]) /\
  (deflate (VObj [("a.b", VNum (Dec 1 0))]) "" = Ok [("a.b", VNum (Dec 1 0))] /\
   inflate [("a.b", VNum (Dec 1 0))]
   = Ok (VObj [("a", VObj [("b", VNum (Dec 1 0))])]) /\
   entries (VObj [("a", VObj [("b", VNum (Dec 1 0))])])
   <> entries (VObj [("a.b", VNum (Dec 1 0))])) /\
  (deflate (VObj [("a", VObj [("01", VStr "x")])]) "" = Ok [("a.01", VStr "x")] /\
   inflate [("a.01", VStr "x")] = Ok (VObj [("a", VArr 2 [("1", VStr "x")])]) /\
   deflate (VObj [("a", VArr 2 [("1", VStr "x")])]) "" = Ok [("a.1", VStr "x")]) /\
  deflate (VObj [("a", VNull)]) "" = Throw TypeError /\
  (deflate (array_of [VStr "a"]) "" = Ok [("0", VStr "a")] /\
   inflate [("0", VStr "a")] = Ok (VObj []) /\
   deflate (VObj []) "" = Ok []).
Proof. repeat split; try reflexivity; discriminate. Qed.

(** C4 (amended).  Let [T] be a nested structure, in own-property order,
    whose leaves are strings, numbers or booleans and whose containers are
    non-empty.  No key contains a dot; no key of the root begins with white
    space, and no key that holds a leaf ends with white space.  The first
    key of the root does not parse as a number; the first key of every
    nested container either does not parse as a number or is the decimal
    form of its number, of at most 15 significant digits (as the indices
    of an array are).  No key is [__proto__]; in a container whose first
    key parses as a number no key is [length]; and no key that holds a
    container is the name of a member of [Object.prototype] (nor of
    [Array.prototype], in a container whose first key parses as a number).
    Then [deflate(T)] returns the flat mapping from the dotted path of each
    leaf to its value, and [inflate] of it returns a structure [T'] that
    has the keys of [T], in the same order, at every level and the leaves
    of [T]: identical leaf values at identical paths.  Whether a container
    comes back as an object or as an array is not promised.  Deflating
    [T'] gives the same flat mapping again. *)
Theorem deflate_inflate_roundtrip (T : jsvalue) :
  roundtrips T = true -> root_ok T = true ->
  exists (flat : props) (T' : jsvalue),
    deflate T "" = Ok flat /\ inflate flat = Ok T' /\
    flat = map (dotted "") (entries T) /\
    alike T T' = true /\ entries T' = entries T /\
    deflate T' "" = Ok flat.
Proof. apply roundtrip. Qed.

Lemma deflate_inflate_roundtrip_witness :
  exists (flat : props) (T' : jsvalue),
    deflate
      (VObj [("a", VObj [("b", VNum (Dec 1 0));
                         ("c", array_of [VNum (Dec 2 0); VNum (Dec 3 0)])]);
             ("keys", VStr "s")]) "" = Ok flat /\
    inflate flat = Ok T' /\
    flat = map (dotted "")
             (entries
                (VObj [("a", VObj [("b", VNum (Dec 1 0));
                                   ("c", array_of [VNum (Dec 2 0); VNum (Dec 3 0)])]);
                       ("keys", VStr "s")])) /\
    alike
      (VObj [("a", VObj [("b", VNum (Dec 1 0));
                         ("c", array_of [VNum (Dec 2 0); VNum (Dec 3 0)])]);
             ("keys", VStr "s")]) T' = true /\
    entries T'
    = entries
        (VObj [("a", VObj [("b", VNum (Dec 1 0));
                           ("c", array_of [VNum (Dec 2 0); VNum (Dec 3 0)])]);
               ("keys", VStr "s")]) /\
    deflate T' "" = Ok flat.
Proof.
  apply (deflate_inflate_roundtrip
           (VObj [("a", VObj [("b", VNum (Dec 1 0));
                              ("c", array_of [VNum (Dec 2 0); VNum (Dec 3 0)])]);
                  ("keys", VStr "s")])); reflexivity.
Defined.

(* ================================================================= *)
(** * The store: what [merge] writes *)

(* ----------------------------------------------------------------- *)
(** ** Frames *)

Lemma frame_refl (n : nat) (h : Store.heap) : frame n h h.
Proof. split; [apply Nat.le_refl | reflexivity]. Qed.

Lemma frame_trans (n : nat) (h1 h2 h3 : Store.heap) :
  frame n h1 h2 -> frame n h2 h3 -> frame n h1 h3.
Proof. intros (L1 & E1) (L2 & E2). split; [lia | congruence]. Qed.

Lemma frame_le (n m : nat) (h h' : Store.heap) :
  n <= m -> frame m h h' -> frame n h h'.
Proof.
  intros Hnm (L & E). split; [exact L |].
  rewrite <- (Nat.min_l n m Hnm), <- !firstn_firstn, E. reflexivity.
Qed.

Lemma frame_nth (n : nat) (h h' : Store.heap) (l : nat) :
  frame n h h' -> l < n -> nth_error h' l = nth_error h l.
Proof.
  intros (_ & E) Hl.
  assert (G : forall k : Store.heap, nth_error k l = nth_error (firstn n k) l).
  { intros k. rewrite nth_error_firstn.
    destruct (Nat.ltb_spec l n); [reflexivity | lia]. }
  rewrite (G h'), (G h), E. reflexivity.
Qed.

Lemma frame_alloc (n : nat) (h : Store.heap) (o : Store.object) :
  n <= List.length h -> frame n h (h ++ [o]).
Proof.
  intros Hn. split; [rewrite length_app; lia |].
  rewrite firstn_app. replace (n - List.length h) with 0 by lia.
  rewrite firstn_O, app_nil_r. reflexivity.
Qed.

Lemma update_length (h : Store.heap) (l : nat) (o : Store.object) :
  List.length (Store.update h l o) = List.length h.
Proof.
  revert l. induction h as [| x h IH]; intros l; [reflexivity |].
  destruct l; simpl; [reflexivity | rewrite IH; reflexivity].
Qed.

Lemma update_firstn (h : Store.heap) (l n : nat) (o : Store.object) :
  n <= l -> firstn n (Store.update h l o) = firstn n h.
Proof.
  revert l n. induction h as [| x h IH]; intros l n Hn; [reflexivity |].
  destruct l; simpl.
  - replace n with 0 by lia. reflexivity.
  - destruct n; [reflexivity |]. simpl. rewrite IH by lia. reflexivity.
Qed.

Lemma frame_update (n : nat) (h : Store.heap) (l : nat) (o : Store.object) :
  n <= l -> frame n h (Store.update h l o).
Proof.
  intros Hn. split; [rewrite update_length; apply Nat.le_refl |].
  apply update_firstn. exact Hn.
Qed.

Lemma update_nth_same (h : Store.heap) (l : nat) (o : Store.object) :
  l < List.length h -> nth_error (Store.update h l o) l = Some o.
Proof.
  revert l. induction h as [| x h IH]; intros l Hl; [simpl in Hl; lia |].
  destruct l; simpl; [reflexivity |]. apply IH. simpl in Hl. lia.
Qed.

Lemma update_nth_other (h : Store.heap) (l l' : nat) (o : Store.object) :
  l' <> l -> nth_error (Store.update h l o) l' = nth_error h l'.
Proof.
  revert l l'. induction h as [| x h IH]; intros l l' Hne; [reflexivity |].
  destruct l, l'; simpl; try reflexivity; try contradiction.
  apply IH. congruence.
Qed.

(** A store that agrees with [h] on all of [h] is an extension of [h]. *)
Lemma frame_extension (h h' : Store.heap) :
  frame (List.length h) h h' -> exists ext, h' = h ++ ext.
Proof.
  intros (_ & E). exists (skipn (List.length h) h').
  rewrite <- (firstn_skipn (List.length h) h') at 1.
  rewrite E, firstn_all. reflexivity.
Qed.

(* ----------------------------------------------------------------- *)
(** ** Rules for [spec] *)

Section Rules.

Variable n : nat.
Variable I : Store.heap -> Prop.

Lemma spec_ret {A : Type} (Q : A -> Prop) (a : A) :
  Q a -> spec n I Q (Store.ret a).
Proof.
  intros Ha h Hn Hi. cbn. split; [apply frame_refl |]. split; [exact Hi |].
  intros a' [= <-]. exact Ha.
Qed.

Lemma spec_lift {A : Type} (Q : A -> Prop) (o : outcome A) :
  (forall a, o = Ok a -> Q a) -> spec n I Q (Store.lift o).
Proof.
  intros Ha h Hn Hi. cbn. split; [apply frame_refl |]. split; [exact Hi | exact Ha].
Qed.

Lemma spec_raise {A : Type} (Q : A -> Prop) (e : error) :
  spec n I Q (Store.raise e).
Proof. apply (spec_lift Q (Throw e)). intros a; discriminate. Qed.

Lemma spec_beyond {A : Type} (Q : A -> Prop) (l : limit) :
  spec n I Q (Store.beyond l).
Proof. apply (spec_lift Q (Beyond l)). intros a; discriminate. Qed.

Lemma spec_bind {A B : Type} (P : A -> Prop) (Q : B -> Prop)
    (m : Store.M A) (k : A -> Store.M B) :
  spec n I P m -> (forall a, P a -> spec n I Q (k a)) ->
  spec n I Q (Store.mbind m k).
Proof.
  intros Hm Hk h Hn Hi. specialize (Hm h Hn Hi). unfold Store.mbind.
  destruct (m h) as [[a | e | l] h1]; cbn [fst snd] in *;
    destruct Hm as (Hf & Hi1 & Hp).
  - destruct (Hk a (Hp a eq_refl) h1) as (Hf2 & Hi2 & Hq);
      [destruct Hf; lia | exact Hi1 |].
    split; [exact (frame_trans _ _ _ _ Hf Hf2) |]. split; assumption.
  - split; [exact Hf |]. split; [exact Hi1 |]. intros b; discriminate.
  - split; [exact Hf |]. split; [exact Hi1 |]. intros b; discriminate.
Qed.

Lemma spec_weaken {A : Type} (P Q : A -> Prop) (m : Store.M A) :
  spec n I P m -> (forall a, P a -> Q a) -> spec n I Q m.
Proof.
  intros Hm Hpq h Hn Hi. destruct (Hm h Hn Hi) as (Hf & Hi1 & Hp).
  split; [exact Hf |]. split; [exact Hi1 |]. intros a Ha. apply Hpq, Hp, Ha.
Qed.

Lemma spec_for_each {A S : Type} (P : S -> Prop) (l : list A) (init : S)
    (body : S -> A -> Store.M S) :
  P init -> (forall s a, P s -> spec n I P (body s a)) ->
  spec n I P (Store.for_each l init body).
Proof.
  intros Hinit Hbody. unfold Store.for_each.
  assert (G : forall (acc : Store.M S),
             spec n I P acc ->
             spec n I P (fold_left (fun acc a => Store.mbind acc (fun s => body s a)) l acc)).
  { induction l as [| a l IH]; intros acc Hacc; [exact Hacc |].
    cbn [fold_left]. apply IH. apply (spec_bind P); [exact Hacc |].
    intros s Hs. apply Hbody, Hs. }
  apply G. apply spec_ret. exact Hinit.
Qed.

(** A computation that does not change the store. *)
Lemma spec_pure {A : Type} (Q : A -> Prop) (m : Store.M A) :
  (forall h, snd (m h) = h) ->
  (forall h a, I h -> fst (m h) = Ok a -> Q a) ->
  spec n I Q m.
Proof.
  intros Hs Hq h Hn Hi. rewrite Hs. split; [apply frame_refl |].
  split; [exact Hi |]. intros a Ha. apply (Hq h a Hi Ha).
Qed.

End Rules.

(* ----------------------------------------------------------------- *)
(** ** Reads *)

Lemma mbind_pure {A B : Type} (m : Store.M A) (k : A -> Store.M B) :
  (forall h, snd (m h) = h) -> (forall a h, snd (k a h) = h) ->
  forall h, snd (Store.mbind m k h) = h.
Proof.
  intros Hm Hk h. unfold Store.mbind. specialize (Hm h).
  destruct (m h) as [[a | e | l] h1]; cbn [snd] in *; subst h1;
    [apply Hk | reflexivity | reflexivity].
Qed.

Lemma load_pure (l : nat) (h : Store.heap) : snd (Store.load l h) = h.
Proof. unfold Store.load. destruct (nth_error h l); reflexivity. Qed.

Lemma load_Ok (l : nat) (h : Store.heap) (ob : Store.object) :
  fst (Store.load l h) = Ok ob -> nth_error h l = Some ob.
Proof.
  unfold Store.load. destruct (nth_error h l); cbn; [intros [= ->]; reflexivity | discriminate].
Qed.

Lemma miss_pure (names : list string) (k : string) (h : Store.heap) :
  snd (Store.miss names k h) = h.
Proof. unfold Store.miss. destruct (member names k); reflexivity. Qed.

Lemma Get_pure (o : Store.val) (k : string) (h : Store.heap) :
  snd (Store.Get o k h) = h.
Proof.
  destruct o; cbn [Store.Get]; try reflexivity; try apply miss_pure.
  - destruct (array_index k) as [i |].
    + destruct (String.get (N.to_nat i) s); reflexivity.
    + destruct (String.eqb k "length"); [reflexivity | apply miss_pure].
  - apply mbind_pure; [apply load_pure |]. intros ob h'.
    destruct (lookup (Store.fields ob) k); [reflexivity |].
    destruct (Store.is_array ob && String.eqb k "length"); [reflexivity | apply miss_pure].
Qed.

Lemma own_fields_pure (o : Store.val) (h : Store.heap) :
  snd (Store.own_fields o h) = h.
Proof.
  destruct o; cbn [Store.own_fields]; try reflexivity.
  apply mbind_pure; [apply load_pure | reflexivity].
Qed.

Lemma Object_keys_pure (o : Store.val) (h : Store.heap) :
  snd (Store.Object_keys o h) = h.
Proof.
  destruct o; cbn [Store.Object_keys]; try reflexivity;
    (apply mbind_pure; [apply own_fields_pure | reflexivity]).
Qed.

Lemma isArray_pure (o : Store.val) (h : Store.heap) :
  snd (Store.isArray o h) = h.
Proof.
  destruct o; cbn [Store.isArray]; try reflexivity.
  apply mbind_pure; [apply load_pure | reflexivity].
Qed.

Lemma length_of_pure (o : Store.val) (h : Store.heap) :
  snd (Store.length_of o h) = h.
Proof.
  destruct o; cbn [Store.length_of]; try reflexivity.
  apply mbind_pure; [apply load_pure |]. intros ob h'.
  destruct (Store.is_array ob); reflexivity.
Qed.

Lemma to_tree_pure (v : Store.val) (h : Store.heap) :
  snd (Store.to_tree v h) = h.
Proof. reflexivity. Qed.

Lemma ToNumber_pure (v : Store.val) (h : Store.heap) :
  snd (Store.ToNumber v h) = h.
Proof.
  unfold Store.ToNumber. apply mbind_pure; [apply to_tree_pure | reflexivity].
Qed.

Section Reads.

Variable n : nat.
Variable I : Store.heap -> Prop.

Lemma spec_read {A : Type} (m : Store.M A) :
  (forall h, snd (m h) = h) -> spec n I any m.
Proof. intros H. apply spec_pure; [exact H | intros; exact Logic.I]. Qed.

Lemma spec_Get (o : Store.val) (k : string) : spec n I any (Store.Get o k).
Proof. apply spec_read, Get_pure. Qed.

Lemma spec_Object_keys (o : Store.val) : spec n I any (Store.Object_keys o).
Proof. apply spec_read, Object_keys_pure. Qed.

Lemma spec_own_fields (o : Store.val) : spec n I any (Store.own_fields o).
Proof. apply spec_read, own_fields_pure. Qed.

Lemma spec_isArray (o : Store.val) : spec n I any (Store.isArray o).
Proof. apply spec_read, isArray_pure. Qed.

Lemma spec_length_of (o : Store.val) : spec n I any (Store.length_of o).
Proof. apply spec_read, length_of_pure. Qed.

Lemma spec_to_tree (o : Store.val) : spec n I any (Store.to_tree o).
Proof. apply spec_read, to_tree_pure. Qed.

Lemma spec_ToNumber (o : Store.val) : spec n I any (Store.ToNumber o).
Proof. apply spec_read, ToNumber_pure. Qed.

(* ----------------------------------------------------------------- *)
(** ** Writes *)

Lemma spec_alloc (o : Store.object) :
  (forall h, n <= List.length h -> I h -> I (h ++ [o])) ->
  spec n I (writable n) (Store.alloc o).
Proof.
  intros Hi h Hn Hh. cbn. split; [apply frame_alloc, Hn |].
  split; [apply Hi; assumption |]. intros a [= <-]. exact Hn.
Qed.

Lemma spec_Put (o : Store.val) (k : string) (v : Store.val) :
  writable n o ->
  (forall l h ob a ln,
     o = Store.Ref l -> I h -> nth_error h l = Some ob ->
     I (Store.update h l (Store.Object a ln (define (Store.fields ob) k v)))) ->
  spec n I any (Store.Put o k v).
Proof.
  intros Hw Hi.
  destruct o; cbn [Store.Put];
    try (apply spec_raise); try (apply spec_ret; exact Logic.I).
  cbn in Hw. intros h Hn Hh. unfold Store.mbind.
  destruct (Store.load l h) as [r h1] eqn:L.
  assert (E1 : h1 = h) by (rewrite <- (load_pure l h), L; reflexivity). subst h1.
  destruct r as [ob | e | b]; cbn [fst snd];
    try (split; [apply frame_refl | split; [exact Hh | intros ?; discriminate]]).
  assert (Hob : nth_error h l = Some ob) by (apply load_Ok; rewrite L; reflexivity).
  assert (S1 : forall a ln,
             let r := Store.save l (Store.Object a ln (define (Store.fields ob) k v)) h in
             frame n h (snd r) /\ I (snd r) /\ forall u : unit, fst r = Ok u -> any u).
  { intros a ln. cbn. split; [apply frame_update, Hw |].
    split; [apply (Hi l h ob a ln eq_refl Hh Hob) | intros; exact Logic.I]. }
  assert (S0 : forall b0 : limit,
             let r := @Store.beyond unit b0 h in
             frame n h (snd r) /\ I (snd r) /\ forall u : unit, fst r = Ok u -> any u).
  { intros b0. cbn. split; [apply frame_refl | split; [exact Hh | intros ?; discriminate]]. }
  destruct (Store.is_array ob && String.eqb k "length"); [apply S0 |].
  destruct (lookup (Store.fields ob) k); [apply S1 |].
  destruct (String.eqb k "__proto__"); [apply S0 | apply S1].
Qed.

End Reads.

(* ----------------------------------------------------------------- *)
(** ** Functions that write only to what they allocate *)

Section Safe.

Variable n : nat.

Lemma safe_alloc (o : Store.object) :
  spec n any_heap (writable n) (Store.alloc o).
Proof. apply spec_alloc. intros; exact I. Qed.

Lemma safe_Put (o : Store.val) (k : string) (v : Store.val) :
  writable n o -> spec n any_heap any (Store.Put o k v).
Proof. intros Hw. apply spec_Put; [exact Hw | intros; exact I]. Qed.

Lemma safe_any {A : Type} (Q : A -> Prop) (m : Store.M A) :
  spec n any_heap Q m -> spec n any_heap any m.
Proof. intros H. apply (spec_weaken n any_heap Q); [exact H | intros; exact I]. Qed.

Lemma safe_allocate (t : jsvalue) : spec n any_heap any (Store.allocate t).
Proof.
  induction t as [v Hv | ps IH | len ps IH] using jsvalue_nested_ind.
  - destruct v; try discriminate; cbn; apply spec_ret; exact I.
  - cbn [Store.allocate]. apply (spec_bind n any_heap any).
    + induction IH as [| [k x] l Hx Hl IHl]; [apply spec_ret; exact I |].
      apply (spec_bind n any_heap any); [exact Hx |]. intros v _.
      apply (spec_bind n any_heap any); [exact IHl |]. intros vs _.
      apply spec_ret; exact I.
    + intros fs _. apply safe_any with (Q := writable n), safe_alloc.
  - cbn [Store.allocate]. apply (spec_bind n any_heap any).
    + induction IH as [| [k x] l Hx Hl IHl]; [apply spec_ret; exact I |].
      apply (spec_bind n any_heap any); [exact Hx |]. intros v _.
      apply (spec_bind n any_heap any); [exact IHl |]. intros vs _.
      apply spec_ret; exact I.
    + intros fs _. apply safe_any with (Q := writable n), safe_alloc.
Qed.

Lemma safe_JSON_parse (v : Store.val) : spec n any_heap any (Store.JSON_parse v).
Proof.
  unfold Store.JSON_parse.
  apply (spec_bind n any_heap any); [apply spec_to_tree |]. intros t _.
  apply (spec_bind n any_heap any); [apply spec_lift; intros; exact I |].
  intros parsed _. apply safe_allocate.
Qed.

Lemma safe_spread (a b : Store.val) :
  spec n any_heap (writable n) (Store.spread a b).
Proof.
  unfold Store.spread.
  apply (spec_bind n any_heap any); [apply spec_own_fields |]. intros fa _.
  apply (spec_bind n any_heap any); [apply spec_own_fields |]. intros fb _.
  apply safe_alloc.
Qed.

Lemma safe_deflate (fuel : nat) (json : Store.val) (prefix : string) :
  spec n any_heap (writable n) (Store.deflate fuel json prefix).
Proof.
  revert json prefix. induction fuel as [| fuel IH]; intros json prefix;
    [apply spec_beyond |].
  cbn [Store.deflate]. unfold Store.deflate_body.
  apply (spec_bind n any_heap (writable n)); [apply safe_alloc |]. intros result Hr.
  apply (spec_bind n any_heap any); [apply spec_Object_keys |]. intros keys _.
  apply spec_for_each; [exact Hr |]. clear result Hr. intros result key Hr.
  apply (spec_bind n any_heap any); [apply spec_Get |]. intros value _.
  apply (spec_bind n any_heap any); [apply spec_Object_keys |]. intros valueKeys _.
  destruct (Store.truthy value && String.eqb (Store.typeof value) "object"
            && (0 <? List.length valueKeys)).
  - apply (spec_bind n any_heap any); [apply safe_any with (Q := writable n), IH |].
    intros flat _. apply safe_spread.
  - apply (spec_bind n any_heap any); [apply safe_Put, Hr |]. intros _ _.
    apply spec_ret, Hr.
Qed.

Lemma safe_deflateKeys (fuel : nat) (json : Store.val) :
  spec n any_heap any (Store.deflateKeys fuel json).
Proof.
  unfold Store.deflateKeys.
  apply (spec_bind n any_heap any);
    [apply safe_any with (Q := writable n), safe_deflate |].
  intros flat _. apply spec_Object_keys.
Qed.

Lemma safe_Array_map (f : Store.val -> N -> Store.M Store.val) (a : Store.val) :
  (forall v i, spec n any_heap any (f v i)) ->
  spec n any_heap any (Store.Array_map f a).
Proof.
  intros Hf. unfold Store.Array_map.
  apply (spec_bind n any_heap any); [apply spec_isArray |]. intros arr _.
  destruct arr; [| apply spec_raise].
  apply (spec_bind n any_heap any); [apply spec_length_of |]. intros len _.
  apply (spec_bind n any_heap (writable n)); [apply safe_alloc |]. intros result Hr.
  apply (spec_bind n any_heap any); [apply spec_Object_keys |]. intros keys _.
  apply (spec_bind n any_heap any); [| intros _ _; apply spec_ret; exact I].
  apply spec_for_each; [exact I |]. intros _ key _.
  destruct (array_index key) as [i |]; [| apply spec_ret; exact I].
  apply (spec_bind n any_heap any); [apply spec_Get |]. intros value _.
  apply (spec_bind n any_heap any); [apply Hf |]. intros r _.
  apply safe_Put, Hr.
Qed.

Section SafeMerge.

Variable rec : Store.val -> Store.val -> option string -> Store.M Store.val.
Hypothesis safe_rec : forall d e t, spec n any_heap any (rec d e t).

Lemma safe_mergeEnvObject_body (defaultJson envValue : Store.val) :
  spec n any_heap any (Store.mergeEnvObject_body rec defaultJson envValue).
Proof.
  unfold Store.mergeEnvObject_body.
  apply (spec_bind n any_heap any).
  { destruct defaultJson; try (apply spec_ret; exact I).
    apply safe_any with (Q := writable n), safe_alloc. }
  intros dj _.
  destruct (Store.nullish envValue); [apply spec_ret; exact I |].
  apply (spec_bind n any_heap (writable n)); [apply safe_alloc |]. intros result Hr.
  apply (spec_bind n any_heap any).
  { destruct (negb (String.eqb (Store.typeof envValue) "object"));
      [| apply spec_ret; exact I].
    destruct (String.eqb (Store.typeof envValue) "string"); [| apply spec_raise].
    apply (spec_bind n any_heap any); [apply safe_JSON_parse |]. intros tmp _.
    destruct (String.eqb (Store.typeof tmp) "object");
      [apply spec_ret; exact I | apply spec_raise]. }
  intros ev _.
  apply (spec_bind n any_heap any); [apply spec_Object_keys |]. intros dkeys _.
  apply (spec_bind n any_heap any); [apply spec_Object_keys |]. intros ekeys _.
  apply (spec_bind n any_heap any); [| intros _ _; apply spec_ret; exact I].
  apply spec_for_each; [exact I |]. intros _ key _.
  apply (spec_bind n any_heap any); [apply spec_Get |]. intros d _.
  apply (spec_bind n any_heap any); [apply spec_Get |]. intros e _.
  apply (spec_bind n any_heap any); [apply safe_rec |]. intros r _.
  apply safe_Put, Hr.
Qed.

Lemma safe_mergeEnvArray_body (defaultJson envValue : Store.val) :
  spec n any_heap any (Store.mergeEnvArray_body rec defaultJson envValue).
Proof.
  unfold Store.mergeEnvArray_body.
  apply (spec_bind n any_heap any).
  { destruct defaultJson; try (apply spec_ret; exact I).
    apply safe_any with (Q := writable n), safe_alloc. }
  intros dj _.
  destruct (Store.nullish envValue); [apply spec_ret; exact I |].
  apply (spec_bind n any_heap any); [apply spec_isArray |]. intros earr _.
  apply (spec_bind n any_heap any).
  { destruct (negb earr); [| apply spec_ret; exact I].
    destruct (String.eqb (Store.typeof envValue) "string"); [| apply spec_raise].
    apply (spec_bind n any_heap any); [apply safe_JSON_parse |]. intros tmp _.
    apply (spec_bind n any_heap any); [apply spec_isArray |]. intros tarr _.
    destruct tarr; [apply spec_ret; exact I | apply spec_raise]. }
  intros ev _.
  apply (spec_bind n any_heap any); [apply spec_length_of |]. intros dlen _.
  destruct (0 <? dlen)%N; [| apply spec_ret; exact I].
  apply (spec_bind n any_heap any); [apply spec_Get |]. intros d0 _.
  apply (spec_bind n any_heap any); [apply spec_length_of |]. intros elen _.
  destruct (dlen <? elen)%N; apply safe_Array_map; intros v i;
    (apply (spec_bind n any_heap any); [apply spec_Get |]); intros x _;
    apply safe_rec.
Qed.

End SafeMerge.

Lemma safe_mergeEnvJsonValue (fuel : nat) (defaultValue envValue : Store.val)
    (defaultType : option string) :
  spec n any_heap any (Store.mergeEnvJsonValue fuel defaultValue envValue defaultType).
Proof.
  revert defaultValue envValue defaultType.
  induction fuel as [| fuel IH]; intros defaultValue envValue defaultType;
    [apply spec_beyond |].
  cbn [Store.mergeEnvJsonValue].
  destruct (Store.truthy envValue); [| apply spec_ret; exact I].
  cbv zeta.
  apply (spec_bind n any_heap any); [apply spec_isArray |]. intros darr _.
  match goal with |- context [or_type ?a ?b] => generalize (or_type a b) end.
  intros typeOfDj.
  destruct (String.eqb typeOfDj "array" || darr);
    [apply safe_mergeEnvArray_body, IH |].
  destruct (String.eqb typeOfDj "object");
    [apply safe_mergeEnvObject_body, IH |].
  destruct (String.eqb typeOfDj "boolean").
  { apply (spec_bind n any_heap any); [apply safe_JSON_parse |]. intros value _.
    destruct value; try apply spec_raise. apply spec_ret; exact I. }
  destruct (String.eqb typeOfDj "number").
  { apply (spec_bind n any_heap any); [apply spec_ToNumber |]. intros value _.
    destruct (isNaN value); [apply spec_raise | apply spec_ret; exact I]. }
  destruct (String.eqb typeOfDj ""); [| apply spec_ret; exact I].
  apply (spec_bind n any_heap any); [apply spec_to_tree |]. intros t _.
  destruct (negb (isNaN (StringToNumber (trim (ToString t)))));
    [apply spec_ret; exact I |].
  set (strValue := trim (ToString t)).
  match goal with
  | |- spec _ _ _ (fun h => match ?m h with _ => _ end) =>
      assert (Hm : spec n any_heap any m)
  end.
  { destruct (startsWith strValue "{" || startsWith strValue "[");
      [apply safe_JSON_parse |].
    destruct (String.eqb (toLowerCase strValue) "true"); [apply spec_ret; exact I |].
    destruct (String.eqb (toLowerCase strValue) "false"); apply spec_ret; exact I. }
  intros h Hn Hh. specialize (Hm h Hn Hh).
  match goal with
  | |- context [match ?m h with _ => _ end] => destruct (m h) as [[a | e | l] h1]
  end; cbn [fst snd] in *; destruct Hm as (Hf & _ & _);
    (split; [exact Hf | split; [exact I | intros; exact I]]).
Qed.

Lemma safe_mergeEnvObject (fuel : nat) (defaultJson envValue : Store.val) :
  spec n any_heap any (Store.mergeEnvObject fuel defaultJson envValue).
Proof.
  apply safe_mergeEnvObject_body. intros d e t. apply safe_mergeEnvJsonValue.
Qed.

End Safe.

(* ----------------------------------------------------------------- *)
(** ** [inflate] writes only to what it allocates *)

Lemma define_Forall {A : Type} (P : string * A -> Prop) (ps : list (string * A))
    (k : string) (v : A) :
  Forall P ps -> P (k, v) -> Forall P (define ps k v).
Proof.
  intros Hps Hv. induction Hps as [| [k' v'] ps' Hx Hps' IH]; cbn [define].
  - constructor; [exact Hv | constructor].
  - destruct (String.eqb k' k); [constructor; assumption |].
    destruct (array_index k) as [i |].
    + destruct (array_index k') as [i' |].
      * destruct (i <? i')%N; constructor; try assumption.
        constructor; assumption.
      * constructor; [exact Hv |]. constructor; assumption.
    + constructor; assumption.
Qed.

Lemma lookup_Forall {A : Type} (Q : A -> Prop) (ps : list (string * A))
    (k : string) (v : A) :
  Forall (fun kv => Q (snd kv)) ps -> lookup ps k = Some v -> Q v.
Proof.
  intros Hps. induction Hps as [| [k' v'] ps' Hx Hps' IH]; cbn [lookup];
    [discriminate |].
  destruct (String.eqb k' k); [intros [= <-]; exact Hx | exact IH].
Qed.

Lemma primitive_writable (n : nat) (v : Store.val) : primitive v -> writable n v.
Proof. destruct v; cbn; intros H; [exact I .. | contradiction]. Qed.

Lemma miss_Ok (names : list string) (k : string) (h : Store.heap) (a : Store.val) :
  fst (Store.miss names k h) = Ok a -> a = Store.Undef.
Proof.
  unfold Store.miss. destruct (member names k); cbn; [discriminate | congruence].
Qed.

Lemma nth_error_alloc (h : Store.heap) (o ob : Store.object) (l : nat) :
  nth_error (h ++ [o]) l = Some ob ->
  nth_error h l = Some ob \/ (l = List.length h /\ ob = o).
Proof.
  intros H. destruct (Nat.lt_ge_cases l (List.length h)) as [Hl | Hl].
  - left. rewrite nth_error_app1 in H by exact Hl. exact H.
  - right. rewrite nth_error_app2 in H by exact Hl.
    destruct (l - List.length h) as [| d] eqn:D.
    + cbn in H. injection H as <-. split; [lia | reflexivity].
    + cbn in H. destruct d; discriminate.
Qed.

Lemma flat_at_frame (l n : nat) (h h' : Store.heap) :
  l < n -> frame n h h' -> flat_at l h -> flat_at l h'.
Proof.
  intros Hl Hf (ob & Hob & Hfs). exists ob. split; [| exact Hfs].
  rewrite (frame_nth n h h' l Hf Hl). exact Hob.
Qed.

Lemma flat_at_bound (l : nat) (h : Store.heap) : flat_at l h -> l < List.length h.
Proof.
  intros (ob & Hob & _). apply nth_error_Some. rewrite Hob. discriminate.
Qed.

Section Inflating.

Variables le n1 : nat.

Lemma inflating_alloc (h : Store.heap) (a : bool) (ln : N) :
  n1 <= List.length h -> inflating le n1 h ->
  inflating le n1 (h ++ [Store.Object a ln []]).
Proof.
  intros Hn (Hle & Hflat & Hcl). split; [exact Hle |]. split.
  - apply (flat_at_frame le n1 h); [exact Hle | apply frame_alloc, Hn | exact Hflat].
  - intros l ob Hl Hob. apply nth_error_alloc in Hob.
    destruct Hob as [Hob | (_ & ->)]; [exact (Hcl l ob Hl Hob) | constructor].
Qed.

Lemma inflating_update (l : nat) (h : Store.heap) (ob : Store.object) (a : bool)
    (ln : N) (k : string) (v : Store.val) :
  n1 <= l -> writable n1 v -> inflating le n1 h -> nth_error h l = Some ob ->
  inflating le n1
    (Store.update h l (Store.Object a ln (define (Store.fields ob) k v))).
Proof.
  intros Hl Hv (Hle & Hflat & Hcl) Hob. split; [exact Hle |]. split.
  - apply (flat_at_frame le n1 h); [exact Hle | apply frame_update, Hl | exact Hflat].
  - intros l' ob' Hl' Hob'. destruct (Nat.eq_dec l' l) as [-> | Hne].
    + rewrite update_nth_same in Hob'
        by (apply nth_error_Some; rewrite Hob; discriminate).
      injection Hob' as <-. cbn [Store.fields].
      apply define_Forall; [exact (Hcl l ob Hl Hob) | exact Hv].
    + rewrite update_nth_other in Hob' by exact Hne. exact (Hcl l' ob' Hl' Hob').
Qed.

Lemma inflating_spec_alloc (a : bool) (ln : N) :
  spec n1 (inflating le n1) (writable n1) (Store.alloc (Store.Object a ln [])).
Proof. apply spec_alloc. intros h Hn Hh. apply inflating_alloc; assumption. Qed.

Lemma inflating_Put (o : Store.val) (k : string) (v : Store.val) :
  writable n1 o -> writable n1 v ->
  spec n1 (inflating le n1) any (Store.Put o k v).
Proof.
  intros Ho Hv. apply spec_Put; [exact Ho |].
  intros l h ob a ln -> Hh Hob. apply inflating_update; assumption.
Qed.

Lemma inflating_Get (o : Store.val) (k : string) :
  o = Store.Ref le \/ writable n1 o ->
  spec n1 (inflating le n1) (writable n1) (Store.Get o k).
Proof.
  intros Ho. apply spec_pure; [apply Get_pure |].
  intros h a (Hle & (fl & Hfl & Hprim) & Hcl).
  destruct o; cbn [Store.Get]; try discriminate.
  - intros H. apply miss_Ok in H. subst a. exact I.
  - intros H. apply miss_Ok in H. subst a. exact I.
  - destruct (array_index k) as [i |].
    + destruct (String.get (N.to_nat i) s); intros [= <-]; exact I.
    + destruct (String.eqb k "length"); [intros [= <-]; exact I |].
      intros H. apply miss_Ok in H. subst a. exact I.
  - unfold Store.mbind, Store.load.
    destruct (nth_error h l) as [ob |] eqn:Hob; [| discriminate].
    assert (Hfs : Forall (fun kv => writable n1 (snd kv)) (Store.fields ob)).
    { destruct Ho as [[= ->] | Hw].
      - rewrite Hfl in Hob. injection Hob as <-.
        apply Forall_impl with (2 := Hprim). intros kv. apply primitive_writable.
      - exact (Hcl l ob Hw Hob). }
    destruct (lookup (Store.fields ob) k) as [v |] eqn:Hv.
    + intros [= <-]. exact (lookup_Forall _ _ _ _ Hfs Hv).
    + destruct (Store.is_array ob && String.eqb k "length"); [intros [= <-]; exact I |].
      intros H. apply miss_Ok in H. subst a. exact I.
Qed.

Lemma inflating_inflateItem (rest : list string) :
  forall (key : string) (value result : Store.val),
    writable n1 value -> writable n1 result ->
    spec n1 (inflating le n1) (writable n1)
      (Store._inflateItem key rest value result).
Proof.
  induction rest as [| k rest IH]; intros key value result Hv Hr;
    cbn [Store._inflateItem]; cbv zeta;
    (apply (spec_bind n1 (inflating le n1) any); [apply spec_Object_keys |]);
    intros ks _;
    (apply (spec_bind n1 (inflating le n1) (fun p => writable n1 (fst p)));
     [ destruct (negb (isNaN (StringToNumber key)) && (List.length ks =? 0));
       [ apply (spec_bind n1 (inflating le n1) (writable n1));
         [apply inflating_spec_alloc | intros fresh Hf; apply spec_ret, Hf]
       | apply spec_ret, Hr ]
     | ]);
    intros [result' key'] Hr'; cbn [fst] in Hr'.
  - apply (spec_bind n1 (inflating le n1) any); [apply inflating_Put; assumption |].
    intros _ _. apply spec_ret, Hr'.
  - apply (spec_bind n1 (inflating le n1) any); [| intros _ _; apply spec_ret, Hr'].
    apply (spec_bind n1 (inflating le n1) (writable n1));
      [apply inflating_Get; right; exact Hr' |]. intros child Hc.
    apply (spec_bind n1 (inflating le n1) (writable n1)).
    { destruct (Store.truthy child); [apply spec_ret, Hc | apply inflating_spec_alloc]. }
    intros child' Hc'.
    apply (spec_bind n1 (inflating le n1) (writable n1)); [apply IH; assumption |].
    intros sub Hs. apply inflating_Put; assumption.
Qed.

Lemma inflating_inflate :
  spec n1 (inflating le n1) any (Store.inflate (Store.Ref le)).
Proof.
  unfold Store.inflate.
  apply (spec_bind n1 (inflating le n1) (writable n1)); [apply inflating_spec_alloc |].
  intros result Hr.
  apply (spec_bind n1 (inflating le n1) any); [apply spec_Object_keys |]. intros keys _.
  apply (spec_bind n1 (inflating le n1) any); [| intros _ _; apply spec_ret; exact I].
  apply spec_for_each; [exact I |]. intros _ key _.
  apply (spec_bind n1 (inflating le n1) (writable n1));
    [apply inflating_Get; left; reflexivity |]. intros value Hv.
  destruct (split "." (trim key)) as [k rest].
  apply (spec_bind n1 (inflating le n1) any); [| intros _ _; apply spec_ret; exact I].
  apply (spec_weaken n1 (inflating le n1) (writable n1));
    [apply inflating_inflateItem; assumption | intros; exact I].
Qed.

End Inflating.

(** [inflate] of an object that holds only primitive values changes no
    object of the store it is started in. *)
Lemma inflate_frame (le : nat) (h : Store.heap) :
  flat_at le h ->
  frame (List.length h) h (snd (Store.inflate (Store.Ref le) h)).
Proof.
  intros Hflat.
  apply (inflating_inflate le (List.length h) h (Nat.le_refl _)).
  split; [apply flat_at_bound, Hflat |]. split; [exact Hflat |].
  intros l ob Hl Hob. exfalso.
  assert (l < List.length h) by (apply nth_error_Some; rewrite Hob; discriminate).
  lia.
Qed.

(* ----------------------------------------------------------------- *)
(** ** [merge] *)

Lemma flat_at_update (le : nat) (h : Store.heap) (ob : Store.object) (a : bool)
    (ln : N) (k s : string) :
  flat_at le h -> nth_error h le = Some ob ->
  flat_at le (Store.update h le
                (Store.Object a ln (define (Store.fields ob) k (Store.Str s)))).
Proof.
  intros (ob' & Hob' & Hprim) Hob. rewrite Hob in Hob'. injection Hob' as <-.
  eexists. split.
  - apply update_nth_same. apply nth_error_Some. rewrite Hob. discriminate.
  - cbn [Store.fields]. apply define_Forall; [exact Hprim | exact I].
Qed.

Lemma collect_flat (env : environment) (le : nat) (allKeys : list string) :
  spec le (flat_at le) any
    (Store.for_each allKeys tt
       (fun _ key =>
          Store.mbind (Store.lift (env_get env key))
            (fun envValue =>
               match envValue with
               | Some v => Store.Put (Store.Ref le) key (Store.Str v)
               | None => Store.ret tt
               end))).
Proof.
  apply spec_for_each; [exact I |]. intros _ key _.
  apply (spec_bind le (flat_at le) any); [apply spec_lift; intros; exact I |].
  intros [v |] _; [| apply spec_ret; exact I].
  apply spec_Put; [apply Nat.le_refl |].
  intros l h ob a ln [= <-] Hh Hob. apply flat_at_update; assumption.
Qed.

Lemma merge_frame (fuel : nat) (env : environment) (conf : Store.val)
    (envKeys : option (list string)) (h : Store.heap) :
  frame (List.length h) h (snd (Store.merge fuel env conf envKeys h)).
Proof.
  set (n := List.length h). unfold Store.merge, Store.mbind.
  (* conf = {} *)
  match goal with
  | |- context [match ?m h with _ => _ end] =>
      assert (S1 : spec n any_heap any m);
      [ destruct conf; try (apply spec_ret; exact I);
        apply safe_any with (Q := writable n), safe_alloc
      | destruct (S1 h (Nat.le_refl _) I) as (F1 & _ & _);
        destruct (m h) as [[conf' | e | b] h1]; cbn [fst snd] in F1;
        [| exact F1 | exact F1] ]
  end.
  (* envConfig = {} *)
  cbn [Store.alloc]. set (le := List.length h1).
  set (h2 := h1 ++ [Store.Object false 0 []]).
  assert (F2 : frame n h h2).
  { apply (frame_trans n h h1); [exact F1 |]. apply frame_alloc. destruct F1; lia. }
  assert (L2 : flat_at le h2).
  { exists (Store.Object false 0 []). split; [| constructor].
    unfold h2, le. rewrite nth_error_app2, Nat.sub_diag by apply Nat.le_refl.
    reflexivity. }
  assert (B2 : S le <= List.length h2) by (apply flat_at_bound, L2).
  assert (N2 : n <= le) by (destruct F1; exact H).
  (* keys = deflateKeys(conf) *)
  destruct (safe_deflateKeys (S le) fuel conf' h2 B2 I) as (F3 & _ & _).
  destruct (Store.deflateKeys fuel conf' h2) as [[keys | e | b] h3];
    cbn [fst snd] in F3;
    try (apply (frame_trans n h h2); [exact F2 | apply (frame_le n (S le)); [lia | exact F3]]).
  assert (L3 : flat_at le h3).
  { apply (flat_at_frame le (S le) h2); [lia | exact F3 | exact L2]. }
  assert (F3' : frame n h h3).
  { apply (frame_trans n h h2); [exact F2 | apply (frame_le n (S le)); [lia | exact F3]]. }
  (* envConfig[key] = envValue *)
  match goal with
  | |- context [Store.for_each ?ks tt ?body h3] =>
      assert (S4 : frame le h3 (snd (Store.for_each ks tt body h3)) /\
                   flat_at le (snd (Store.for_each ks tt body h3)));
      [ destruct (collect_flat env le ks h3) as (F & L & _);
        [ apply Nat.lt_le_incl, flat_at_bound, L3 | exact L3 | split; [exact F | exact L] ]
      | destruct (Store.for_each ks tt body h3) as [[u | e | b] h4] ]
  end; cbn [fst snd] in S4; destruct S4 as (F4 & L4);
    try (apply (frame_trans n h h3); [exact F3' | apply (frame_le n le); [lia | exact F4]]).
  assert (F4' : frame n h h4).
  { apply (frame_trans n h h3); [exact F3' | apply (frame_le n le); [lia | exact F4]]. }
  (* envJson = inflate(envConfig) *)
  pose proof (inflate_frame le h4 L4) as F5.
  assert (N4 : n <= List.length h4) by (destruct F4'; lia).
  destruct (Store.inflate (Store.Ref le) h4) as [[envJson | e | b] h5];
    cbn [fst snd] in F5;
    try (apply (frame_trans n h h4); [exact F4' | apply (frame_le n (List.length h4)); [lia | exact F5]]).
  assert (F5' : frame n h h5).
  { apply (frame_trans n h h4); [exact F4' | apply (frame_le n (List.length h4)); [lia | exact F5]]. }
  (* mergeEnvObject(conf, envJson) *)
  assert (N5 : n <= List.length h5) by (destruct F5'; lia).
  destruct (safe_mergeEnvObject n fuel conf' envJson h5 N5 I) as (F6 & _ & _).
  apply (frame_trans n h h5); [exact F5' | exact F6].
Qed.

(** The tree that a value denotes is the same in an extension of the
    store. *)
Lemma reify_extension (depth : nat) (h ext : Store.heap) :
  forall (v : Store.val) (t : jsvalue),
    Store.reify depth h v = Ok t -> Store.reify depth (h ++ ext) v = Ok t.
Proof.
  induction depth as [| depth IH]; intros v t; destruct v; cbn [Store.reify];
    try (intros H; exact H).
  destruct (nth_error h l) as [ob |] eqn:Hob; [| discriminate].
  rewrite nth_error_app1 by (apply nth_error_Some; rewrite Hob; discriminate).
  rewrite Hob. intros H. apply bind_Ok in H. destruct H as (ps & Hps & H).
  match goal with
  | |- bind ?e _ = _ => assert (E : e = Ok ps); [| rewrite E; exact H]
  end.
  clear H. revert ps Hps. induction (Store.fields ob) as [| [k x] fs IHfs];
    intros ps Hps; [exact Hps |].
  apply bind_Ok in Hps. destruct Hps as (t' & Ht' & Hps).
  apply bind_Ok in Hps. destruct Hps as (ts & Hts & Hps).
  rewrite (IH x t' Ht'). cbn [bind]. rewrite (IHfs ts Hts). exact Hps.
Qed.

(** C7: merging the default {port: 8080} with the environment
    {port: "not-a-number"} raises TypeMismatch; and whatever the fuel, the
    environment, the default configuration, the keys and the store, whether
    the call returns or raises, the store after [merge] is the store before
    it followed by the objects allocated during the call, so the default
    configuration denotes after the call the tree that it denoted before
    it. *)
Theorem merge_leaves_default_unmodified :
  (forall fuel env conf envKeys h,
     exists ext, snd (Store.merge fuel env conf envKeys h) = h ++ ext) /\
  (forall fuel env conf envKeys h depth t,
     Store.reify depth h conf = Ok t ->
     Store.reify depth (snd (Store.merge fuel env conf envKeys h)) conf = Ok t) /\
  (forall fuel,
     merge (S fuel) [("port", "not-a-number")]
       (VObj [("port", VNum (Dec 8080 0))]) None = Throw TypeMismatch /\
     fst (Store.merge (S fuel) [("port", "not-a-number")] (Store.Ref 0) None
            [port_default]) = Throw TypeMismatch /\
     nth_error (snd (Store.merge (S fuel) [("port", "not-a-number")] (Store.Ref 0)
                       None [port_default])) 0 = Some port_default).
Proof.
  split; [| split].
  - intros fuel env conf envKeys h. apply frame_extension, merge_frame.
  - intros fuel env conf envKeys h depth t Ht.
    destruct (frame_extension h _ (merge_frame fuel env conf envKeys h)) as (ext & ->).
    apply reify_extension, Ht.
  - intros fuel. split; [| split]; vm_compute; reflexivity.
Qed.

Lemma merge_leaves_default_unmodified_witness :
  Store.reify 1
    (snd (Store.merge 1 [("port", "not-a-number")] (Store.Ref 0) None [port_default]))
    (Store.Ref 0)
  = Ok (VObj [("port", VNum (Dec 8080 0))]).
Proof.
  apply (proj1 (proj2 merge_leaves_default_unmodified)). reflexivity.
Defined.

(* ================================================================= *)
(** * [deflate] and [null] *)

Lemma put_props_cases (res : props) (k : string) (v : jsvalue) :
  (exists res', put_props res k v = Ok res') \/
  (k = "__proto__" /\ put_props res k v = Beyond InheritedName).
Proof.
  unfold put_props. cbn [Put].
  destruct (lookup res k); [left; eexists; reflexivity |].
  destruct (String.eqb k "__proto__") eqn:E.
  - right. apply String.eqb_eq in E. split; [exact E | reflexivity].
  - left. eexists; reflexivity.
Qed.

Lemma walked_not_nullish (v : jsvalue) : walked v = true -> nullish v = false.
Proof. destruct v; simpl; try discriminate; reflexivity. Qed.

Lemma deflate_entry_unfold (sub : string -> outcome props) (p : string)
    (res : props) (k : string) (v : jsvalue) :
  nullish v = false ->
  deflate_entry sub p res k v =
    if walked v then
      (flat <- sub (if String.eqb p "" then k +++ "." else p +++ k +++ ".") ;;
       Ok (spread res flat))%js
    else put_props res (if String.eqb p "" then k else p +++ k) v.
Proof.
  intros Hn. unfold deflate_entry. rewrite (Object_keys_Ok v Hn). cbn [bind].
  unfold walked. reflexivity.
Qed.

Lemma deflate_entry_null (sub : string -> outcome props) (p : string)
    (res : props) (k : string) (v : jsvalue) :
  nullish v = true -> deflate_entry sub p res k v = Throw TypeError.
Proof. destruct v; try discriminate; reflexivity. Qed.

(** The characters of a string are leaves. *)
Lemma deflate_chars (p : string) (s : string) :
  forall (i : nat) (acc : outcome props) (e : error),
    (forall e', acc <> Throw e') ->
    fold_left
      (fun acc kv =>
         result <- acc ;;
         deflate_entry (fun _ => Ok []) p result (fst kv) (snd kv))%js
      (chars i s) acc <> Throw e.
Proof.
  induction s as [| c s IH]; intros i acc e Hacc; cbn [chars fold_left];
    [apply Hacc |].
  apply IH. intros e'. destruct acc as [res | e0 | l]; cbn [bind fst snd].
  - rewrite deflate_entry_unfold by reflexivity. cbn [walked truthy typeof].
    cbn. destruct (put_props_cases res (if String.eqb p "" then N_to_string (N.of_nat i) else p +++ N_to_string (N.of_nat i)) (VStr (String c EmptyString)))
      as [(res' & ->) | (_ & ->)]; discriminate.
  - exfalso. exact (Hacc e0 eq_refl).
  - discriminate.
Qed.

Lemma deflate_each_Throw (p : string) (l : props) :
  Forall (fun kv => forall p e, deflate (snd kv) p = Throw e ->
                                e = TypeError /\ has_null (snd kv) = true) l ->
  forall (res : props) (e : error),
    deflate_each p l res = Throw e ->
    e = TypeError /\
    existsb (fun '(_, v) => nullish v || (walked v && has_null v)) l = true.
Proof.
  intros IH. induction IH as [| [k v] l Hv _ IHl]; intros res e H; cbn [deflate_each] in H;
    [discriminate |].
  cbn [existsb snd] in *.
  destruct (nullish v) eqn:Hn.
  - rewrite deflate_entry_null in H by exact Hn. cbn in H. injection H as <-.
    split; reflexivity.
  - rewrite deflate_entry_unfold in H by exact Hn. cbn [orb].
    destruct (walked v) eqn:Hw.
    + destruct (deflate v (if String.eqb p "" then k +++ "." else p +++ k +++ "."))
        as [flat | e0 | b] eqn:Hd; cbn [bind] in H.
      * destruct (IHl _ _ H) as (-> & ->). split; [reflexivity | apply orb_true_r].
      * injection H as <-. destruct (Hv _ _ Hd) as (-> & ->). split; reflexivity.
      * discriminate.
    + destruct (put_props_cases res (if String.eqb p "" then k else p +++ k) v)
        as [(res' & E) | (_ & E)]; rewrite E in H; cbn [bind] in H; [| discriminate].
      destruct (IHl _ _ H) as (-> & ->). split; reflexivity.
Qed.

Lemma deflate_Throw (T : jsvalue) :
  forall (p : string) (e : error),
    deflate T p = Throw e -> e = TypeError /\ has_null T = true.
Proof.
  induction T as [v Hv | ps IH | len ps IH] using jsvalue_nested_ind; intros p e H.
  - destruct v; try discriminate; cbn in H.
    + injection H as <-. split; reflexivity.
    + injection H as <-. split; reflexivity.
    + exfalso. revert H. apply deflate_chars. intros e'; discriminate.
  - rewrite deflate_container in H by reflexivity.
    exact (deflate_each_Throw p ps IH [] e H).
  - rewrite deflate_container in H by reflexivity.
    exact (deflate_each_Throw p ps IH [] e H).
Qed.

Lemma deflate_each_null (p : string) (l : props) :
  Forall (fun kv => forall p, has_null (snd kv) = true ->
                              deflate (snd kv) p = Throw TypeError \/
                              exists b, deflate (snd kv) p = Beyond b) l ->
  forall res : props,
    existsb (fun '(_, v) => nullish v || (walked v && has_null v)) l = true ->
    deflate_each p l res = Throw TypeError \/
    exists b, deflate_each p l res = Beyond b.
Proof.
  intros IH. induction IH as [| [k v] l Hv _ IHl]; intros res H; cbn [existsb] in H;
    [discriminate |].
  cbn [deflate_each snd] in *.
  destruct (nullish v) eqn:Hn.
  - rewrite deflate_entry_null by exact Hn. left; reflexivity.
  - rewrite deflate_entry_unfold by exact Hn. cbn [orb] in H.
    destruct (walked v) eqn:Hw; cbn [andb] in H.
    + destruct (deflate v (if String.eqb p "" then k +++ "." else p +++ k +++ "."))
        as [flat | e0 | b] eqn:Hd; cbn [bind].
      * destruct (has_null v) eqn:Hh.
        -- destruct (Hv (if String.eqb p "" then k +++ "." else p +++ k +++ ".") eq_refl)
             as [E | (b & E)]; rewrite E in Hd; discriminate.
        -- apply IHl. exact H.
      * left. destruct (deflate_Throw v _ _ Hd) as (-> & _). reflexivity.
      * right. eexists; reflexivity.
    + destruct (put_props_cases res (if String.eqb p "" then k else p +++ k) v)
        as [(res' & E) | (_ & E)]; rewrite E; cbn [bind].
      * apply IHl. exact H.
      * right. eexists; reflexivity.
Qed.

Lemma deflate_null (T : jsvalue) :
  forall p : string,
    has_null T = true ->
    deflate T p = Throw TypeError \/ exists b, deflate T p = Beyond b.
Proof.
  induction T as [v Hv | ps IH | len ps IH] using jsvalue_nested_ind; intros p H.
  - destruct v; try discriminate; left; reflexivity.
  - rewrite deflate_container by reflexivity. exact (deflate_each_null p ps IH [] H).
  - rewrite deflate_container by reflexivity. exact (deflate_each_null p ps IH [] H).
Qed.

(** A flat key that has a dot is not [__proto__]. *)
Lemma put_props_dotted (res : props) (k : string) (v : jsvalue) :
  dotfree k = false -> exists res', put_props res k v = Ok res'.
Proof.
  intros Hk. destruct (put_props_cases res k v) as [H | (-> & _)];
    [exact H | discriminate].
Qed.

Lemma deflate_chars_Ok (p : string) (s : string) :
  (forall i, String.eqb (if String.eqb p "" then N_to_string (N.of_nat i)
                         else p +++ N_to_string (N.of_nat i)) "__proto__" = false) ->
  forall (i : nat) (res : props),
    exists res',
      fold_left
        (fun acc kv =>
           result <- acc ;;
           deflate_entry (fun _ => Ok []) p result (fst kv) (snd kv))%js
        (chars i s) (Ok res) = Ok res'.
Proof.
  intros Hp. induction s as [| c s IH]; intros i res; cbn [chars fold_left];
    [eexists; reflexivity |].
  cbn [bind fst snd]. rewrite deflate_entry_unfold by reflexivity.
  cbn [walked truthy typeof]. cbn [String.eqb Ascii.eqb Bool.eqb andb negb].
  match goal with
  | |- context [put_props res ?k ?v] =>
      destruct (put_props_cases res k v) as [(res' & ->) | (E & _)]
  end.
  - apply IH.
  - exfalso. specialize (Hp i). rewrite E in Hp. discriminate.
Qed.

Lemma dotted_prefix_key (p k : string) :
  dotfree p = false ->
  String.eqb p "" = false /\ dotfree (p +++ k) = false.
Proof.
  intros Hp. split.
  - destruct p; [discriminate | reflexivity].
  - rewrite dotfree_app, Hp. reflexivity.
Qed.

Lemma deflate_each_dotted (p : string) (l : props) :
  dotfree p = false ->
  Forall (fun kv => forall p b, dotfree p = false -> deflate (snd kv) p <> Beyond b) l ->
  forall (res : props) (b : limit), deflate_each p l res <> Beyond b.
Proof.
  intros Hp IH. destruct (dotted_prefix_key p "" Hp) as (Hp0 & _).
  induction IH as [| [k v] l Hv _ IHl]; intros res b; cbn [deflate_each];
    [discriminate |].
  cbn [snd] in Hv. destruct (nullish v) eqn:Hn.
  - rewrite deflate_entry_null by exact Hn. discriminate.
  - rewrite deflate_entry_unfold by exact Hn. rewrite Hp0.
    destruct (walked v).
    + destruct (deflate v (p +++ k +++ ".")) as [flat | e0 | b0] eqn:Hd; cbn [bind].
      * apply IHl.
      * discriminate.
      * exfalso. apply (Hv (p +++ k +++ ".") b0); [| exact Hd].
        apply dotted_prefix_key, Hp.
    + destruct (put_props_dotted res (p +++ k) v) as (res' & ->);
        [apply dotted_prefix_key, Hp |].
      cbn [bind]. apply IHl.
Qed.

Lemma deflate_dotted (T : jsvalue) :
  forall (p : string) (b : limit), dotfree p = false -> deflate T p <> Beyond b.
Proof.
  induction T as [v Hv | ps IH | len ps IH] using jsvalue_nested_ind; intros p b Hp.
  - destruct v; try discriminate. cbn [deflate]. intros H.
    destruct (deflate_chars_Ok p s) with (i := 0) (res := @nil (string * jsvalue))
      as (res' & E0).
    + intros i.
      destruct (dotted_prefix_key p (N_to_string (N.of_nat i)) Hp) as (-> & Hd).
      destruct (String.eqb _ "__proto__") eqn:E; [| reflexivity].
      apply String.eqb_eq in E. rewrite E in Hd. discriminate.
    + pose proof (eq_trans (eq_sym E0) H) as X. discriminate X.
  - rewrite deflate_container by reflexivity. apply deflate_each_dotted; assumption.
  - rewrite deflate_container by reflexivity. apply deflate_each_dotted; assumption.
Qed.

Lemma deflate_each_root (l : props) :
  lookup l "__proto__" = None ->
  forall (res : props) (b : limit), deflate_each "" l res <> Beyond b.
Proof.
  induction l as [| [k v] l IHl]; intros Hl res b; cbn [deflate_each];
    [discriminate |].
  cbn [lookup] in Hl. destruct (String.eqb k "__proto__") eqn:Hk; [discriminate |].
  destruct (nullish v) eqn:Hn.
  - rewrite deflate_entry_null by exact Hn. discriminate.
  - rewrite deflate_entry_unfold by exact Hn. cbn [String.eqb].
    destruct (walked v).
    + destruct (deflate v (k +++ ".")) as [flat | e0 | b0] eqn:Hd; cbn [bind].
      * apply IHl, Hl.
      * discriminate.
      * exfalso. apply (deflate_dotted v (k +++ ".") b0); [| exact Hd].
        rewrite dotfree_app. apply andb_false_r.
    + destruct (put_props_cases res k v) as [(res' & ->) | (-> & _)];
        [| discriminate].
      cbn [bind]. apply IHl, Hl.
Qed.

Lemma deflate_root (T : jsvalue) (b : limit) :
  lookup (props_of T) "__proto__" = None -> deflate T "" <> Beyond b.
Proof.
  intros Hl. destruct T; try discriminate.
  - cbn [deflate]. intros H.
    destruct (deflate_chars_Ok "" s) with (i := 0) (res := @nil (string * jsvalue))
      as (res' & E0).
    + intros i. cbn [String.eqb].
      destruct (String.eqb _ "__proto__") eqn:E; [| reflexivity].
      apply String.eqb_eq in E.
      pose proof (inherited_index (N.of_nat i)) as Hi. rewrite E in Hi. discriminate.
    + pose proof (eq_trans (eq_sym E0) H) as X. discriminate X.
  - rewrite deflate_container by reflexivity. apply deflate_each_root, Hl.
  - rewrite deflate_container by reflexivity. apply deflate_each_root, Hl.
Qed.

(** X1: a configuration in which [deflate] meets a property whose value is
    [null] or [undefined] cannot be merged: [deflate], [deflateKeys] and
    [merge] throw a TypeError, from [Object.keys(json[key])]. *)
Theorem merge_rejects_null (T : jsvalue) :
  has_null T = true -> T <> VUndef ->
  lookup (props_of T) "__proto__" = None ->
  deflate T "" = Throw TypeError /\
  deflateKeys T = Throw TypeError /\
  forall fuel env envKeys, merge fuel env T envKeys = Throw TypeError.
Proof.
  intros Hn Hu Hl.
  assert (Hd : deflate T "" = Throw TypeError).
  { destruct (deflate_null T "" Hn) as [H | (b & H)]; [exact H |].
    exfalso. exact (deflate_root T b Hl H). }
  assert (Hk : deflateKeys T = Throw TypeError).
  { unfold deflateKeys. rewrite Hd. reflexivity. }
  split; [exact Hd |]. split; [exact Hk |].
  intros fuel env envKeys. unfold merge.
  replace (match T with VUndef => VObj [] | _ => T end) with T
    by (destruct T; try reflexivity; contradiction).
  rewrite Hk. reflexivity.
Qed.

Lemma merge_rejects_null_witness :
  deflate (VObj [("db", VObj [("host", VStr "h"); ("port", VNull)])]) ""
    = Throw TypeError /\
  deflateKeys (VObj [("db", VObj [("host", VStr "h"); ("port", VNull)])])
    = Throw TypeError /\
  forall fuel env envKeys,
    merge fuel env (VObj [("db", VObj [("host", VStr "h"); ("port", VNull)])]) envKeys
    = Throw TypeError.
Proof.
  apply (merge_rejects_null
           (VObj [("db", VObj [("host", VStr "h"); ("port", VNull)])]));
    [reflexivity | discriminate | reflexivity].
Defined.

(** X2: the only exception that [deflate] throws is the TypeError of
    [Object.keys] on [null] or [undefined], and it throws it only when it
    meets such a value. *)
Theorem deflate_throws_only_on_null (T : jsvalue) (p : string) (e : error) :
  deflate T p = Throw e -> e = TypeError /\ has_null T = true.
Proof. apply deflate_Throw. Qed.

Lemma deflate_throws_only_on_null_witness :
  TypeError = TypeError /\ has_null (VObj [("a", VNull)]) = true.
Proof.
  apply (deflate_throws_only_on_null (VObj [("a", VNull)]) "" TypeError).
  reflexivity.
Defined.
(* ================================================================= *)
(** * The receiver of a write in [_inflateItem] *)

Lemma or_empty_not_nullish (v : jsvalue) : nullish (or_empty v) = false.
Proof. apply truthy_not_nullish, or_empty_truthy. Qed.

Lemma target_not_nullish (key : string) (R : jsvalue) :
  nullish R = false -> nullish (fst (target key R)) = false.
Proof. intros Hn. unfold target. destruct (rebinds key R); [reflexivity | exact Hn]. Qed.

(* ================================================================= *)
(** * [inflate] returns *)

Lemma numeric_chars_app (a b : string) :
  numeric_chars (a +++ b) = numeric_chars a && numeric_chars b.
Proof.
  induction a as [| c a IH]; [reflexivity |].
  cbn [String.append numeric_chars]. rewrite IH. apply andb_assoc.
Qed.

Lemma numeric_chars_digits (s : string) : all_digits s = true -> numeric_chars s = true.
Proof.
  induction s as [| c s IH]; [reflexivity |]. cbn [all_digits numeric_chars].
  intros H. apply andb_prop in H. destruct H as (Hc & Hs).
  unfold numeric_char. rewrite Hc, (IH Hs). reflexivity.
Qed.

Lemma numeric_chars_zeros (n : nat) : numeric_chars (zeros n) = true.
Proof. induction n as [| n IH]; [reflexivity | exact IH]. Qed.

Lemma numeric_chars_substring (s : string) :
  numeric_chars s = true -> forall i n, numeric_chars (substring i n s) = true.
Proof.
  induction s as [| c s IH]; intros H i n.
  - destruct i, n; reflexivity.
  - cbn [numeric_chars] in H. apply andb_prop in H. destruct H as (Hc & Hs).
    destruct i as [| i]; cbn [substring].
    + destruct n as [| n]; [reflexivity |]. cbn [numeric_chars].
      rewrite Hc, (IH Hs). reflexivity.
    + apply IH, Hs.
Qed.

Lemma all_digits_strip (s : string) :
  all_digits s = true -> all_digits (strip_zeros_end s) = true.
Proof.
  induction s as [| c s IH]; [reflexivity |]. cbn [all_digits strip_zeros_end].
  intros H. apply andb_prop in H. destruct H as (Hc & Hs). specialize (IH Hs).
  destruct (strip_zeros_end s) as [| c' t].
  - destruct (Ascii.eqb c "0"); [reflexivity |]. cbn [all_digits]. rewrite Hc. reflexivity.
  - cbn [all_digits] in *. rewrite Hc, IH. reflexivity.
Qed.

Lemma Z_to_string_digits (z : Z) : all_digits (Z_to_string z) = true.
Proof. apply (N_to_string_digits (Z.to_N z)). Qed.

Lemma NumberToString_chars (m : Z) (s : nat) :
  numeric_chars (NumberToString (Dec m s)) = true.
Proof.
  cbn [NumberToString]. destruct (m =? 0)%Z; [reflexivity |]. cbv zeta.
  pose proof (numeric_chars_digits _ (all_digits_strip _ (Z_to_string_digits (Z.abs m))))
    as Hds.
  set (ds := strip_zeros_end (Z_to_string (Z.abs m))) in *.
  rewrite numeric_chars_app. apply andb_true_intro. split.
  { destruct (m <? 0)%Z; reflexivity. }
  repeat match goal with
         | |- context [if ?b then _ else _] => destruct b
         end;
    repeat rewrite numeric_chars_app;
    repeat (apply andb_true_intro; split);
    try reflexivity; try exact Hds;
    try apply numeric_chars_zeros; try (apply numeric_chars_substring, Hds);
    try (apply numeric_chars_digits, Z_to_string_digits).
  all: destruct ds as [| d [| d' rest]]; try reflexivity;
    cbn [numeric_chars] in Hds; apply andb_prop in Hds; destruct Hds as (Hd & Hr);
    cbn [String.append numeric_chars]; rewrite Hd; cbn [andb];
    repeat rewrite numeric_chars_app;
    repeat (apply andb_true_intro; split);
    try reflexivity; try exact Hr;
    try (apply numeric_chars_digits, Z_to_string_digits).
  all: apply andb_prop in Hr; destruct Hr as (Hd' & Hr'); assumption.
Qed.

Lemma numeric_not_inherited (k : string) : numeric_chars k = true -> inherited k = false.
Proof.
  intros H. destruct (inherited k) eqn:E; [| reflexivity].
  unfold inherited in E. rewrite existsb_exists in E. destruct E as (name & Hin & Hk).
  apply String.eqb_eq in Hk. subst name.
  assert (F : forallb (fun name => negb (numeric_chars name)) prototype_names = true)
    by reflexivity.
  rewrite forallb_forall in F. apply F in Hin. rewrite H in Hin. discriminate.
Qed.

Lemma NumberToString_not_inherited (x : number) : inherited (NumberToString x) = false.
Proof.
  destruct x as [| neg | m s]; [reflexivity | destruct neg; reflexivity |].
  apply numeric_not_inherited, NumberToString_chars.
Qed.

Lemma target_plain (key : string) (R : jsvalue) :
  inherited key = false -> inherited (snd (target key R)) = false.
Proof.
  intros Hk. unfold target.
  destruct (rebinds key R); [apply NumberToString_not_inherited | exact Hk].
Qed.

Lemma Get_plain (o : jsvalue) (k : string) :
  nullish o = false -> inherited k = false -> exists child, Get o k = Ok child.
Proof.
  intros Hn Hk.
  destruct o as [| | b | n | s | ps | len ps]; try discriminate; cbn [Get].
  - eexists. exact (miss_object k Hk).
  - eexists. exact (miss_number k Hk).
  - destruct (array_index k) as [i |].
    + destruct (String.get (N.to_nat i) s); eexists; reflexivity.
    + destruct (String.eqb k "length"); eexists;
        [reflexivity | exact (miss_string k Hk)].
  - destruct (lookup ps k); eexists; [reflexivity | exact (miss_object k Hk)].
  - destruct (lookup ps k); [eexists; reflexivity |].
    destruct (String.eqb k "length"); eexists;
      [reflexivity | exact (miss_array k Hk)].
Qed.

Lemma Put_plain (o : jsvalue) (k : string) (x : jsvalue) :
  nullish o = false -> inherited k = false -> exists o', Put o k x = Ok o'.
Proof.
  intros Hn Hk. destruct (is_container o) eqn:C; [apply Put_Ok; assumption |].
  destruct o; try discriminate; eexists; reflexivity.
Qed.

Lemma returned_plain (rest : list string) :
  forall (key : string) (v R : jsvalue),
    nullish R = false -> inherited key = false ->
    forallb (fun seg => negb (inherited seg)) rest = true ->
    exists r, returned (_inflateItem key rest v R) = Ok r.
Proof.
  induction rest as [| k rest IH]; intros key v R Hn Hk Hrest;
    rewrite (returned_inflateItem key _ v R Hn);
    pose proof (target_not_nullish key R Hn) as Ht;
    pose proof (target_plain key R Hk) as Hp;
    destruct (target key R) as [o k1]; cbn [fst snd] in Ht, Hp.
  - apply Put_plain; assumption.
  - cbn [forallb] in Hrest. apply andb_prop in Hrest. destruct Hrest as (Hk' & Hrest).
    apply negb_true_iff in Hk'.
    destruct (Get_plain o k1 Ht Hp) as (child & ->). cbn [bind].
    destruct (IH k v (or_empty child) (or_empty_not_nullish child) Hk' Hrest)
      as (sub & ->).
    cbn [bind]. apply Put_plain; assumption.
Qed.

Lemma Put_object (ps : props) (k : string) (x r : jsvalue) :
  Put (VObj ps) k x = Ok r -> exists ps', r = VObj ps'.
Proof.
  cbn [Put]. destruct (lookup ps k); [intros [= <-]; eexists; reflexivity |].
  destruct (String.eqb k "__proto__"); [discriminate |].
  intros [= <-]; eexists; reflexivity.
Qed.

Lemma target_object (key : string) (ps : props) :
  rebinds key (VObj ps) = false -> target key (VObj ps) = (VObj ps, key).
Proof. intros H. unfold target. rewrite H. reflexivity. Qed.

(** One step of the loop of [inflate] keeps the root a plain object. *)
Lemma inflate_step_object (ps : props) (kv : string * jsvalue) (R' : jsvalue) :
  inflate_step (Ok (VObj ps)) kv = Ok R' -> exists ps', R' = VObj ps'.
Proof.
  unfold inflate_step. cbn [bind].
  destruct (split "." (trim (fst kv))) as [k rest].
  rewrite inflateItem_returned.
  destruct (returned (_inflateItem k rest (snd kv) (VObj ps))) as [r | e1 | b1] eqn:E;
    cbn [bind]; try discriminate.
  intros [= <-]. destruct (rebinds k (VObj ps)) eqn:Hr; [eexists; reflexivity |].
  rewrite returned_inflateItem in E by reflexivity.
  rewrite (target_object k ps Hr) in E.
  destruct rest as [| k' rest].
  - exact (Put_object ps k _ r E).
  - destruct (Get (VObj ps) k) as [child | |]; cbn [bind] in E; try discriminate.
    destruct (returned (_inflateItem k' rest (snd kv) (or_empty child)));
      cbn [bind] in E; try discriminate.
    exact (Put_object ps k _ r E).
Qed.

Lemma inflate_step_plain (ps : props) (kv : string * jsvalue) :
  plain_path (fst kv) = true ->
  exists ps', inflate_step (Ok (VObj ps)) kv = Ok (VObj ps').
Proof.
  intros Hp.
  assert (H : exists R', inflate_step (Ok (VObj ps)) kv = Ok R').
  { unfold inflate_step. cbn [bind]. unfold plain_path in Hp.
    destruct (split "." (trim (fst kv))) as [k rest].
    cbn [forallb] in Hp. apply andb_prop in Hp. destruct Hp as (Hk & Hrest).
    apply negb_true_iff in Hk.
    rewrite inflateItem_returned.
    destruct (returned_plain rest k (snd kv) (VObj ps) eq_refl Hk Hrest) as (r & ->).
    cbn [bind]. eexists; reflexivity. }
  destruct H as (R' & H). destruct (inflate_step_object ps kv R' H) as (ps' & ->).
  exists ps'. exact H.
Qed.

(** X4: for a flat object none of whose key segments is the name of a
    prototype member, [inflate] returns, and what it returns is a plain
    object, never an array. *)
Theorem inflate_returns_object (obj : props) :
  forallb (fun kv => plain_path (fst kv)) obj = true ->
  exists ps : props, inflate obj = Ok (VObj ps).
Proof.
  unfold inflate. generalize (@nil (string * jsvalue)) as ps0.
  induction obj as [| kv obj IH]; intros ps0 H; cbn [fold_left].
  - exists ps0. reflexivity.
  - cbn [forallb] in H. apply andb_prop in H. destruct H as (Hkv & Hobj).
    destruct (inflate_step_plain ps0 kv Hkv) as (ps' & ->). apply IH, Hobj.
Qed.

Lemma inflate_returns_object_witness :
  exists ps : props,
    inflate [("a.b", VStr "1"); ("a.0", VStr "2"); (" 7.x ", VStr "3");
             ("a.b.c", VStr "4")] = Ok (VObj ps).
Proof.
  apply (inflate_returns_object
           [("a.b", VStr "1"); ("a.0", VStr "2"); (" 7.x ", VStr "3");
            ("a.b.c", VStr "4")]).
  reflexivity.
Defined.

(* ================================================================= *)
(** * Property lists in own-property order *)

Lemma lookup_define_other {A : Type} (ps : list (string * A)) (k k' : string) (x : A) :
  String.eqb k' k = false -> lookup (define ps k x) k' = lookup ps k'.
Proof.
  intros Hne. induction ps as [| [k0 v0] ps IH]; cbn [define lookup].
  - rewrite String.eqb_sym, Hne. reflexivity.
  - destruct (String.eqb k0 k) eqn:E0.
    + apply String.eqb_eq in E0. subst k0. cbn [lookup].
      rewrite String.eqb_sym, Hne. reflexivity.
    + assert (Hins : lookup ((k, x) :: (k0, v0) :: ps) k' = lookup ((k0, v0) :: ps) k').
      { cbn [lookup]. rewrite (String.eqb_sym k k'), Hne. reflexivity. }
      assert (Hskip : lookup ((k0, v0) :: define ps k x) k' = lookup ((k0, v0) :: ps) k').
      { cbn [lookup]. rewrite IH. reflexivity. }
      destruct (array_index k) as [i |]; [| exact Hskip].
      destruct (array_index k0) as [i0 |]; [| exact Hins].
      destruct (i <? i0)%N; [exact Hins | exact Hskip].
Qed.

Lemma lookup_define {A : Type} (ps : list (string * A)) (k k' : string) (x : A) :
  lookup (define ps k x) k' = if String.eqb k' k then Some x else lookup ps k'.
Proof.
  destruct (String.eqb k' k) eqn:E.
  - apply String.eqb_eq in E. subst k'.
    induction ps as [| [k0 v0] ps IH]; cbn [define lookup].
    + rewrite String.eqb_refl. reflexivity.
    + destruct (String.eqb k0 k) eqn:E0.
      * cbn [lookup]. rewrite String.eqb_refl. reflexivity.
      * assert (Hins : lookup ((k, x) :: (k0, v0) :: ps) k = Some x).
        { cbn [lookup]. rewrite String.eqb_refl. reflexivity. }
        assert (Hskip : lookup ((k0, v0) :: define ps k x) k = Some x).
        { cbn [lookup]. rewrite E0. exact IH. }
        destruct (array_index k) as [i |]; [| exact Hskip].
        destruct (array_index k0) as [i0 |]; [| exact Hins].
        destruct (i <? i0)%N; [exact Hins | exact Hskip].
  - apply lookup_define_other, E.
Qed.

Lemma define_In {A : Type} (ps : list (string * A)) (k : string) (x : A) (k' : string) :
  In k' (map fst (define ps k x)) -> k' = k \/ In k' (map fst ps).
Proof.
  induction ps as [| [k0 v0] ps IH]; cbn [define map fst In].
  - intros [H | []]. left. symmetry. exact H.
  - assert (Hins : In k' (map fst ((k, x) :: (k0, v0) :: ps)) ->
                   k' = k \/ k0 = k' \/ In k' (map fst ps)).
    { cbn [map fst In]. intros [H | H]; [left; symmetry; exact H | right; exact H]. }
    assert (Hskip : In k' (map fst ((k0, v0) :: define ps k x)) ->
                    k' = k \/ k0 = k' \/ In k' (map fst ps)).
    { cbn [map fst In]. intros [H | H]; [right; left; exact H |].
      destruct (IH H) as [H1 | H1]; [left; exact H1 | right; right; exact H1]. }
    destruct (String.eqb k0 k) eqn:E0.
    + apply String.eqb_eq in E0. subst k0. cbn [map fst In].
      intros [H | H]; [left; symmetry; exact H | right; right; exact H].
    + destruct (array_index k) as [i |]; [| exact Hskip].
      destruct (array_index k0) as [i0 |]; [| exact Hins].
      destruct (i <? i0)%N; [exact Hins | exact Hskip].
Qed.

Lemma before_spec (k k' : string) :
  before k k' = true <->
  k <> k' /\
  forall i', array_index k' = Some i' ->
             exists i, array_index k = Some i /\ (i < i')%N.
Proof.
  unfold before. rewrite andb_true_iff, negb_true_iff, String.eqb_neq.
  split; intros (Hne & H); (split; [exact Hne |]).
  - intros i' Hi'. rewrite Hi' in H. destruct (array_index k) as [i |]; [| discriminate].
    exists i. split; [reflexivity | apply N.ltb_lt, H].
  - destruct (array_index k') as [i' |]; [| reflexivity].
    destruct (H i' eq_refl) as (i & -> & Hlt). apply N.ltb_lt, Hlt.
Qed.

Lemma array_index_inj (k k' : string) (i : N) :
  array_index k = Some i -> array_index k' = Some i -> k = k'.
Proof.
  intros H H'. apply array_index_Some in H, H'. destruct H as (-> & _), H' as (-> & _).
  reflexivity.
Qed.

Lemma ordered_cons (k : string) (ks : list string) :
  ordered (k :: ks) = true <->
  (forall k', In k' ks -> before k k' = true) /\ ordered ks = true.
Proof. cbn [ordered]. rewrite andb_true_iff, forallb_forall. reflexivity. Qed.

(** Writing a property keeps the order. *)
Lemma define_ordered {A : Type} (ps : list (string * A)) (k : string) (x : A) :
  ordered (map fst ps) = true -> ordered (map fst (define ps k x)) = true.
Proof.
  induction ps as [| [k0 v0] ps IH]; intros Ho; [reflexivity |].
  cbn [map fst] in Ho. apply ordered_cons in Ho. destruct Ho as (Hb & Ho).
  cbn [define]. destruct (String.eqb k0 k) eqn:E0.
  { apply String.eqb_eq in E0. subst k0. cbn [map fst]. apply ordered_cons.
    split; assumption. }
  apply String.eqb_neq in E0.
  assert (Hskip : (forall i, array_index k = Some i ->
                             exists i0, array_index k0 = Some i0 /\ (i0 < i)%N) ->
                  ordered (map fst ((k0, v0) :: define ps k x)) = true).
  { intros Hk. cbn [map fst]. apply ordered_cons. split; [| apply IH, Ho].
    intros k' Hin. apply define_In in Hin. destruct Hin as [-> | Hin]; [| apply Hb, Hin].
    apply before_spec. split; [exact E0 | exact Hk]. }
  assert (Hins : (forall k', In k' (k0 :: map fst ps) -> before k k' = true) ->
                 ordered (map fst ((k, x) :: (k0, v0) :: ps)) = true).
  { intros Hk. cbn [map fst]. apply ordered_cons. split; [exact Hk |].
    apply ordered_cons. split; assumption. }
  destruct (array_index k) as [i |] eqn:Hi.
  - destruct (array_index k0) as [i0 |] eqn:Hi0.
    + destruct (i <? i0)%N eqn:L.
      * apply N.ltb_lt in L. apply Hins. intros k' [<- | Hin].
        -- apply before_spec. split; [congruence |].
           intros i' Hi'. rewrite Hi0 in Hi'. injection Hi' as <-.
           exists i. split; [exact Hi | exact L].
        -- specialize (Hb k' Hin). apply before_spec in Hb. destruct Hb as (Hne & Hb).
           apply before_spec. split.
           ++ intros <-. destruct (Hb i Hi) as (i1 & Hi1 & Hlt).
              rewrite Hi0 in Hi1. injection Hi1 as <-. lia.
           ++ intros i' Hi'. destruct (Hb i' Hi') as (i1 & Hi1 & Hlt).
              rewrite Hi0 in Hi1. injection Hi1 as <-.
              exists i. split; [exact Hi | lia].
      * apply N.ltb_ge in L. apply Hskip. intros i1 [= <-].
        exists i0. split; [reflexivity |].
        assert (i0 <> i) by (intros ->; apply E0; exact (array_index_inj _ _ _ Hi0 Hi)).
        lia.
    + apply Hins. intros k' Hin.
      assert (Hk' : array_index k' = None).
      { destruct Hin as [<- | Hin]; [exact Hi0 |].
        specialize (Hb k' Hin). apply before_spec in Hb. destruct Hb as (_ & Hb).
        destruct (array_index k') as [i' |]; [| reflexivity].
        destruct (Hb i' eq_refl) as (i1 & Hi1 & _). rewrite Hi0 in Hi1. discriminate. }
      apply before_spec. split; [congruence |]. intros i' Hi'. congruence.
  - apply Hskip. intros i0; discriminate.
Qed.

(** Writing to a property the value that it has changes nothing. *)
Lemma define_same {A : Type} (ps : list (string * A)) (k : string) (x : A) :
  ordered (map fst ps) = true -> lookup ps k = Some x -> define ps k x = ps.
Proof.
  induction ps as [| [k0 v0] ps IH]; intros Ho Hl; [discriminate |].
  cbn [map fst] in Ho. apply ordered_cons in Ho. destruct Ho as (Hb & Ho).
  cbn [lookup] in Hl. cbn [define]. destruct (String.eqb k0 k) eqn:E0.
  { apply String.eqb_eq in E0. injection Hl as <-. subst k0. reflexivity. }
  assert (Hin : In k (map fst ps)).
  { clear - Hl. induction ps as [| [k1 v1] ps IH]; [discriminate |].
    cbn [lookup] in Hl. destruct (String.eqb k1 k) eqn:E1.
    - apply String.eqb_eq in E1. left. exact E1.
    - right. apply IH, Hl. }
  specialize (Hb k Hin). apply before_spec in Hb. destruct Hb as (_ & Hb).
  rewrite (IH Ho Hl).
  destruct (array_index k) as [i |]; [| reflexivity].
  destruct (Hb i eq_refl) as (i0 & -> & Hlt).
  destruct (i <? i0)%N eqn:L; [apply N.ltb_lt in L; lia | reflexivity].
Qed.

(* ================================================================= *)
(** * A string in the way of a nested key *)

Lemma Put_define (ps : props) (k : string) (x r : jsvalue) :
  Put (VObj ps) k x = Ok r -> r = VObj (define ps k x).
Proof.
  cbn [Put]. destruct (lookup ps k); [intros [= <-]; reflexivity |].
  destruct (String.eqb k "__proto__"); [discriminate | intros [= <-]; reflexivity].
Qed.

(** The loop of [inflate] keeps the properties of the root in order. *)
Lemma inflate_step_ordered (ps : props) (kv : string * jsvalue) (ps' : props) :
  ordered (map fst ps) = true ->
  inflate_step (Ok (VObj ps)) kv = Ok (VObj ps') ->
  ordered (map fst ps') = true.
Proof.
  intros Ho. unfold inflate_step. cbn [bind].
  destruct (split "." (trim (fst kv))) as [k rest].
  rewrite inflateItem_returned.
  destruct (returned (_inflateItem k rest (snd kv) (VObj ps))) as [r | e1 | b1] eqn:E;
    cbn [bind]; try discriminate.
  destruct (rebinds k (VObj ps)) eqn:Hr; [intros [= <-]; exact Ho |].
  intros [= ->].
  rewrite returned_inflateItem in E by reflexivity.
  rewrite (target_object k ps Hr) in E.
  assert (G : exists x, VObj ps' = VObj (define ps k x)).
  { destruct rest as [| k' rest].
    - eexists. exact (Put_define ps k _ _ E).
    - destruct (Get (VObj ps) k) as [child | |]; cbn [bind] in E; try discriminate.
      destruct (returned (_inflateItem k' rest (snd kv) (or_empty child)));
        cbn [bind] in E; try discriminate.
      eexists. exact (Put_define ps k _ _ E). }
  destruct G as (x & [= ->]). apply define_ordered, Ho.
Qed.

Lemma inflate_fold_ordered (l : props) :
  forall ps ps' : props,
    ordered (map fst ps) = true ->
    fold_left inflate_step l (Ok (VObj ps)) = Ok (VObj ps') ->
    ordered (map fst ps') = true.
Proof.
  induction l as [| kv l IH]; intros ps ps' Ho H; cbn [fold_left] in H.
  - injection H as <-. exact Ho.
  - destruct (inflate_step (Ok (VObj ps)) kv) as [R | e | b] eqn:E.
    + destruct (inflate_step_object ps kv R E) as (ps1 & ->).
      apply (IH ps1 ps'); [| exact H].
      exact (inflate_step_ordered ps kv ps1 Ho E).
    + rewrite inflate_failed in H by (intros R; discriminate). discriminate.
    + rewrite inflate_failed in H by (intros R; discriminate). discriminate.
Qed.

Lemma inflate_ordered (obj ps : props) :
  inflate obj = Ok (VObj ps) -> ordered (map fst ps) = true.
Proof. apply (inflate_fold_ordered obj []). reflexivity. Qed.

(** A call of [_inflateItem] on a string that is not empty returns the
    string: the writes to its properties are dropped. *)
Lemma returned_string (rest : list string) (key : string) (v : jsvalue) (s : string) :
  s <> "" -> inherited key = false ->
  forallb (fun seg => negb (inherited seg)) rest = true ->
  returned (_inflateItem key rest v (VStr s)) = Ok (VStr s).
Proof.
  intros Hs Hk Hrest.
  rewrite returned_inflateItem by reflexivity.
  assert (Hr : rebinds key (VStr s) = false).
  { apply rebinds_nonempty. destruct s; [contradiction | discriminate]. }
  unfold target. rewrite Hr.
  destruct rest as [| k rest]; [reflexivity |].
  cbn [forallb] in Hrest. apply andb_prop in Hrest. destruct Hrest as (Hk' & Hrest).
  apply negb_true_iff in Hk'.
  destruct (Get_plain (VStr s) key eq_refl Hk) as (child & ->). cbn [bind].
  destruct (returned_plain rest k v (or_empty child) (or_empty_not_nullish child) Hk' Hrest)
    as (sub & ->).
  reflexivity.
Qed.

(** X5: once a key [k0] holds a string that is not empty, a later flat
    key [k0.k1...] that goes through it, and whose segments after [k0] are
    not names of prototype members, is dropped: [inflate] returns what it
    returned without that key, because a write to a property of a string
    is discarded. *)
Theorem inflate_string_blocks_nested_key
    (pre ps : props) (key k0 k1 : string) (rest : list string) (s : string)
    (v : jsvalue) :
  inflate pre = Ok (VObj ps) ->
  lookup ps k0 = Some (VStr s) -> s <> "" ->
  split "." (trim key) = (k0, k1 :: rest) ->
  forallb (fun seg => negb (inherited seg)) (k1 :: rest) = true ->
  inflate (pre ++ [(key, v)]) = Ok (VObj ps).
Proof.
  intros Hpre Hl Hs Hsplit Hplain.
  pose proof (inflate_ordered pre ps Hpre) as Ho.
  unfold inflate in *. rewrite fold_left_app, Hpre. cbn [fold_left].
  unfold inflate_step. cbn [bind fst snd]. rewrite Hsplit.
  rewrite inflateItem_returned, returned_inflateItem by reflexivity.
  assert (Hr : rebinds k0 (VObj ps) = false).
  { apply rebinds_nonempty. destruct ps; [discriminate | discriminate]. }
  rewrite Hr. unfold target. rewrite Hr. cbn [Get]. rewrite Hl. cbn [bind].
  rewrite or_empty_id by (cbn; destruct s; [contradiction | reflexivity]).
  cbn [forallb] in Hplain. apply andb_prop in Hplain. destruct Hplain as (Hk1 & Hrest).
  apply negb_true_iff in Hk1.
  rewrite (returned_string rest k1 v s Hs Hk1 Hrest). cbn [bind Put]. rewrite Hl.
  cbn [bind]. rewrite (define_same ps k0 (VStr s) Ho Hl). reflexivity.
Qed.

Lemma inflate_string_blocks_nested_key_witness :
  inflate ([("db", VStr "sqlite"); ("port", VStr "80")] ++ [("db.host", VStr "h")])
  = Ok (VObj [("db", VStr "sqlite"); ("port", VStr "80")]).
Proof.
  apply (inflate_string_blocks_nested_key
           [("db", VStr "sqlite"); ("port", VStr "80")]
           [("db", VStr "sqlite"); ("port", VStr "80")]
           "db.host" "db" "host" [] "sqlite" (VStr "h"));
    [reflexivity | reflexivity | discriminate | reflexivity | reflexivity].
Defined.

(* ================================================================= *)
(** * [inflate] after [deflate] *)

Lemma Put_last (ss : props) (k : string) (x : jsvalue) :
  writes false k = true -> appends (map fst ss) k = true ->
  Put (VObj ss) k x = Ok (VObj (ss ++ [(k, x)])).
Proof.
  intros Hi Ha.
  destruct (Put_appends_at (VObj ss) k x eq_refl Hi Ha) as (o' & HP & _ & _ & Hp).
  rewrite HP. apply Put_define in HP. subst o'. cbn [props_of] in Hp.
  rewrite Hp. reflexivity.
Qed.

Lemma plain_child (ss : props) (k : string) (x : jsvalue) :
  appends (map fst ss) k = true -> writes false k = true ->
  isNaN (StringToNumber k) = true ->
  walked x = false \/
  (reads false k = true /\
   walked x = true /\ entries x <> [] /\ insert_all (entries x) (VObj []) = Ok x) ->
  insert_all (if walked x then map (under k) (entries x) else [(k, [], x)]) (VObj ss)
  = Ok (VObj (ss ++ [(k, x)])).
Proof.
  intros Ha Hi Hn Hx.
  assert (Hr : rebinds k (VObj ss) = false) by (unfold rebinds; rewrite Hn; reflexivity).
  assert (Ht : target k (VObj ss) = (VObj ss, k)) by (unfold target; rewrite Hr; reflexivity).
  destruct Hx as [Hw | (Hrd & Hw & Hne & Hins)]; rewrite Hw.
  - rewrite insert_all_cons. cbn [fst snd].
    rewrite returned_inflateItem by reflexivity. rewrite Ht.
    cbn [insert_all fold_left].
    rewrite (Put_last ss k x Hi Ha). reflexivity.
  - rewrite (insert_all_under k (entries x) (VObj ss) Hne eq_refl)
      by (rewrite ?Ht; first [exact Hi | left; exact Hr]).
    rewrite Ht. cbn [fst].
    rewrite (Get_absent_at (VObj ss) k eq_refl Hrd (lookup_None_appends _ _ Ha)).
    cbn [bind]. change (or_empty VUndef) with (VObj []). rewrite Hins. cbn [bind].
    apply Put_last; assumption.
Qed.

Lemma plain_children (l : props) :
  Forall (fun kv => roundtrips (snd kv) = true -> plain (snd kv) = true ->
                    insert_all (entries (snd kv)) (VObj []) = Ok (snd kv)) l ->
  forall ss : props,
    canonical_from (map fst ss) (map fst l) = true ->
    children_ok false l = true -> plain_each l = true ->
    insert_all (entries_each l) (VObj ss) = Ok (VObj (ss ++ l)).
Proof.
  induction l as [| [k x] l IH]; intros HF ss Hcan Hok Hpl.
  - cbn. rewrite app_nil_r. reflexivity.
  - cbn [map fst canonical_from] in Hcan. apply andb_prop in Hcan.
    destruct Hcan as (Ha & Hcan).
    destruct (children_ok_cons _ _ _ _ Hok) as (_ & Hkey & Hx & Hl & _).
    cbn [plain_each] in Hpl. apply andb_prop in Hpl. destruct Hpl as (Hpl & Hpl').
    apply andb_prop in Hpl. destruct Hpl as (Hn & Hpx).
    inversion HF as [| ? ? HFx HFl]; subst. cbn [snd] in HFx.
    cbn [entries_each]. rewrite insert_all_app.
    rewrite (plain_child ss k x Ha Hkey Hn).
    + cbn [bind]. rewrite (IH HFl (ss ++ [(k, x)])); [| | exact Hl | exact Hpl'].
      * rewrite <- app_assoc. reflexivity.
      * rewrite map_app. exact Hcan.
    + destruct (scalar x) eqn:Hs.
      * left. apply scalar_not_walked, Hs.
      * right. cbn [orb] in Hpx.
        destruct Hx as [Hx | (Hrd & Hx)]; [discriminate |].
        destruct (roundtrips_container x Hx) as (Hcx & Hkx).
        split; [exact Hrd |].
        split; [apply container_walked; assumption |].
        split; [exact (proj1 (build_tree x Hx)) | exact (HFx Hx Hpx)].
Qed.

Lemma plain_tree (T : jsvalue) :
  roundtrips T = true -> plain T = true ->
  insert_all (entries T) (VObj []) = Ok T.
Proof.
  induction T as [v Hv | ps IH | len ps IH] using jsvalue_nested_ind; intros HT Hp.
  - destruct v; discriminate.
  - destruct (roundtrips_unfold _ HT) as (k1 & v1 & l & Hps & _ & Hcan & Hok).
    cbn [props_of] in Hps, Hcan, Hok.
    assert (Hn : numeric k1 = false).
    { subst ps. cbn [plain] in Hp. apply andb_prop in Hp. destruct Hp as (Hp & _).
      apply andb_prop in Hp. destruct Hp as (Hp & _).
      unfold numeric. rewrite Hp. reflexivity. }
    rewrite Hn in Hok.
    exact (plain_children ps IH [] Hcan Hok Hp).
  - discriminate.
Qed.

(** X18: let [T] be a non-empty plain object, in own-property order,
    whose values are strings, numbers, booleans or objects of the same
    kind (no array, no empty object).  No key contains a dot or parses as
    a number; no key of [T] itself begins with white space, and no key
    that holds a string, a number or a boolean ends with white space; no
    key is [__proto__], and no key that holds an object is the name of a
    member of [Object.prototype].  Then [inflate] undoes [deflate]:
    inflating the flat object gives [T] back. *)
Theorem inflate_undoes_deflate (T : jsvalue) :
  roundtrips T = true -> root_ok T = true -> plain T = true ->
  exists flat : props, deflate T "" = Ok flat /\ inflate flat = Ok T.
Proof.
  intros HT Hroot Hp.
  destruct (roundtrips_unfold _ HT) as (k1 & v1 & l & Hps & _ & Hcan & Hok).
  destruct (roundtrips_container T HT) as (Hc & _).
  pose proof (entries_path_ok T HT Hroot) as Hpaths.
  apply andb_prop in Hroot. destruct Hroot as (Hr & _).
  exists (map (dotted "") (entries T)). split.
  - apply (deflate_flat T HT).
    + apply flat_keys_NoDup; [apply entries_NoDup, HT | exact Hpaths].
    + rewrite (entries_container T Hc). apply (flat_keys_ok (numeric k1)); [exact Hok |].
      apply root_nonindex; assumption.
  - unfold inflate.
    rewrite (inflate_flat (entries T) (VObj []) eq_refl); [apply plain_tree; assumption | | exact Hpaths].
    destruct (entries_head T HT) as (e & es & v1' & l' & He & Hp').
    rewrite He. unfold root_first in Hr. rewrite Hp' in Hr.
    unfold rebinds. rewrite Hr. reflexivity.
Qed.

Lemma inflate_undoes_deflate_witness :
  exists flat : props,
    deflate (VObj [("db", VObj [("host", VStr "h"); ("port", VNum (Dec 5432 0))]);
                   ("debug", VBool false)]) "" = Ok flat /\
    inflate flat
    = Ok (VObj [("db", VObj [("host", VStr "h"); ("port", VNum (Dec 5432 0))]);
                ("debug", VBool false)]).
Proof.
  apply (inflate_undoes_deflate
           (VObj [("db", VObj [("host", VStr "h"); ("port", VNum (Dec 5432 0))]);
                  ("debug", VBool false)])); reflexivity.
Defined.

(* ================================================================= *)
(** * [mergeEnvObject], key by key *)

Lemma put_props_define (res : props) (k : string) (x : jsvalue) (res' : props) :
  put_props res k x = Ok res' -> res' = define res k x.
Proof.
  unfold put_props. destruct (Put (VObj res) k x) as [r | |] eqn:E; cbn [bind];
    try discriminate.
  apply Put_define in E. subst r. intros [= <-]. reflexivity.
Qed.

Lemma dedup_In (l : list string) (k : string) : In k (dedup l) <-> In k l.
Proof.
  induction l as [| a l IH]; [reflexivity |]. cbn [dedup In].
  rewrite filter_In, IH, negb_true_iff, String.eqb_neq.
  destruct (string_dec a k) as [-> | Hne]; [tauto |].
  split; [tauto |]. intros [H | H]; [contradiction |]. right. split; [exact H | congruence].
Qed.

Section Pointwise.

Variable rec : jsvalue -> jsvalue -> option string -> outcome jsvalue.
Variables D E : jsvalue.

(** The loop of [mergeEnvObject]: every key met holds the merge of the two
    values read under it; the other keys are left alone. *)
Lemma merge_loop (keys : list string) :
  forall res0 res : props,
    fold_left
      (fun acc key =>
         result <- acc ;;
         dj <- Get D key ;;
         ej <- Get E key ;;
         r <- rec dj ej None ;;
         put_props result key r)%js
      keys (Ok res0) = Ok res ->
    (forall k, In k keys ->
       exists dj ej x,
         Get D k = Ok dj /\ Get E k = Ok ej /\ rec dj ej None = Ok x /\
         lookup res k = Some x) /\
    (forall k, ~ In k keys -> lookup res k = lookup res0 k).
Proof.
  induction keys as [| key keys IH] using rev_ind; intros res0 res H.
  - cbn in H. injection H as <-. split; [intros k [] | reflexivity].
  - rewrite fold_left_app in H. cbn [fold_left] in H.
    apply bind_Ok in H. destruct H as (res1 & H1 & H).
    apply bind_Ok in H. destruct H as (dj & Hd & H).
    apply bind_Ok in H. destruct H as (ej & He & H).
    apply bind_Ok in H. destruct H as (x & Hx & H).
    apply put_props_define in H. subst res.
    destruct (IH res0 res1 H1) as (Hin & Hout). split.
    + intros k Hk. rewrite lookup_define.
      destruct (String.eqb k key) eqn:Ek.
      * apply String.eqb_eq in Ek. subst k. exists dj, ej, x. repeat split; assumption.
      * apply in_app_or in Hk. destruct Hk as [Hk | [Hk | []]].
        -- exact (Hin k Hk).
        -- subst k. rewrite String.eqb_refl in Ek. discriminate.
    + intros k Hk. rewrite lookup_define.
      destruct (String.eqb k key) eqn:Ek.
      * apply String.eqb_eq in Ek. subst k. exfalso. apply Hk, in_or_app.
        right. left. reflexivity.
      * apply Hout. intros Hk'. apply Hk, in_or_app. left. exact Hk'.
Qed.

End Pointwise.

Lemma mergeEnvObject_each
    (fuel : nat) (ds : props) (E r : jsvalue) :
  is_container E = true ->
  mergeEnvObject fuel (VObj ds) E = Ok r ->
  exists rs : props,
    r = VObj rs /\
    forall k : string,
      (In k (map fst ds ++ own_keys E) ->
       exists dj ej x,
         Get (VObj ds) k = Ok dj /\ Get E k = Ok ej /\
         mergeEnvJsonValue fuel dj ej None = Ok x /\ lookup rs k = Some x) /\
      (~ In k (map fst ds ++ own_keys E) -> lookup rs k = None).
Proof.
  intros HE H. unfold mergeEnvObject, mergeEnvObject_body in H.
  assert (Hn : nullish E = false) by (destruct E; try discriminate; reflexivity).
  assert (Ht : String.eqb (typeof E) "object" = true)
    by (destruct E; try discriminate; reflexivity).
  rewrite Hn, Ht in H. cbn [negb bind] in H.
  rewrite (Object_keys_Ok (VObj ds) eq_refl), (Object_keys_Ok E Hn) in H.
  cbn [bind own_keys] in H.
  apply bind_Ok in H. destruct H as (rs & Hloop & H). injection H as <-.
  exists rs. split; [reflexivity |].
  destruct (merge_loop (mergeEnvJsonValue fuel) (VObj ds) E _ _ _ Hloop) as (Hin & Hout).
  intros k. split.
  - intros Hk. apply Hin, dedup_In, Hk.
  - intros Hk. rewrite Hout; [reflexivity |]. intros Hk'. apply Hk, dedup_In, Hk'.
Qed.

(** X6: when [mergeEnvObject] returns for an object of defaults and an
    object or array of environment values, no key of which is the name of
    a prototype member, the result is a new object whose keys are those of
    the two; under each of them it holds the value of [mergeEnvJsonValue]
    on the two values read under that key.  (A key such as [__proto__] or
    [constructor] is left out: written to the result, or read where it is
    not an own property, it reaches the prototype.) *)
Theorem mergeEnvObject_pointwise
    (fuel : nat) (ds : props) (E r : jsvalue) :
  is_container E = true ->
  forallb (fun k => negb (inherited k)) (map fst ds ++ own_keys E) = true ->
  mergeEnvObject fuel (VObj ds) E = Ok r ->
  exists rs : props,
    r = VObj rs /\
    forall k : string,
      (In k (map fst ds ++ own_keys E) ->
       exists dj ej x,
         Get (VObj ds) k = Ok dj /\ Get E k = Ok ej /\
         mergeEnvJsonValue fuel dj ej None = Ok x /\ lookup rs k = Some x) /\
      (~ In k (map fst ds ++ own_keys E) -> lookup rs k = None).
Proof. intros HE _ H. exact (mergeEnvObject_each fuel ds E r HE H). Qed.

Lemma mergeEnvObject_pointwise_witness :
  exists rs : props,
    VObj [("a", VNum (Dec 7 0)); ("b", VBool true); ("c", VStr "x")] = VObj rs /\
    forall k : string,
      (In k (map fst [("a", VNum (Dec 1 0)); ("b", VBool true)] ++
             own_keys (VObj [("a", VStr "7"); ("c", VStr "x")])) ->
       exists dj ej x,
         Get (VObj [("a", VNum (Dec 1 0)); ("b", VBool true)]) k = Ok dj /\
         Get (VObj [("a", VStr "7"); ("c", VStr "x")]) k = Ok ej /\
         mergeEnvJsonValue 1 dj ej None = Ok x /\ lookup rs k = Some x) /\
      (~ In k (map fst [("a", VNum (Dec 1 0)); ("b", VBool true)] ++
               own_keys (VObj [("a", VStr "7"); ("c", VStr "x")])) ->
       lookup rs k = None).
Proof.
  apply (mergeEnvObject_pointwise 1
           [("a", VNum (Dec 1 0)); ("b", VBool true)]
           (VObj [("a", VStr "7"); ("c", VStr "x")])
           (VObj [("a", VNum (Dec 7 0)); ("b", VBool true); ("c", VStr "x")]));
    reflexivity.
Defined.

(* ================================================================= *)
(** * The loop of [mergeEnvObject] on keys in order *)

Lemma ordered_app (l1 l2 : list string) :
  ordered (l1 ++ l2) = true <->
  ordered l1 = true /\ ordered l2 = true /\
  forall a b, In a l1 -> In b l2 -> before a b = true.
Proof.
  induction l1 as [| k l1 IH]; cbn [app].
  - split; [intros H; repeat split; [exact H | intros a b []] | intros (_ & H & _); exact H].
  - rewrite !ordered_cons, IH. split.
    + intros (Hb & H1 & H2 & H12). repeat split; try assumption.
      * intros k' Hk'. apply Hb, in_or_app. left. exact Hk'.
      * intros a b [<- | Ha] Hb'; [apply Hb, in_or_app; right; exact Hb' |].
        apply H12; assumption.
    + intros ((Hb & H1) & H2 & H12). repeat split; try assumption.
      * intros k' Hk'. apply in_app_or in Hk'. destruct Hk' as [Hk' | Hk'].
        -- apply Hb, Hk'.
        -- apply H12; [left; reflexivity | exact Hk'].
      * intros a b Ha Hb'. apply H12; [right; exact Ha | exact Hb'].
Qed.

Lemma before_irrefl (k k' : string) : before k k' = true -> k <> k'.
Proof. intros H. apply before_spec in H. apply H. Qed.

Lemma ordered_NoDup (ks : list string) : ordered ks = true -> NoDup ks.
Proof.
  induction ks as [| k ks IH]; intros H; [constructor |].
  apply ordered_cons in H. destruct H as (Hb & Ho). constructor; [| apply IH, Ho].
  intros Hin. exact (before_irrefl k k (Hb k Hin) eq_refl).
Qed.

Lemma dedup_NoDup (l : list string) : NoDup l -> dedup l = l.
Proof.
  induction 1 as [| k l Hk Hl IH]; [reflexivity |]. cbn [dedup]. rewrite IH. f_equal.
  clear - Hk. induction l as [| a l IH]; [reflexivity |]. cbn [filter].
  destruct (String.eqb a k) eqn:E.
  - apply String.eqb_eq in E. subst a. exfalso. apply Hk. left. reflexivity.
  - cbn [negb]. f_equal. apply IH. intros Hin. apply Hk. right. exact Hin.
Qed.

(** A key that comes after all the keys of a list is written at its
    end. *)
Lemma define_last {A : Type} (pre : list (string * A)) (k : string) (x : A) :
  (forall k0, In k0 (map fst pre) -> before k0 k = true) ->
  define pre k x = pre ++ [(k, x)].
Proof.
  induction pre as [| [k0 v0] pre IH]; intros Hb; [reflexivity |].
  cbn [define app]. pose proof (Hb k0 (or_introl eq_refl)) as H0.
  apply before_spec in H0. destruct H0 as (Hne & H0).
  apply String.eqb_neq in Hne. rewrite Hne.
  rewrite IH by (intros k1 Hk1; apply Hb; right; exact Hk1).
  destruct (array_index k) as [i |]; [| reflexivity].
  destruct (H0 i eq_refl) as (i0 & -> & Hlt).
  destruct (i <? i0)%N eqn:L; [apply N.ltb_lt in L; lia | reflexivity].
Qed.

Lemma lookup_app_None {A : Type} (l1 l2 : list (string * A)) (k : string) :
  ~ In k (map fst l1) -> lookup (l1 ++ l2) k = lookup l2 k.
Proof.
  induction l1 as [| [k0 v0] l1 IH]; intros Hk; [reflexivity |].
  cbn [app lookup]. destruct (String.eqb k0 k) eqn:E.
  - apply String.eqb_eq in E. exfalso. apply Hk. left. exact E.
  - apply IH. intros Hin. apply Hk. right. exact Hin.
Qed.

Section Ordered.

Variable rec : jsvalue -> jsvalue -> option string -> outcome jsvalue.
Variables D E : jsvalue.

Lemma merge_loop_failed (keys : list string) (m : outcome props) :
  (forall res, m <> Ok res) ->
  fold_left
    (fun acc key =>
       result <- acc ;;
       dj <- Get D key ;;
       ej <- Get E key ;;
       r <- rec dj ej None ;;
       put_props result key r)%js
    keys m = m.
Proof.
  intros Hm. induction keys as [| k keys IH]; [reflexivity |]. cbn [fold_left].
  destruct m as [res | e | b]; [exfalso; exact (Hm res eq_refl) | exact IH | exact IH].
Qed.

Lemma merge_loop_ordered (keys : list string) :
  forall res : props,
    ordered (map fst res ++ keys) = true ->
    forallb (fun k => negb (inherited k)) keys = true ->
    fold_left
      (fun acc key =>
         result <- acc ;;
         dj <- Get D key ;;
         ej <- Get E key ;;
         r <- rec dj ej None ;;
         put_props result key r)%js
      keys (Ok res)
    = (rs <- merge_each rec D E keys ;; Ok (res ++ rs))%js.
Proof.
  induction keys as [| k keys IH]; intros res Ho Hp; cbn [fold_left merge_each].
  - cbn [bind]. rewrite app_nil_r. reflexivity.
  - cbn [forallb] in Hp. apply andb_prop in Hp. destruct Hp as (Hk & Hp).
    apply negb_true_iff in Hk. cbn [bind].
    destruct (Get D k) as [dj | e | b]; cbn [bind];
      try (apply merge_loop_failed; discriminate).
    destruct (Get E k) as [ej | e | b]; cbn [bind];
      try (apply merge_loop_failed; discriminate).
    destruct (rec dj ej None) as [x | e | b]; cbn [bind];
      try (apply merge_loop_failed; discriminate).
    assert (Hput : put_props res k x = Ok (res ++ [(k, x)])).
    { unfold put_props.
      destruct (Put_Ok (VObj res) k x eq_refl Hk) as (o' & Ho').
      rewrite Ho'. cbn [bind]. apply Put_define in Ho'. subst o'.
      rewrite define_last; [reflexivity |].
      intros k0 Hk0. apply ordered_app in Ho. destruct Ho as (_ & _ & H12).
      apply H12; [exact Hk0 | left; reflexivity]. }
    rewrite Hput. rewrite IH.
    + destruct (merge_each rec D E keys) as [rs | e | b]; cbn [bind]; try reflexivity.
      rewrite <- app_assoc. reflexivity.
    + rewrite map_app, <- app_assoc. exact Ho.
    + exact Hp.
Qed.

End Ordered.

(* ================================================================= *)
(** * [merge] when the environment sets nothing *)

Lemma lookup_In_NoDup {A : Type} (ps : list (string * A)) (k : string) (v : A) :
  NoDup (map fst ps) -> In (k, v) ps -> lookup ps k = Some v.
Proof.
  induction ps as [| [k0 v0] ps IH]; intros Hnd Hin; [destruct Hin |].
  cbn [map fst] in Hnd. inversion Hnd as [| ? ? Hk0 Hnd']; subst.
  cbn [lookup]. destruct Hin as [[= -> ->] | Hin].
  - rewrite String.eqb_refl. reflexivity.
  - destruct (String.eqb k0 k) eqn:E; [| apply IH; assumption].
    apply String.eqb_eq in E. subst k0. exfalso. apply Hk0.
    apply (in_map fst) in Hin. exact Hin.
Qed.

(** The loop of [merge] over keys that the environment does not set. *)
Lemma collect_unset (env : environment) (allKeys : list string) (res : props) :
  forallb (unset env) allKeys = true ->
  fold_left
    (fun acc key =>
       envConfig <- acc ;;
       envValue <- env_get env key ;;
       match envValue with
       | Some v => put_props envConfig key (VStr v)
       | None => Ok envConfig
       end)%js
    allKeys (Ok res) = Ok res.
Proof.
  induction allKeys as [| k ks IH]; intros H; [reflexivity |].
  cbn [forallb] in H. apply andb_prop in H. destruct H as (Hk & Hks).
  cbn [fold_left bind]. unfold unset in Hk.
  destruct (env_get env k) as [[v |] | |]; try discriminate. cbn [bind].
  apply IH, Hks.
Qed.

Lemma merge_each_defaults (fuel : nat) (ps post : props) :
  (forall k v, In (k, v) post -> lookup ps k = Some v /\ inherited k = false) ->
  merge_each (mergeEnvJsonValue (S fuel)) (VObj ps) (VObj []) (map fst post) = Ok post.
Proof.
  induction post as [| [k v] post IH]; intros H; [reflexivity |].
  cbn [map fst merge_each].
  destruct (H k v (or_introl eq_refl)) as (Hl & Hk).
  cbn [Get lookup]. rewrite Hl, (miss_object k Hk). cbn [bind].
  rewrite mergeEnvJsonValue_falsy by reflexivity. cbn [bind].
  rewrite IH by (intros k' v' Hin; apply H; right; exact Hin). reflexivity.
Qed.

(** An object of defaults merged with an empty object is returned as a
    new object with the same properties. *)
Lemma mergeEnvObject_empty (fuel : nat) (ps : props) :
  ordered (map fst ps) = true ->
  forallb (fun k => negb (inherited k)) (map fst ps) = true ->
  mergeEnvObject (S fuel) (VObj ps) (VObj []) = Ok (VObj ps).
Proof.
  intros Ho Hp. unfold mergeEnvObject, mergeEnvObject_body.
  cbn [nullish typeof String.eqb Ascii.eqb Bool.eqb negb bind Object_keys own_keys map].
  rewrite app_nil_r, (dedup_NoDup _ (ordered_NoDup _ Ho)).
  match goal with |- bind ?m _ = _ => assert (L : m = Ok ps) end.
  { etransitivity;
      [exact (merge_loop_ordered (mergeEnvJsonValue (S fuel)) (VObj ps) (VObj [])
                (map fst ps) [] Ho Hp) |].
    rewrite merge_each_defaults; [reflexivity |].
    intros k v Hin. split.
    - apply lookup_In_NoDup; [apply ordered_NoDup, Ho | exact Hin].
    - rewrite forallb_forall in Hp. apply negb_true_iff, Hp.
      apply (in_map fst) in Hin. exact Hin. }
  rewrite L. reflexivity.
Qed.

(** X7: when the environment sets none of the keys read, [merge] returns
    a new object equal to the defaults. *)
Theorem merge_without_overrides
    (fuel : nat) (env : environment) (ps : props) (envKeys : option (list string))
    (keys : list string) :
  deflateKeys (VObj ps) = Ok keys ->
  forallb (unset env)
    (keys ++ match envKeys with
             | Some ks => ks
             | None => filter (selected keys) (map fst env)
             end) = true ->
  ordered (map fst ps) = true ->
  forallb (fun k => negb (inherited k)) (map fst ps) = true ->
  merge (S fuel) env (VObj ps) envKeys = Ok (VObj ps).
Proof.
  intros Hk Hu Ho Hp. unfold merge. rewrite Hk. cbn [bind].
  match goal with
  | |- bind ?m _ = _ =>
      assert (L : m = Ok []) by exact (collect_unset env _ [] Hu); rewrite L
  end.
  cbn [bind].
  change (inflate []) with (Ok (VObj [])). cbn [bind].
  apply mergeEnvObject_empty; assumption.
Qed.

Lemma merge_without_overrides_witness :
  merge 1 [("HOME", "/root"); ("db.user", "")]
    (VObj [("db", VObj [("host", VStr "h"); ("ports", array_of [VNum (Dec 1 0)])]);
           ("debug", VBool false)])
    None
  = Ok (VObj [("db", VObj [("host", VStr "h"); ("ports", array_of [VNum (Dec 1 0)])]);
              ("debug", VBool false)]).
Proof.
  apply (merge_without_overrides 0 [("HOME", "/root"); ("db.user", "")]
           [("db", VObj [("host", VStr "h"); ("ports", array_of [VNum (Dec 1 0)])]);
            ("debug", VBool false)]
           None ["db.host"; "db.ports.0"; "debug"]); reflexivity.
Defined.

(* ================================================================= *)
(** * [merge] on a flat configuration *)

Lemma put_props_last (res : props) (k : string) (x : jsvalue) :
  inherited k = false ->
  (forall k0, In k0 (map fst res) -> before k0 k = true) ->
  put_props res k x = Ok (res ++ [(k, x)]).
Proof.
  intros Hk Hb. unfold put_props.
  destruct (Put_Ok (VObj res) k x eq_refl Hk) as (o' & Ho').
  rewrite Ho'. cbn [bind]. apply Put_define in Ho'. subst o'.
  rewrite define_last by exact Hb. reflexivity.
Qed.

Lemma ordered_last (pre : list string) (k : string) (rest : list string) :
  ordered (pre ++ k :: rest) = true ->
  forall k0, In k0 pre -> before k0 k = true.
Proof.
  intros Ho k0 Hk0. apply ordered_app in Ho. destruct Ho as (_ & _ & H12).
  apply H12; [exact Hk0 | left; reflexivity].
Qed.

Lemma ordered_remove (pre : list string) (k : string) (rest : list string) :
  ordered (pre ++ k :: rest) = true -> ordered (pre ++ rest) = true.
Proof.
  intros Ho. apply ordered_app in Ho. destruct Ho as (H1 & H2 & H12).
  apply ordered_cons in H2. destruct H2 as (_ & H2).
  apply ordered_app. repeat split; try assumption.
  intros a b Ha Hb. apply H12; [exact Ha | right; exact Hb].
Qed.

Lemma ordered_shift (pre : list string) (k : string) (rest : list string) :
  ordered (pre ++ k :: rest) = true -> ordered ((pre ++ [k]) ++ rest) = true.
Proof. rewrite <- app_assoc. exact (fun H => H). Qed.

Lemma flat_key_parts (k : string) :
  flat_key k = true ->
  trim k = k /\ split "." k = (k, []) /\ inherited k = false /\
  isNaN (StringToNumber k) = true.
Proof.
  unfold flat_key. intros H. apply andb_prop in H. destruct H as (Hk & Hn).
  pose proof Hk as Hk'. apply key_ok_parts in Hk'.
  destruct Hk' as (Hd & Hh & Hl & Hi).
  repeat split; try assumption.
  - apply trim_id. unfold trimmed. rewrite Hh, Hl. reflexivity.
  - apply split_dotfree, Hd.
Qed.

(** Step 1: [deflate] on leaves. *)
Lemma deflate_each_leaves (l : props) :
  forall res : props,
    ordered (map fst res ++ map fst l) = true ->
    forallb (fun '(k, d) => flat_key k && negb (nullish d) && negb (walked d)) l = true ->
    deflate_each "" l res = Ok (res ++ l).
Proof.
  induction l as [| [k d] l IH]; intros res Ho Hl; cbn [deflate_each].
  - rewrite app_nil_r. reflexivity.
  - cbn [forallb] in Hl. apply andb_prop in Hl. destruct Hl as (Hkd & Hl).
    apply andb_prop in Hkd. destruct Hkd as (Hkd & Hw).
    apply andb_prop in Hkd. destruct Hkd as (Hk & Hn).
    apply negb_true_iff in Hw, Hn.
    destruct (flat_key_parts k Hk) as (_ & _ & Hi & _).
    rewrite deflate_entry_unfold by exact Hn. rewrite Hw. cbn [String.eqb].
    cbn [map fst] in Ho.
    rewrite put_props_last by (try exact Hi; exact (ordered_last _ _ _ Ho)).
    cbn [bind]. rewrite IH; [rewrite <- app_assoc; reflexivity | | exact Hl].
    rewrite map_app. cbn [map fst]. apply ordered_shift, Ho.
Qed.

Lemma deflateKeys_flat (ps : props) :
  flat_config ps = true -> deflateKeys (VObj ps) = Ok (map fst ps).
Proof.
  unfold flat_config. intros H. apply andb_prop in H. destruct H as (Ho & Hl).
  unfold deflateKeys. rewrite deflate_container by reflexivity. cbn [props_of].
  rewrite (deflate_each_leaves ps [] Ho Hl). reflexivity.
Qed.

(** Step 2: the flat object of the variables that are set. *)
Lemma env_get_plain (env : environment) (k : string) :
  inherited k = false -> env_get env k = Ok (lookup env k).
Proof.
  intros Hk. unfold env_get. destruct (lookup env k); [reflexivity |].
  rewrite (member_inherited object_members k eq_refl Hk). reflexivity.
Qed.

Lemma collect_picked (env : environment) (rest : list string) :
  forall res : props,
    ordered (map fst res ++ rest) = true ->
    forallb flat_key rest = true ->
    fold_left
      (fun acc key =>
         envConfig <- acc ;;
         envValue <- env_get env key ;;
         match envValue with
         | Some v => put_props envConfig key (VStr v)
         | None => Ok envConfig
         end)%js
      rest (Ok res) = Ok (res ++ picked env rest).
Proof.
  induction rest as [| k rest IH]; intros res Ho Hf; cbn [fold_left picked].
  - rewrite app_nil_r. reflexivity.
  - cbn [forallb] in Hf. apply andb_prop in Hf. destruct Hf as (Hk & Hf).
    destruct (flat_key_parts k Hk) as (_ & _ & Hi & _).
    cbn [bind]. rewrite (env_get_plain env k Hi). cbn [bind].
    destruct (lookup env k) as [s |].
    + rewrite put_props_last by (try exact Hi; exact (ordered_last _ _ _ Ho)).
      rewrite IH; [rewrite <- app_assoc; reflexivity | | exact Hf].
      rewrite map_app. cbn [map fst]. apply ordered_shift, Ho.
    + apply IH; [exact (ordered_remove _ _ _ Ho) | exact Hf].
Qed.

Lemma picked_ordered (env : environment) (keys : list string) :
  forall pre : list string,
    ordered (pre ++ keys) = true ->
    ordered (pre ++ map fst (picked env keys)) = true.
Proof.
  induction keys as [| k keys IH]; intros pre Ho; [exact Ho |].
  cbn [picked]. destruct (lookup env k) as [s |].
  - cbn [map fst]. specialize (IH (pre ++ [k]) (ordered_shift _ _ _ Ho)).
    rewrite <- app_assoc in IH. exact IH.
  - apply IH. exact (ordered_remove _ _ _ Ho).
Qed.

Lemma picked_incl (env : environment) (keys : list string) (k : string) :
  In k (map fst (picked env keys)) -> In k keys.
Proof.
  induction keys as [| k0 keys IH]; [intros [] |]. cbn [picked].
  destruct (lookup env k0); cbn [map fst In]; [intros [H | H] | intros H];
    [left; exact H | right; exact (IH H) | right; exact (IH H)].
Qed.

Lemma lookup_picked (env : environment) (keys : list string) (k : string) :
  In k keys ->
  lookup (picked env keys) k =
    match lookup env k with Some s => Some (VStr s) | None => None end.
Proof.
  induction keys as [| k0 keys IH]; [intros [] |]. intros Hin. cbn [picked].
  destruct (String.eqb k0 k) eqn:E.
  - apply String.eqb_eq in E. subst k0.
    destruct (lookup env k) as [s |] eqn:L.
    + cbn [lookup]. rewrite String.eqb_refl. reflexivity.
    + destruct (in_dec string_dec k keys) as [Hk | Hk].
      * exact (IH Hk).
      * destruct (lookup (picked env keys) k) eqn:L'; [| reflexivity].
        exfalso. apply Hk, (picked_incl env).
        clear - L'. induction (picked env keys) as [| [k1 v1] l IHl]; [discriminate |].
        cbn [lookup] in L'. destruct (String.eqb k1 k) eqn:E1.
        -- apply String.eqb_eq in E1. left. exact E1.
        -- right. apply IHl, L'.
  - assert (Hk : In k keys).
    { destruct Hin as [-> | H]; [rewrite String.eqb_refl in E; discriminate | exact H]. }
    destruct (lookup env k0); [cbn [lookup]; rewrite E |]; apply IH, Hk.
Qed.

(** Step 3: [inflate] on flat keys. *)
Lemma inflate_flat_keys (l : props) :
  forall res : props,
    ordered (map fst res ++ map fst l) = true ->
    forallb flat_key (map fst l) = true ->
    fold_left inflate_step l (Ok (VObj res)) = Ok (VObj (res ++ l)).
Proof.
  induction l as [| [k v] l IH]; intros res Ho Hf; cbn [fold_left].
  - rewrite app_nil_r. reflexivity.
  - cbn [map fst forallb] in Ho, Hf. apply andb_prop in Hf. destruct Hf as (Hk & Hf).
    destruct (flat_key_parts k Hk) as (Ht & Hs & Hi & Hn).
    assert (Hstep : inflate_step (Ok (VObj res)) (k, v) = Ok (VObj (res ++ [(k, v)]))).
    { unfold inflate_step. cbn [bind fst snd]. rewrite Ht, Hs.
      rewrite inflateItem_returned, returned_inflateItem by reflexivity.
      assert (Hr : rebinds k (VObj res) = false) by (unfold rebinds; rewrite Hn; reflexivity).
      unfold target. rewrite Hr.
      destruct (Put_Ok (VObj res) k v eq_refl Hi) as (o' & Ho').
      rewrite Ho'. cbn [bind]. apply Put_define in Ho'. subst o'.
      rewrite define_last by exact (ordered_last _ _ _ Ho). reflexivity. }
    rewrite Hstep. rewrite IH; [rewrite <- app_assoc; reflexivity | | exact Hf].
    rewrite map_app. cbn [map fst]. apply ordered_shift, Ho.
Qed.

(** Step 4: the keys of the merge are the keys of the defaults. *)
Lemma filter_filter_keys (k : string) (l X : list string) :
  filter (fun k' => negb (String.eqb k' k))
    (filter (fun x => negb (existsb (String.eqb x) l)) X)
  = filter (fun x => negb (existsb (String.eqb x) (k :: l))) X.
Proof.
  induction X as [| x X IH]; [reflexivity |]. cbn [filter existsb].
  destruct (existsb (String.eqb x) l) eqn:El; cbn [negb].
  - rewrite orb_true_r. cbn [negb]. exact IH.
  - cbn [filter]. rewrite orb_false_r. destruct (String.eqb x k); cbn [negb];
      [exact IH | f_equal; exact IH].
Qed.

Lemma dedup_app (l l' : list string) :
  dedup (l ++ l') =
    dedup l ++ filter (fun x => negb (existsb (String.eqb x) l)) (dedup l').
Proof.
  induction l as [| k l IH]; cbn [app dedup].
  - cbn [existsb negb]. symmetry. clear. induction (dedup l') as [| x X IH]; [reflexivity |].
    cbn [filter]. f_equal. exact IH.
  - rewrite IH, filter_app, filter_filter_keys. reflexivity.
Qed.

Lemma dedup_app_incl (l l' : list string) :
  NoDup l -> (forall k, In k l' -> In k l) -> dedup (l ++ l') = l.
Proof.
  intros Hnd Hincl. rewrite dedup_app, (dedup_NoDup l Hnd).
  assert (F : filter (fun x => negb (existsb (String.eqb x) l)) (dedup l') = []).
  { assert (G : forall x, In x (dedup l') -> In x l)
      by (intros x Hx; apply Hincl, dedup_In, Hx).
    induction (dedup l') as [| x X IH]; [reflexivity |]. cbn [filter].
    assert (Ex : existsb (String.eqb x) l = true).
    { apply existsb_exists. exists x. split; [apply G; left; reflexivity |].
      apply String.eqb_refl. }
    rewrite Ex. cbn [negb]. apply IH. intros y Hy. apply G. right. exact Hy. }
  rewrite F. apply app_nil_r.
Qed.

Lemma merge_each_override (fuel : nat) (env : environment) (ps pk post : props) :
  (forall k d, In (k, d) post ->
     lookup ps k = Some d /\ inherited k = false /\
     lookup pk k = match lookup env k with Some s => Some (VStr s) | None => None end) ->
  merge_each (mergeEnvJsonValue fuel) (VObj ps) (VObj pk) (map fst post)
  = override fuel env post.
Proof.
  induction post as [| [k d] post IH]; intros H; [reflexivity |].
  cbn [map fst merge_each override].
  destruct (H k d (or_introl eq_refl)) as (Hl & Hk & Hp).
  cbn [Get]. rewrite Hl, Hp. cbn [bind]. unfold env_value.
  rewrite IH by (intros k' d' Hin; apply H; right; exact Hin).
  destruct (lookup env k) as [s |]; [reflexivity |].
  rewrite (miss_object k Hk). reflexivity.
Qed.

(** X8: a flat configuration is an object, in own-property order, whose
    values are neither [null], [undefined] nor containers that have keys,
    and whose keys are single segments (no dot) without white space at
    either end, that do not parse as numbers and are not names of prototype
    members.  On a flat configuration, when every key chosen besides those
    of the defaults (the [envKeys] given, or the names selected) is unset
    in the environment and is not the name of a member of
    [Object.prototype], [merge] overrides the defaults one by one: the
    result holds under each key the value of [mergeEnvJsonValue] on the
    default and on the string that the environment holds under that key,
    and the first failure is the failure of [merge]. *)
Theorem merge_flat_config
    (fuel : nat) (env : environment) (ps : props) (envKeys : option (list string)) :
  flat_config ps = true ->
  forallb (unset env)
    match envKeys with
    | Some ks => ks
    | None => filter (selected (map fst ps)) (map fst env)
    end = true ->
  merge (S fuel) env (VObj ps) envKeys
  = (rs <- override (S fuel) env ps ;; Ok (VObj rs))%js.
Proof.
  intros Hflat Hu. pose proof (deflateKeys_flat ps Hflat) as Hkeys.
  unfold flat_config in Hflat. apply andb_prop in Hflat. destruct Hflat as (Ho & Hl).
  assert (Hf : forallb flat_key (map fst ps) = true).
  { clear - Hl. induction ps as [| [k d] ps IH]; [reflexivity |].
    cbn [forallb map fst] in *. apply andb_prop in Hl. destruct Hl as (Hkd & Hl).
    apply andb_prop in Hkd. destruct Hkd as (Hkd & _).
    apply andb_prop in Hkd. destruct Hkd as (Hk & _).
    rewrite Hk, (IH Hl). reflexivity. }
  assert (Hplain : forallb (fun k => negb (inherited k)) (map fst ps) = true).
  { clear - Hf. induction (map fst ps) as [| k ks IH]; [reflexivity |].
    cbn [forallb] in *. apply andb_prop in Hf. destruct Hf as (Hk & Hf).
    destruct (flat_key_parts k Hk) as (_ & _ & -> & _). exact (IH Hf). }
  unfold merge. rewrite Hkeys. cbn [bind].
  match goal with
  | |- bind ?m _ = _ =>
      assert (L : m = Ok (picked env (map fst ps)));
      [| rewrite L]
  end.
  { rewrite fold_left_app.
    etransitivity; [| exact (collect_unset env _ (picked env (map fst ps)) Hu)].
    f_equal. exact (collect_picked env (map fst ps) [] Ho Hf). }
  cbn [bind].
  assert (Hinf : inflate (picked env (map fst ps)) = Ok (VObj (picked env (map fst ps)))).
  { unfold inflate. apply (inflate_flat_keys _ []).
    - exact (picked_ordered env (map fst ps) [] Ho).
    - apply forallb_forall. intros k Hk. rewrite forallb_forall in Hf.
      apply Hf, (picked_incl env), Hk. }
  rewrite Hinf. cbn [bind].
  unfold mergeEnvObject, mergeEnvObject_body.
  cbn [nullish typeof String.eqb Ascii.eqb Bool.eqb negb bind Object_keys own_keys].
  rewrite (dedup_app_incl _ _ (ordered_NoDup _ Ho) (picked_incl env (map fst ps))).
  match goal with
  | |- bind ?m _ = _ =>
      assert (L2 : m = override (S fuel) env ps); [| rewrite L2; reflexivity]
  end.
  etransitivity;
    [exact (merge_loop_ordered (mergeEnvJsonValue (S fuel)) (VObj ps)
              (VObj (picked env (map fst ps))) (map fst ps) [] Ho Hplain) |].
  rewrite (merge_each_override (S fuel) env ps (picked env (map fst ps)) ps).
  - destruct (override (S fuel) env ps); reflexivity.
  - intros k d Hin. split; [| split].
    + apply lookup_In_NoDup; [apply ordered_NoDup, Ho | exact Hin].
    + rewrite forallb_forall in Hplain. apply negb_true_iff, Hplain.
      apply (in_map fst) in Hin. exact Hin.
    + apply lookup_picked. apply (in_map fst) in Hin. exact Hin.
Qed.

Lemma merge_flat_config_witness :
  merge 1 [("port", " 9090 "); ("HOME", "/root"); ("debug", "true"); ("tags", "")]
    (VObj [("port", VNum (Dec 8080 0)); ("debug", VBool false); ("name", VStr "app");
           ("tags", VArr 0 [])])
    None
  = Ok (VObj [("port", VNum (Dec 9090 0)); ("debug", VBool true); ("name", VStr "app");
              ("tags", VArr 0 [])]).
Proof.
  apply (merge_flat_config 0
           [("port", " 9090 "); ("HOME", "/root"); ("debug", "true"); ("tags", "")]
           [("port", VNum (Dec 8080 0)); ("debug", VBool false); ("name", VStr "app");
            ("tags", VArr 0 [])]
           None); reflexivity.
Defined.

(* ================================================================= *)
(** * Defaults that are objects or arrays, and JSON text *)

Lemma Object_keys_Throw (o : jsvalue) (e : error) :
  Object_keys o = Throw e -> e = TypeError.
Proof. destruct o; cbn; try discriminate; intros [= <-]; reflexivity. Qed.

Lemma Object_keys_not_Beyond (o : jsvalue) (b : limit) : Object_keys o <> Beyond b.
Proof. destruct o; cbn; discriminate. Qed.

(** X9: for a default that is an object, an environment string is read
    as JSON text: an object or an array is merged, [null] makes
    [Object.keys] throw a TypeError, any other value is an invalid JSON
    string, and a text that does not parse fails as [JSON.parse] does.
    For a default that is an array, the text must denote an array. *)
Theorem json_text_for_object_and_array_defaults
    (fuel : nat) (s : string) (ty : option string) :
  s <> "" ->
  (forall ds : props,
      mergeEnvJsonValue (S fuel) (VObj ds) (VStr s) ty =
        match JSON_parse s with
        | Ok v =>
            if is_container v then mergeEnvObject fuel (VObj ds) v
            else match v with
                 | VNull => Throw TypeError
                 | _ => Throw InvalidJsonString
                 end
        | Throw e => Throw e
        | Beyond b => Beyond b
        end) /\
  (forall (len : N) (ds : props),
      mergeEnvJsonValue (S fuel) (VArr len ds) (VStr s) ty =
        match JSON_parse s with
        | Ok v =>
            if isArray v then mergeEnvArray fuel (VArr len ds) v
            else Throw InvalidJsonArrayString
        | Throw e => Throw e
        | Beyond b => Beyond b
        end).
Proof.
  intros Hs.
  assert (Ht : truthy (VStr s) = true) by (destruct s; [contradiction | reflexivity]).
  split.
  - intros ds. cbn [mergeEnvJsonValue]. rewrite Ht.
    cbn [nullish negb typeof or_type isArray orb String.eqb Ascii.eqb Bool.eqb].
    unfold mergeEnvObject, mergeEnvObject_body.
    cbn [nullish typeof negb String.eqb Ascii.eqb Bool.eqb ToString].
    destruct (JSON_parse s) as [v | e | b]; cbn [bind]; try reflexivity.
    destruct v as [| | b | n | t | ps | len ps]; reflexivity.
  - intros len ds. cbn [mergeEnvJsonValue]. rewrite Ht.
    cbn [nullish negb typeof or_type isArray orb String.eqb Ascii.eqb Bool.eqb].
    unfold mergeEnvArray, mergeEnvArray_body.
    cbn [nullish typeof negb String.eqb Ascii.eqb Bool.eqb ToString isArray].
    destruct (JSON_parse s) as [v | e | b]; cbn [bind]; try reflexivity.
    destruct v as [| | b | n | t | ps | len' ps]; reflexivity.
Qed.

Lemma json_text_for_object_and_array_defaults_witness :
  mergeEnvJsonValue 2 (VObj [("a", VNum (Dec 1 0))]) (VStr "null") None
    = Throw TypeError /\
  mergeEnvJsonValue 2 (VArr 1 [("0", VNum (Dec 1 0))]) (VStr "{}") None
    = Throw InvalidJsonArrayString.
Proof.
  split.
  - exact (proj1 (json_text_for_object_and_array_defaults 1 "null" None
                    ltac:(discriminate)) [("a", VNum (Dec 1 0))]).
  - exact (proj2 (json_text_for_object_and_array_defaults 1 "{}" None
                    ltac:(discriminate)) 1%N [("0", VNum (Dec 1 0))]).
Defined.

(* ================================================================= *)
(** * The type of a default *)

Lemma Array_map_array (f : jsvalue -> N -> outcome jsvalue) (a r : jsvalue) :
  Array_map f a = Ok r -> exists len rs, r = VArr len rs.
Proof.
  destruct a as [| | b | n | s | ps | len ps]; cbn [Array_map]; try discriminate.
  destruct (map_elements f ps); cbn [bind]; try discriminate.
  intros [= <-]. eexists _, _. reflexivity.
Qed.

Lemma isArray_array (v : jsvalue) : isArray v = true -> exists len rs, v = VArr len rs.
Proof. destruct v; try discriminate. intros _. eexists _, _. reflexivity. Qed.

(** X10: [mergeEnvJsonValue] keeps the type of a default that is a
    number, a boolean, an object or an array: what it returns for a number
    is a number, the default or one that is not NaN; for a boolean a
    boolean; for an object an object; for an array an array. *)
Theorem merge_keeps_type_of_default
    (fuel : nat) (D E : jsvalue) (ty : option string) (r : jsvalue) :
  mergeEnvJsonValue fuel D E ty = Ok r ->
  match D with
  | VNum d => exists n, r = VNum n /\ (n = d \/ isNaN n = false)
  | VBool _ => exists b, r = VBool b
  | VObj _ => exists rs, r = VObj rs
  | VArr _ _ => exists len rs, r = VArr len rs
  | _ => True
  end.
Proof.
  destruct fuel as [| fuel]; [discriminate |]. cbn [mergeEnvJsonValue].
  destruct (truthy E) eqn:Ht.
  2:{ intros [= <-]. destruct D; try exact I.
      - eexists; reflexivity.
      - eexists; split; [reflexivity | left; reflexivity].
      - eexists; reflexivity.
      - eexists _, _; reflexivity. }
  pose proof (truthy_not_nullish E Ht) as Hn.
  destruct D as [| | b | d | s | ds | len ds]; try (intros _; exact I);
    cbn [nullish negb typeof or_type isArray orb String.eqb Ascii.eqb Bool.eqb].
  - destruct (JSON_parse (ToString E)) as [v | |]; cbn [bind]; try discriminate.
    destruct v; try discriminate. intros [= <-]. eexists; reflexivity.
  - destruct (isNaN (ToNumber E)) eqn:En; [discriminate |].
    intros [= <-]. eexists; split; [reflexivity | right; exact En].
  - unfold mergeEnvObject_body. rewrite Hn.
    match goal with
    | |- bind ?m _ = _ -> _ => destruct m as [ev | |]; cbn [bind]; try discriminate
    end.
    destruct (Object_keys ev) as [ekeys | |]; cbn [Object_keys own_keys bind];
      try discriminate.
    match goal with
    | |- bind ?m _ = _ -> _ => destruct m as [rs | |]; cbn [bind]; try discriminate
    end.
    intros [= <-]. eexists; reflexivity.
  - unfold mergeEnvArray_body. rewrite Hn.
    match goal with
    | |- bind ?m _ = _ -> _ =>
        assert (Hev : forall ev, m = Ok ev -> isArray ev = true);
        [| destruct m as [ev | |]; cbn [bind]; try discriminate]
    end.
    { intros ev. destruct (isArray E) eqn:Ea; cbn [negb].
      - intros [= <-]. exact Ea.
      - destruct (String.eqb (typeof E) "string"); [| discriminate].
        destruct (JSON_parse (ToString E)) as [tmp | |]; cbn [bind]; try discriminate.
        destruct (isArray tmp) eqn:Et; [| discriminate]. intros [= <-]. exact Et. }
    cbn [length_of bind]. destruct (0 <? len)%N.
    + destruct (Get (VArr len ds) "0") as [d0 | |]; cbn [bind]; try discriminate.
      destruct (length_of ev) as [elen | |]; cbn [bind]; try discriminate.
      destruct (len <? elen)%N; apply Array_map_array.
    + intros [= <-]. apply isArray_array, Hev. reflexivity.
Qed.

Lemma merge_keeps_type_of_default_witness :
  exists n, VNum (Dec 16 0) = VNum n /\ (n = Dec 8080 0 \/ isNaN n = false).
Proof.
  apply (merge_keeps_type_of_default 1 (VNum (Dec 8080 0)) (VStr "0x10") None
           (VNum (Dec 16 0))).
  reflexivity.
Defined.

(* ================================================================= *)
(** * An array that has no default *)

Lemma before_index (a b : N) :
  (a < b)%N -> (b < 4294967295)%N -> before (N_to_string a) (N_to_string b) = true.
Proof.
  intros Hab Hb. apply before_spec. split.
  - intros H. apply N_to_string_inj in H. lia.
  - intros i' Hi'. rewrite array_index_N_to_string in Hi' by exact Hb.
    injection Hi' as <-. exists a. split; [| exact Hab].
    apply array_index_N_to_string. lia.
Qed.

Lemma indexed_keys (l : list jsvalue) :
  forall (j : N) (k : string),
    In k (map fst (indexed j l)) ->
    exists i, k = N_to_string i /\ (j <= i < j + N.of_nat (List.length l))%N.
Proof.
  induction l as [| x l IH]; intros j k; [intros [] |]. cbn [indexed map fst In].
  intros [<- | H].
  - exists j. split; [reflexivity |]. cbn [List.length]. lia.
  - destruct (IH _ _ H) as (i & -> & Hi). exists i. split; [reflexivity |].
    cbn [List.length]. lia.
Qed.

Lemma indexed_ordered (l : list jsvalue) :
  forall j : N,
    (j + N.of_nat (List.length l) <= 4294967295)%N ->
    ordered (map fst (indexed j l)) = true.
Proof.
  induction l as [| x l IH]; intros j Hj; [reflexivity |].
  cbn [indexed map fst]. cbn [List.length] in Hj. apply ordered_cons. split.
  - intros k Hk. apply indexed_keys in Hk. destruct Hk as (i & -> & Hi).
    apply before_index; lia.
  - apply IH. lia.
Qed.

Lemma indexed_plain (l : list jsvalue) (j : N) :
  forallb (fun k => negb (inherited k)) (map fst (indexed j l)) = true.
Proof.
  apply forallb_forall. intros k Hk. apply indexed_keys in Hk.
  destruct Hk as (i & -> & _). rewrite inherited_index. reflexivity.
Qed.

Lemma merge_each_env_only
    (rec : jsvalue -> jsvalue -> option string -> outcome jsvalue)
    (A : jsvalue) (post : props) :
  (forall k v, In (k, v) post ->
     Get A k = Ok v /\ inherited k = false /\ rec VUndef v None = Ok v) ->
  merge_each rec (VObj []) A (map fst post) = Ok post.
Proof.
  induction post as [| [k v] post IH]; intros H; [reflexivity |].
  cbn [map fst merge_each].
  destruct (H k v (or_introl eq_refl)) as (Hg & Hk & Hr).
  cbn [Get lookup]. rewrite (miss_object k Hk), Hg. cbn [bind]. rewrite Hr. cbn [bind].
  rewrite IH by (intros k' v' Hin; apply H; right; exact Hin). reflexivity.
Qed.

Lemma indexed_strings (es : list string) (j : N) (k : string) (v : jsvalue) :
  forallb (fun s => negb (String.eqb s "")) es = true ->
  In (k, v) (indexed j (map VStr es)) -> exists s, v = VStr s /\ s <> "".
Proof.
  revert j. induction es as [| s es IH]; intros j Hes; [intros [] |].
  cbn [forallb] in Hes. apply andb_prop in Hes. destruct Hes as (Hs & Hes).
  cbn [map indexed In]. intros [[= <- <-] | H].
  - exists s. split; [reflexivity |]. apply String.eqb_neq, negb_true_iff, Hs.
  - exact (IH _ Hes H).
Qed.

(** X11: an array of strings that has no default is returned as a plain
    object with the indices as keys: without a default the type is the
    [typeof] of the array, which is [object]. *)
Theorem array_without_default_becomes_object (fuel : nat) (es : list string) :
  forallb (fun s => negb (String.eqb s "")) es = true ->
  (N.of_nat (List.length es) <= 4294967295)%N ->
  mergeEnvJsonValue (S (S fuel)) VUndef (array_of (map VStr es)) None
  = Ok (VObj (indexed 0 (map VStr es))).
Proof.
  intros Hes Hlen.
  assert (Ho : ordered (map fst (indexed 0 (map VStr es))) = true).
  { apply indexed_ordered. rewrite length_map. lia. }
  change (mergeEnvJsonValue (S (S fuel)) VUndef (array_of (map VStr es)) None)
    with (mergeEnvObject (S fuel) VUndef (array_of (map VStr es))).
  unfold mergeEnvObject, mergeEnvObject_body, array_of.
  cbn [nullish typeof negb String.eqb Ascii.eqb Bool.eqb bind Object_keys own_keys
         map app].
  rewrite (dedup_NoDup _ (ordered_NoDup _ Ho)).
  match goal with
  | |- bind ?m _ = _ =>
      assert (L : m = Ok (indexed 0 (map VStr es))); [| rewrite L; reflexivity]
  end.
  etransitivity;
    [exact (merge_loop_ordered (mergeEnvJsonValue (S fuel)) (VObj [])
              (VArr (N.of_nat (List.length (map VStr es))) (indexed 0 (map VStr es)))
              (map fst (indexed 0 (map VStr es))) [] Ho (indexed_plain _ _)) |].
  rewrite merge_each_env_only; [reflexivity |].
  intros k v Hin. split; [| split].
  - cbn [Get]. rewrite (lookup_In_NoDup _ k v (ordered_NoDup _ Ho) Hin). reflexivity.
  - pose proof (indexed_plain (map VStr es) 0) as Hp.
    rewrite forallb_forall in Hp. apply negb_true_iff, Hp.
    apply (in_map fst) in Hin. exact Hin.
  - destruct (indexed_strings es 0 k v Hes Hin) as (s & -> & Hs).
    apply mergeEnvJsonValue_untyped_string, Hs.
Qed.

Lemma array_without_default_becomes_object_witness :
  mergeEnvJsonValue 2 VUndef (array_of (map VStr ["a"; "7"])) None
  = Ok (VObj (indexed 0 (map VStr ["a"; "7"]))).
Proof.
  apply (array_without_default_becomes_object 0 ["a"; "7"]);
    [reflexivity | vm_compute; discriminate].
Defined.

(* ================================================================= *)
(** * What [config] leaves in [conf] *)

Lemma inflate_fold_object (l : props) :
  forall (ps : props) (R : jsvalue),
    fold_left inflate_step l (Ok (VObj ps)) = Ok R -> exists ps', R = VObj ps'.
Proof.
  induction l as [| kv l IH]; intros ps R H; cbn [fold_left] in H.
  - injection H as <-. eexists; reflexivity.
  - destruct (inflate_step (Ok (VObj ps)) kv) as [R1 | e | b] eqn:E.
    + destruct (inflate_step_object ps kv R1 E) as (ps1 & ->). exact (IH ps1 R H).
    + rewrite inflate_failed in H by (intros R0; discriminate). discriminate.
    + rewrite inflate_failed in H by (intros R0; discriminate). discriminate.
Qed.

Lemma inflate_object (obj : props) (R : jsvalue) :
  inflate obj = Ok R -> exists ps, R = VObj ps.
Proof. apply inflate_fold_object. Qed.

Lemma lookup_None_iff {A : Type} (ps : list (string * A)) (k : string) :
  lookup ps k = None <-> ~ In k (map fst ps).
Proof.
  induction ps as [| [k0 v0] ps IH]; cbn [lookup map fst In]; [tauto |].
  destruct (String.eqb k0 k) eqn:E.
  - apply String.eqb_eq in E. split; [discriminate | intros H; exfalso; apply H; left; exact E].
  - apply String.eqb_neq in E. rewrite IH. tauto.
Qed.

(** The loop of [config]. *)
Lemma config_loop (M : jsvalue) (keys : list string) :
  forall (ps : props) (c : jsvalue),
    fold_left
      (fun acc key =>
         conf <- acc ;;
         v <- Get M key ;;
         Put conf key v)%js
      keys (Ok (VObj ps)) = Ok c ->
    exists cs : props,
      c = VObj cs /\
      (forall k, In k keys -> exists v, Get M k = Ok v /\ lookup cs k = Some v) /\
      (forall k, ~ In k keys -> lookup cs k = lookup ps k).
Proof.
  induction keys as [| key keys IH] using rev_ind; intros ps c H.
  - cbn in H. injection H as <-. exists ps. split; [reflexivity |].
    split; [intros k [] | reflexivity].
  - rewrite fold_left_app in H. cbn [fold_left] in H.
    apply bind_Ok in H. destruct H as (c1 & H1 & H).
    apply bind_Ok in H. destruct H as (v & Hv & H).
    destruct (IH ps c1 H1) as (cs1 & -> & Hin & Hout).
    apply Put_define in H. subst c. exists (define cs1 key v). split; [reflexivity |].
    split.
    + intros k Hk. rewrite lookup_define. destruct (String.eqb k key) eqn:E.
      * apply String.eqb_eq in E. subst k. exists v. split; [exact Hv | reflexivity].
      * apply in_app_or in Hk. destruct Hk as [Hk | [Hk | []]]; [exact (Hin k Hk) |].
        subst k. rewrite String.eqb_refl in E. discriminate.
    + intros k Hk. rewrite lookup_define. destruct (String.eqb k key) eqn:E.
      * apply String.eqb_eq in E. subst k. exfalso. apply Hk, in_or_app.
        right. left. reflexivity.
      * apply Hout. intros Hk'. apply Hk, in_or_app. left. exact Hk'.
Qed.

(** What [merge] returns for an object of defaults is an object that has
    all the keys of the defaults. *)
Lemma merge_object (fuel : nat) (env : environment) (ps : props)
    (envKeys : option (list string)) (m : jsvalue) :
  merge fuel env (VObj ps) envKeys = Ok m ->
  exists ms, m = VObj ms /\ forall k, In k (map fst ps) -> In k (map fst ms).
Proof.
  unfold merge. intros H.
  apply bind_Ok in H. destruct H as (keys & _ & H).
  apply bind_Ok in H. destruct H as (envConfig & _ & H).
  apply bind_Ok in H. destruct H as (envJson & Hinf & H).
  destruct (inflate_object _ _ Hinf) as (es & ->).
  destruct (mergeEnvObject_each fuel ps (VObj es) m eq_refl H) as (ms & -> & Hk).
  exists ms. split; [reflexivity |]. intros k Hin.
  destruct (proj1 (Hk k) (in_or_app _ _ _ (or_introl Hin))) as (dj & ej & x & _ & _ & _ & Hl).
  destruct (in_dec string_dec k (map fst ms)) as [Hy | Hn]; [exact Hy |].
  apply lookup_None_iff in Hn. rewrite Hn in Hl. discriminate.
Qed.

(** X17: let the defaults be an object that has no own key [__proto__],
    and let no segment of its deflated keys or of the keys parsed be the
    name of a prototype member (so that nothing reaches a prototype, and
    [for...in] meets own keys only).  When [config] returns, the object of
    defaults holds what [merge] returned for it with the keys parsed: under
    every key the two have the same value, and neither has a key that the
    other lacks. *)
Theorem config_stores_merged
    (fuel : nat) (env : environment) (parsed ks : list string) (ps : props)
    (c : jsvalue) :
  lookup ps "__proto__" = None ->
  deflateKeys (VObj ps) = Ok ks ->
  forallb plain_path (ks ++ parsed) = true ->
  config fuel env parsed (VObj ps) = Ok c ->
  exists ms cs : props,
    merge fuel env (VObj ps) (Some parsed) = Ok (VObj ms) /\
    c = VObj cs /\
    forall k : string, lookup cs k = lookup ms k.
Proof.
  unfold config. intros _ _ _ H.
  apply bind_Ok in H. destruct H as (m & Hm & H).
  destruct (merge_object fuel env ps (Some parsed) m Hm) as (ms & -> & Hkeys).
  cbn [for_in Object_keys own_keys bind] in H.
  destruct (config_loop (VObj ms) (map fst ms) ps c H) as (cs & -> & Hin & Hout).
  exists ms, cs. split; [exact Hm |]. split; [reflexivity |].
  intros k. destruct (in_dec string_dec k (map fst ms)) as [Hy | Hn].
  - destruct (Hin k Hy) as (v & Hg & ->). cbn [Get] in Hg.
    destruct (lookup ms k) as [v' |] eqn:L; [congruence |].
    apply lookup_None_iff in L. contradiction.
  - rewrite (Hout k Hn). transitivity (@None jsvalue).
    + apply lookup_None_iff. intros Hk. apply Hn, Hkeys, Hk.
    + symmetry. apply lookup_None_iff, Hn.
Qed.

Lemma config_stores_merged_witness :
  exists ms cs : props,
    merge 2 [("port", "9090"); ("db.host", "x"); ("extra", "1")]
      (VObj [("port", VNum (Dec 8080 0)); ("db", VObj [("host", VStr "h")])])
      (Some ["extra"]) = Ok (VObj ms) /\
    VObj [("port", VNum (Dec 9090 0)); ("db", VObj [("host", VStr "x")]);
          ("extra", VStr "1")] = VObj cs /\
    forall k : string, lookup cs k = lookup ms k.
Proof.
  apply (config_stores_merged 2 [("port", "9090"); ("db.host", "x"); ("extra", "1")]
           ["extra"] ["port"; "db.host"]
           [("port", VNum (Dec 8080 0)); ("db", VObj [("host", VStr "h")])]);
    reflexivity.
Defined.

(** X19: what [merge] returns for an object of defaults that has no own
    key [__proto__] is an object, and no key of the defaults is missing
    from it. *)
Theorem merge_keeps_default_keys
    (fuel : nat) (env : environment) (ps : props) (envKeys : option (list string))
    (m : jsvalue) :
  lookup ps "__proto__" = None ->
  merge fuel env (VObj ps) envKeys = Ok m ->
  exists ms : props,
    m = VObj ms /\ forall k, In k (map fst ps) -> lookup ms k <> None.
Proof.
  intros _ H. destruct (merge_object fuel env ps envKeys m H) as (ms & -> & Hk).
  exists ms. split; [reflexivity |]. intros k Hin Hl.
  apply lookup_None_iff in Hl. apply Hl, Hk, Hin.
Qed.

Lemma merge_keeps_default_keys_witness :
  exists ms : props,
    VObj [("port", VNum (Dec 9090 0)); ("db", VObj [("host", VStr "h")])] = VObj ms /\
    forall k, In k (map fst [("port", VNum (Dec 8080 0)); ("db", VObj [("host", VStr "h")])]) ->
              lookup ms k <> None.
Proof.
  apply (merge_keeps_default_keys 2 [("port", "9090")]
           [("port", VNum (Dec 8080 0)); ("db", VObj [("host", VStr "h")])] None);
    reflexivity.
Defined.

(* ================================================================= *)
(** * The store: the other functions *)

(** X12: [deflate] and [deflateKeys] change no object of the store they
    are called in, the one they are given included. *)
Theorem deflate_leaves_store
    (fuel : nat) (json : Store.val) (prefix : string) (h : Store.heap) :
  (exists ext, snd (Store.deflate fuel json prefix h) = h ++ ext) /\
  (exists ext, snd (Store.deflateKeys fuel json h) = h ++ ext).
Proof.
  split; apply frame_extension.
  - apply (safe_deflate (List.length h) fuel json prefix h (Nat.le_refl _) I).
  - apply (safe_deflateKeys (List.length h) fuel json h (Nat.le_refl _) I).
Qed.

(** X13: [mergeEnvJsonValue], [mergeEnvObject] and [mergeEnvArray] change
    no object of the store they are called in: neither the defaults nor
    the environment values. *)
Theorem mergeEnv_leaves_store
    (fuel : nat) (defaultValue envValue : Store.val) (defaultType : option string)
    (h : Store.heap) :
  (exists ext,
      snd (Store.mergeEnvJsonValue fuel defaultValue envValue defaultType h) = h ++ ext) /\
  (exists ext, snd (Store.mergeEnvObject fuel defaultValue envValue h) = h ++ ext) /\
  (exists ext, snd (Store.mergeEnvArray fuel defaultValue envValue h) = h ++ ext).
Proof.
  split; [| split]; apply frame_extension.
  - apply (safe_mergeEnvJsonValue (List.length h) fuel _ _ _ h (Nat.le_refl _) I).
  - apply (safe_mergeEnvObject (List.length h) fuel _ _ h (Nat.le_refl _) I).
  - apply (safe_mergeEnvArray_body (List.length h) (Store.mergeEnvJsonValue fuel)
             (fun d e t => safe_mergeEnvJsonValue (List.length h) fuel d e t)
             _ _ h (Nat.le_refl _) I).
Qed.

(** X14: [inflate] of an object that holds only primitive values, as the
    one that [merge] fills from the environment, and no segment of whose
    keys is the name of a prototype member, changes no object of the store
    it is called in.  (The store holds no prototype objects: a key such as
    [__proto__.x], which writes to one, is left out.) *)
Theorem inflate_leaves_store (le : nat) (h : Store.heap) (ob : Store.object) :
  nth_error h le = Some ob ->
  Forall (fun kv => primitive (snd kv)) (Store.fields ob) ->
  forallb (fun kv => plain_path (fst kv)) (Store.fields ob) = true ->
  exists ext, snd (Store.inflate (Store.Ref le) h) = h ++ ext.
Proof.
  intros Hob Hprim _. apply frame_extension, inflate_frame.
  exists ob. split; assumption.
Qed.

Lemma inflate_leaves_store_witness :
  exists ext,
    snd (Store.inflate (Store.Ref 0)
           [Store.Object false 0 [("a.b", Store.Str "1"); ("a.0", Store.Str "2")]])
    = [Store.Object false 0 [("a.b", Store.Str "1"); ("a.0", Store.Str "2")]] ++ ext.
Proof.
  apply (inflate_leaves_store 0
           [Store.Object false 0 [("a.b", Store.Str "1"); ("a.0", Store.Str "2")]]
           (Store.Object false 0 [("a.b", Store.Str "1"); ("a.0", Store.Str "2")]));
    [reflexivity | repeat constructor | reflexivity].
Defined.

(* ----------------------------------------------------------------- *)
(** ** [config] *)

Lemma same_except_refl (c : Store.val) (h : Store.heap) : same_except c h h.
Proof. split; [apply Nat.le_refl | reflexivity]. Qed.

Lemma same_except_trans (c : Store.val) (h1 h2 h3 : Store.heap) :
  same_except c h1 h2 -> same_except c h2 h3 -> same_except c h1 h3.
Proof.
  intros (L1 & E1) (L2 & E2). split; [lia |]. intros l Hl Hc.
  rewrite E2 by (try lia; exact Hc). apply E1; assumption.
Qed.

Lemma frame_same_except (c : Store.val) (h h' : Store.heap) :
  frame (List.length h) h h' -> same_except c h h'.
Proof.
  intros Hf. split; [apply Hf |]. intros l Hl _.
  apply (frame_nth (List.length h)); assumption.
Qed.

Lemma for_in_pure (o : Store.val) (h : Store.heap) : snd (Store.for_in o h) = h.
Proof. destruct o; try reflexivity; apply Object_keys_pure. Qed.

Lemma Put_same_except (c : Store.val) (k : string) (v : Store.val) (h : Store.heap) :
  same_except c h (snd (Store.Put c k v h)).
Proof.
  destruct c; cbn [Store.Put]; try apply same_except_refl.
  unfold Store.mbind, Store.load.
  destruct (nth_error h l) as [ob |]; [| apply same_except_refl].
  assert (S1 : forall o, same_except (Store.Ref l) h (Store.update h l o)).
  { intros o. split; [rewrite update_length; apply Nat.le_refl |].
    intros l' _ Hc. apply update_nth_other. congruence. }
  destruct (Store.is_array ob && String.eqb k "length"); [apply same_except_refl |].
  destruct (lookup (Store.fields ob) k); [apply S1 |].
  destruct (String.eqb k "__proto__"); [apply same_except_refl | apply S1].
Qed.

(** The loop of [config]. *)
Lemma config_loop_same_except (c m : Store.val) (keys : list string) :
  forall h : Store.heap,
    same_except c h
      (snd (Store.for_each keys tt
              (fun _ key => Store.mbind (Store.Get m key) (fun v => Store.Put c key v))
              h)).
Proof.
  unfold Store.for_each.
  assert (G : forall (acc : Store.M unit) (h : Store.heap),
             same_except c h (snd (acc h)) ->
             same_except c h
               (snd (fold_left
                       (fun acc key =>
                          Store.mbind acc
                            (fun _ => Store.mbind (Store.Get m key)
                                        (fun v => Store.Put c key v)))
                       keys acc h))).
  { induction keys as [| key keys IH]; intros acc h Hacc; [exact Hacc |].
    cbn [fold_left]. apply IH. unfold Store.mbind at 1.
    destruct (acc h) as [[u | e | b] h1]; cbn [snd] in *; try exact Hacc.
    apply (same_except_trans c h h1); [exact Hacc |].
    unfold Store.mbind. destruct (Store.Get m key h1) as [[v | e | b] h2] eqn:G;
      assert (E2 : h2 = h1) by (rewrite <- (Get_pure m key h1), G; reflexivity);
      subst h2; cbn [snd]; try apply same_except_refl.
    apply Put_same_except. }
  intros h. apply G. apply same_except_refl.
Qed.

(** X15: let [deflateKeys(conf)] return, and let no segment of the keys it
    returns or of the keys parsed be the name of a prototype member.  Then
    [config] changes no object of the store it is called in other than the
    one that [conf] refers to: the objects below it, among them the nested
    defaults, stay as they are.  (The store holds no prototype objects: a
    key such as [__proto__.x], which writes to one, is left out.) *)
Theorem config_changes_only_conf
    (fuel : nat) (env : environment) (parsed ks : list string) (conf : Store.val)
    (h : Store.heap) :
  fst (Store.deflateKeys fuel conf h) = Ok ks ->
  forallb plain_path (ks ++ parsed) = true ->
  same_except conf h (snd (Store.config fuel env parsed conf h)).
Proof.
  intros _ _.
  unfold Store.config. unfold Store.mbind at 1.
  set (first := match conf with
                | Store.Undef => Store.alloc (Store.Object false 0 [])
                | _ => Store.ret conf
                end).
  assert (H1 : exists conf' h1,
             first h = (Ok conf', h1) /\ frame (List.length h) h h1 /\
             forall l, l < List.length h -> conf <> Store.Ref l -> conf' <> Store.Ref l).
  { destruct conf; cbn; eexists _, _;
      (split; [reflexivity |]);
      (split; [try apply frame_refl; try (apply frame_alloc, Nat.le_refl) |]);
      try (intros l0 _ Hc; exact Hc).
    intros l0 Hl _ [= E]. lia. }
  destruct H1 as (conf' & h1 & -> & F1 & Hc').
  assert (Hgoal : forall h', same_except conf' h1 h' -> same_except conf h h').
  { intros h' (L & E). split; [destruct F1; lia |]. intros l Hl Hc.
    rewrite E; [apply (frame_nth (List.length h)); assumption
               | destruct F1; lia | apply Hc'; assumption]. }
  apply Hgoal. unfold Store.mbind at 1.
  pose proof (merge_frame fuel env conf' (Some parsed) h1) as F2.
  destruct (Store.merge fuel env conf' (Some parsed) h1) as [[m | e | b] h2];
    cbn [snd] in F2 |- *; try (apply frame_same_except, F2).
  apply (same_except_trans conf' h1 h2); [apply frame_same_except, F2 |].
  unfold Store.mbind at 1.
  destruct (Store.for_in m h2) as [[keys | e | b] h3] eqn:Fi;
    assert (E3 : h3 = h2) by (rewrite <- (for_in_pure m h2), Fi; reflexivity);
    subst h3; cbn [snd]; try apply same_except_refl.
  unfold Store.mbind at 1.
  pose proof (config_loop_same_except conf' m keys h2) as L.
  match goal with
  | |- context [Store.for_each keys tt ?body h2] =>
      change (Store.for_each keys tt body h2)
        with (Store.for_each keys tt
                (fun _ key => Store.mbind (Store.Get m key)
                                (fun v => Store.Put conf' key v)) h2)
  end.
  destruct (Store.for_each keys tt _ h2) as [[u | e | b] h4]; cbn [snd] in L |- *;
    exact L.
Qed.

Lemma config_changes_only_conf_witness :
  same_except (Store.Ref 0)
    [port_default]
    (snd (Store.config 2 [("port", "9090"); ("extra", "1")] ["extra"] (Store.Ref 0)
            [port_default])).
Proof.
  apply (config_changes_only_conf 2 [("port", "9090"); ("extra", "1")]
           ["extra"] ["port"] (Store.Ref 0) [port_default]); reflexivity.
Defined.

Lemma store_load_not_Throw (l : nat) (h : Store.heap) (e : error) :
  fst (Store.load l h) <> Throw e.
Proof. unfold Store.load. destruct (nth_error h l); discriminate. Qed.

Lemma store_miss_not_Throw (names : list string) (k : string) (h : Store.heap)
    (e : error) :
  fst (Store.miss names k h) <> Throw e.
Proof. unfold Store.miss. destruct (member names k); discriminate. Qed.

Lemma store_Get_not_Throw (o : Store.val) (k : string) (h : Store.heap) (e : error) :
  Store.nullish o = false -> fst (Store.Get o k h) <> Throw e.
Proof.
  intros Hn. destruct o; try discriminate; cbn [Store.Get];
    try apply store_miss_not_Throw.
  - destruct (array_index k) as [i |].
    + destruct (String.get (N.to_nat i) s); discriminate.
    + destruct (String.eqb k "length"); [discriminate | apply store_miss_not_Throw].
  - unfold Store.mbind, Store.load. destruct (nth_error h l) as [ob |]; [| discriminate].
    destruct (lookup (Store.fields ob) k); [discriminate |].
    destruct (Store.is_array ob && String.eqb k "length");
      [discriminate | apply store_miss_not_Throw].
Qed.

Lemma store_Put_not_Throw (o : Store.val) (k : string) (v : Store.val)
    (h : Store.heap) (e : error) :
  Store.nullish o = false -> fst (Store.Put o k v h) <> Throw e.
Proof.
  intros Hn. destruct o; try discriminate; cbn [Store.Put].
  unfold Store.mbind, Store.load. destruct (nth_error h l) as [ob |]; [| discriminate].
  destruct (Store.is_array ob && String.eqb k "length"); [discriminate |].
  destruct (lookup (Store.fields ob) k); [discriminate |].
  destruct (String.eqb k "__proto__"); discriminate.
Qed.

Lemma store_for_in_not_Throw (o : Store.val) (h : Store.heap) (e : error) :
  fst (Store.for_in o h) <> Throw e.
Proof.
  destruct o; cbn [Store.for_in Store.Object_keys Store.own_fields]; try discriminate.
  unfold Store.mbind at 1. unfold Store.mbind, Store.load.
  destruct (nth_error h l); discriminate.
Qed.

Lemma store_for_in_nullish (o : Store.val) (h : Store.heap) :
  Store.nullish o = true -> Store.for_in o h = (Ok [], h).
Proof. destruct o; try discriminate; reflexivity. Qed.

(** [merge] does not return for [null]: [Object.keys(null)] throws. *)
Lemma store_merge_null (fuel : nat) (env : environment) (ks : option (list string))
    (h : Store.heap) (m : Store.val) :
  fst (Store.merge fuel env Store.Null ks h) <> Ok m.
Proof. destruct fuel; discriminate. Qed.

Lemma config_loop_not_Throw (c m : Store.val) (keys : list string) :
  Store.nullish c = false -> Store.nullish m = false ->
  forall (h : Store.heap) (e : error),
    fst (Store.for_each keys tt
           (fun _ key => Store.mbind (Store.Get m key) (fun v => Store.Put c key v))
           h) <> Throw e.
Proof.
  intros Hc Hm. unfold Store.for_each.
  assert (G : forall (acc : Store.M unit),
             (forall h e, fst (acc h) <> Throw e) ->
             forall h e,
               fst (fold_left
                      (fun acc key =>
                         Store.mbind acc
                           (fun _ => Store.mbind (Store.Get m key)
                                       (fun v => Store.Put c key v)))
                      keys acc h) <> Throw e).
  { induction keys as [| key keys IH]; intros acc Hacc; [exact Hacc |].
    cbn [fold_left]. apply IH. intros h e. unfold Store.mbind at 1.
    pose proof (Hacc h) as Ha.
    destruct (acc h) as [[u | e0 | b] h1]; cbn [fst] in *;
      [| exact (Ha e) | discriminate].
    unfold Store.mbind. pose proof (store_Get_not_Throw m key h1) as Hg.
    destruct (Store.Get m key h1) as [[v | e1 | b] h2]; cbn [fst] in *;
      [| intros [= <-]; exact (Hg e1 Hm eq_refl) | discriminate].
    apply store_Put_not_Throw, Hc. }
  intros h e. apply G. intros h0 e0. discriminate.
Qed.

(** X16: let [deflateKeys(conf)] return, and let no segment of the keys it
    returns or of the keys parsed be the name of a prototype member (in
    particular none is [length], which an assignment to an array [conf]
    can reject after other keys have been written).  When [config] throws,
    no object of the store it was called in has changed, [conf] included:
    the exception comes from [merge], and [conf] is written only once
    [merge] has returned. *)
Theorem config_failure_changes_nothing
    (fuel : nat) (env : environment) (parsed ks : list string) (conf : Store.val)
    (h : Store.heap) (e : error) :
  fst (Store.deflateKeys fuel conf h) = Ok ks ->
  forallb plain_path (ks ++ parsed) = true ->
  fst (Store.config fuel env parsed conf h) = Throw e ->
  exists ext, snd (Store.config fuel env parsed conf h) = h ++ ext.
Proof.
  intros _ _ H. apply frame_extension. revert H.
  unfold Store.config.
  set (first := match conf with
                | Store.Undef => Store.alloc (Store.Object false 0 [])
                | _ => Store.ret conf
                end).
  assert (H1 : exists conf' h1,
             first h = (Ok conf', h1) /\ frame (List.length h) h h1 /\
             conf' <> Store.Undef).
  { destruct conf; cbn; eexists _, _;
      (split; [reflexivity |]);
      (split; [try apply frame_refl; try (apply frame_alloc, Nat.le_refl) |]);
      discriminate. }
  destruct H1 as (conf' & h1 & E1 & F1 & Hu).
  unfold Store.mbind. rewrite E1.
  pose proof (merge_frame fuel env conf' (Some parsed) h1) as F2.
  pose proof (store_merge_null fuel env (Some parsed) h1) as Hnull.
  assert (F12 : frame (List.length h) h
                  (snd (Store.merge fuel env conf' (Some parsed) h1))).
  { apply (frame_trans _ h h1); [exact F1 |].
    apply (frame_le _ (List.length h1)); [destruct F1; lia | exact F2]. }
  destruct (Store.merge fuel env conf' (Some parsed) h1) as [[m | e0 | b] h2] eqn:Em;
    cbn [fst snd] in *; [| intros _; exact F12 | discriminate].
  assert (Hc : Store.nullish conf' = false).
  { destruct conf'; try reflexivity; [contradiction |].
    exfalso. apply (Hnull m). rewrite Em. reflexivity. }
  pose proof (store_for_in_not_Throw m h2) as Hfi.
  pose proof (store_for_in_nullish m h2) as Hfn.
  destruct (Store.for_in m h2) as [[keys | e1 | b] h3] eqn:Fi; cbn [fst snd] in *;
    [| intros [= <-]; exfalso; exact (Hfi e1 eq_refl) | discriminate].
  destruct (Store.nullish m) eqn:Hm.
  - specialize (Hfn eq_refl). injection Hfn as -> ->. cbn. discriminate.
  - pose proof (config_loop_not_Throw conf' m keys Hc Hm h3) as Hl.
    unfold Store.mbind in Hl.
    match type of Hl with
    | forall e, fst ?t <> _ =>
        match goal with
        | |- context [Store.for_each keys tt ?body h3] =>
            change (Store.for_each keys tt body h3) with t
        end;
        destruct t as [[u | e2 | b] h4]
    end; cbn [fst snd] in *;
      [discriminate | intros [= <-]; exfalso; exact (Hl e2 eq_refl) | discriminate].
Qed.

Lemma config_failure_changes_nothing_witness :
  exists ext,
    snd (Store.config 1 [("port", "not-a-number")] ["port"] (Store.Ref 0)
           [port_default])
    = [port_default] ++ ext.
Proof.
  apply (config_failure_changes_nothing 1 [("port", "not-a-number")] ["port"]
           ["port"] (Store.Ref 0) [port_default] TypeMismatch); reflexivity.
Defined.

(* ================================================================= *)
(** * The variables that [merge] chooses by itself *)

Lemma startsWith_head (e p : string) :
  startsWith e p = true -> head_is_digit p = true -> head_is_digit e = true.
Proof.
  unfold startsWith. destruct p as [| c p]; [discriminate |].
  destruct e as [| d e]; cbn [String.prefix]; [discriminate |].
  destruct (Ascii.ascii_dec c d) as [<- | Hne]; [| discriminate].
  intros _ H. exact H.
Qed.

Lemma head_is_digit_app (a b : string) :
  head_is_digit a = true -> head_is_digit (a +++ b) = true.
Proof. destruct a; [discriminate | intros H; exact H]. Qed.

(** X20: when [envKeys] is not given, what [merge] chooses among the
    names of the environment does not depend on the keys of the defaults
    but on their number: a name is chosen when it starts with a position
    [0], ..., [n - 1] of the list of deflated keys followed by a dot.  So
    two lists of keys of the same length choose the same names, and a name
    that does not start with a digit is never chosen. *)
Theorem autoselect_ignores_key_names (keys : list string) (envKey : string) :
  (selected keys envKey = true <->
   exists i : nat,
     i < List.length keys /\
     startsWith envKey (N_to_string (N.of_nat i) +++ ".") = true) /\
  (forall keys' : list string,
      List.length keys' = List.length keys ->
      selected keys' envKey = selected keys envKey) /\
  (head_is_digit envKey = false -> selected keys envKey = false).
Proof.
  split; [apply selected_spec |]. split.
  - intros keys' Hlen. unfold selected, for_in_array. rewrite Hlen. reflexivity.
  - intros Hd. destruct (selected keys envKey) eqn:E; [| reflexivity].
    apply selected_spec in E. destruct E as (i & _ & Hs).
    apply startsWith_head in Hs.
    + rewrite Hs in Hd. discriminate.
    + apply head_is_digit_app, N_to_string_head.
Qed.

Lemma autoselect_ignores_key_names_witness :
  selected ["x"; "y"] "1.port" = selected ["db.host"; "db.port"] "1.port" /\
  selected ["db.host"; "db.port"] "db.host.name" = false.
Proof.
  split.
  - apply (proj1 (proj2 (autoselect_ignores_key_names ["db.host"; "db.port"] "1.port"))
             ["x"; "y"]).
    reflexivity.
  - apply (proj2 (proj2 (autoselect_ignores_key_names ["db.host"; "db.port"]
                           "db.host.name"))).
    reflexivity.
Defined.

Lemma selected_none (keys names : list string) :
  forallb (fun k => negb (head_is_digit k)) names = true ->
  filter (selected keys) names = [].
Proof.
  induction names as [| e names IH]; intros H; [reflexivity |].
  cbn [forallb] in H. apply andb_prop in H. destruct H as (He & H).
  apply negb_true_iff in He. cbn [filter].
  destruct (selected keys e) eqn:E; [| exact (IH H)].
  apply selected_spec in E. destruct E as (i & _ & Hs).
  apply startsWith_head in Hs; [rewrite Hs in He; discriminate |].
  apply head_is_digit_app, N_to_string_head.
Qed.

(** X21: in an environment where no name starts with a digit, [merge]
    without [envKeys] reads only the deflated keys of the defaults: it is
    [merge] with an empty list of keys. *)
Theorem merge_chooses_nothing
    (fuel : nat) (env : environment) (conf : jsvalue) :
  forallb (fun k => negb (head_is_digit k)) (map fst env) = true ->
  merge fuel env conf None = merge fuel env conf (Some []).
Proof.
  intros H. unfold merge.
  destruct (deflateKeys match conf with VUndef => VObj [] | _ => conf end)
    as [keys | e | b]; cbn [bind]; try reflexivity.
  rewrite (selected_none keys (map fst env) H). reflexivity.
Qed.

Lemma merge_chooses_nothing_witness :
  merge 2 [("db.host.name", "n"); ("db.host", "x"); ("PATH", "/bin")]
    (VObj [("db", VObj [("host", VStr "h")])]) None
  = merge 2 [("db.host.name", "n"); ("db.host", "x"); ("PATH", "/bin")]
      (VObj [("db", VObj [("host", VStr "h")])]) (Some []).
Proof.
  apply (merge_chooses_nothing 2
           [("db.host.name", "n"); ("db.host", "x"); ("PATH", "/bin")]
           (VObj [("db", VObj [("host", VStr "h")])])).
  reflexivity.
Defined.

(* ================================================================= *)
(** * An array given element by element *)

Lemma indexed_app (l1 l2 : list jsvalue) :
  forall j : N,
    indexed j (l1 ++ l2) = indexed j l1 ++ indexed (j + N.of_nat (List.length l1)) l2.
Proof.
  induction l1 as [| x l1 IH]; intros j; cbn [app indexed List.length].
  - rewrite N.add_0_r. reflexivity.
  - rewrite IH. do 3 f_equal. lia.
Qed.

Lemma run_key (k : string) (j : N) :
  flat_key k = true ->
  split "." (trim (join "." [k; N_to_string j])) = (k, [N_to_string j]).
Proof.
  intros Hk. unfold flat_key in Hk. apply andb_prop in Hk. destruct Hk as (Hk & _).
  destruct (key_ok_parts k Hk) as (Hd & Hh & _ & _).
  rewrite trim_id.
  - apply split_join; [exact Hd |]. cbn [forallb]. rewrite N_to_string_dotfree. reflexivity.
  - apply trimmed_join; [exact Hh |]. cbn [last].
    apply digits_last_ws, N_to_string_digits.
Qed.

(** Writing the element after the last one of a dense array. *)
Lemma Put_push (done : list jsvalue) (v : jsvalue) :
  (N.of_nat (List.length done) < 4294967295)%N ->
  Put (array_of done) (N_to_string (N.of_nat (List.length done))) v
  = Ok (array_of (done ++ [v])).
Proof.
  intros Hb. set (j := N.of_nat (List.length done)) in *.
  unfold array_of. fold j. cbn [Put]. rewrite N_to_string_not_length.
  assert (Hl : lookup (indexed 0 done) (N_to_string j) = None).
  { pose proof (lookup_indexed done 0 (List.length done)) as L.
    rewrite N.add_0_l in L. fold j in L. rewrite L.
    apply nth_error_None. apply Nat.le_refl. }
  rewrite Hl.
  destruct (inherited_not_special _ (inherited_index j)) as (_ & ->).
  rewrite (array_index_N_to_string j Hb).
  rewrite length_app. cbn [List.length].
  replace (N.max j (j + 1)) with (N.of_nat (List.length done + 1)) by (unfold j; lia).
  rewrite indexed_app. cbn [indexed]. rewrite N.add_0_l. fold j.
  rewrite define_last; [reflexivity |]. intros k0 Hk0. apply indexed_keys in Hk0.
  destruct Hk0 as (i & -> & Hi). apply before_index; [fold j in Hi; lia | exact Hb].
Qed.

Lemma inflate_step_push (k : string) (done : list jsvalue) (v : jsvalue) :
  flat_key k = true -> done <> [] ->
  (N.of_nat (List.length done) < 4294967295)%N ->
  inflate_step (Ok (VObj [(k, array_of done)]))
    (join "." [k; N_to_string (N.of_nat (List.length done))], v)
  = Ok (VObj [(k, array_of (done ++ [v]))]).
Proof.
  intros Hk Hne Hb. unfold inflate_step. cbn [bind fst snd].
  rewrite (run_key k _ Hk).
  destruct (flat_key_parts k Hk) as (_ & _ & Hi & Hn).
  assert (Hr : forall R, rebinds k R = false)
    by (intros R; unfold rebinds; rewrite Hn; reflexivity).
  rewrite inflateItem_returned, returned_inflateItem by reflexivity.
  rewrite Hr. unfold target at 1. rewrite Hr.
  cbn [Get lookup]. rewrite String.eqb_refl. cbn [bind].
  rewrite or_empty_id by reflexivity.
  rewrite returned_inflateItem by reflexivity.
  assert (Hr' : rebinds (N_to_string (N.of_nat (List.length done))) (array_of done) = false).
  { apply rebinds_nonempty. destruct done; [contradiction | discriminate]. }
  unfold target. rewrite Hr'. rewrite (Put_push done v Hb). cbn [bind Put lookup].
  rewrite String.eqb_refl. cbn [define]. rewrite String.eqb_refl. reflexivity.
Qed.

Lemma inflate_step_first (k : string) (v : jsvalue) :
  flat_key k = true ->
  inflate_step (Ok (VObj [])) (join "." [k; N_to_string 0], v)
  = Ok (VObj [(k, array_of [v])]).
Proof.
  intros Hk. unfold inflate_step. cbn [bind fst snd].
  rewrite (run_key k _ Hk).
  destruct (flat_key_parts k Hk) as (_ & _ & Hi & Hn).
  assert (Hr : forall R, rebinds k R = false)
    by (intros R; unfold rebinds; rewrite Hn; reflexivity).
  rewrite inflateItem_returned, returned_inflateItem by reflexivity.
  rewrite Hr. unfold target at 1. rewrite Hr.
  cbn [Get lookup]. rewrite (miss_object k Hi). cbn [bind].
  change (returned (_inflateItem (N_to_string 0) [] v (or_empty VUndef)))
    with (Ok (array_of [v])).
  cbn [bind Put lookup].
  destruct (inherited_not_special k Hi) as (_ & ->). reflexivity.
Qed.

Lemma inflate_run (k : string) (l : list jsvalue) :
  flat_key k = true ->
  forall done : list jsvalue,
    done <> [] ->
    (N.of_nat (List.length done + List.length l) <= 4294967295)%N ->
    fold_left inflate_step (run k (N.of_nat (List.length done)) l)
      (Ok (VObj [(k, array_of done)]))
    = Ok (VObj [(k, array_of (done ++ l))]).
Proof.
  intros Hk. induction l as [| v l IH]; intros done Hne Hb; cbn [run fold_left].
  - rewrite app_nil_r. reflexivity.
  - cbn [List.length] in Hb.
    rewrite (inflate_step_push k done v Hk Hne) by lia.
    replace (N.of_nat (List.length done) + 1)%N
      with (N.of_nat (List.length (done ++ [v])))
      by (rewrite length_app; cbn [List.length]; lia).
    rewrite IH.
    + rewrite <- app_assoc. reflexivity.
    + intros E. apply app_eq_nil in E. destruct E as (_ & E). discriminate.
    + rewrite length_app. cbn [List.length]. lia.
Qed.

(** X22: let [k] be a single segment (no dot) without white space at
    either end, that does not parse as a number and is not the name of a
    prototype member.  The flat keys [k.0], [k.1], ..., [k.(n-1)], in this
    order, with [1 <= n <= 2^32 - 1], make [inflate] build under [k] the
    array of the [n] values. *)
Theorem inflate_builds_array (k : string) (vs : list jsvalue) :
  flat_key k = true -> vs <> [] ->
  (N.of_nat (List.length vs) <= 4294967295)%N ->
  inflate (run k 0 vs) = Ok (VObj [(k, array_of vs)]).
Proof.
  intros Hk Hne Hb. destruct vs as [| v vs]; [contradiction |].
  unfold inflate. cbn [run fold_left]. rewrite (inflate_step_first k v Hk).
  cbn [List.length] in Hb.
  exact (inflate_run k vs Hk [v] ltac:(discriminate) ltac:(cbn [List.length]; lia)).
Qed.

Lemma inflate_builds_array_witness :
  inflate (run "hosts" 0 [VStr "a"; VStr "b"; VStr "c"])
  = Ok (VObj [("hosts", array_of [VStr "a"; VStr "b"; VStr "c"])]).
Proof.
  apply (inflate_builds_array "hosts" [VStr "a"; VStr "b"; VStr "c"]);
    [reflexivity | discriminate | vm_compute; discriminate].
Defined.
